(** * BlockPool: the parallel block-fetch coordinator

    A shallow embedding of the Go package [blockchain] (type [BlockPool], its
    methods, the admission loop [run] and the per-height goroutine
    [requestRoutine]) and the properties of its specification.

    Conventions of the embedding.
    - Go's [uint] is a 64-bit word and [int32] a 32-bit two's complement
      integer; both are carried by [Z] and every arithmetic operation of the
      source is followed by its wrap-around ([wrap_uint], [wrap_int32]).
    - [map[uint]*bpRequest] and [map[string]*bpPeer] are [gmap]s.  The maps
      only ever hold non-nil pointers and no pointer is shared between two
      keys, so updating the pointee is updating the entry of its key.
    - Every method body runs under one of the two mutexes, so a method is one
      atomic transition of the pool.  Methods live in the monad [M]: state
      passing over the pool, with [panic] and a log of the effects that leave
      the pool (channel sends and [go] statements).
    - Goroutines are program counters stepped one atomic action at a time;
      [exec] interleaves them with the calls of the network layer and of the
      consumer. *)

From Stdlib Require Import ZArith Lia.
From stdpp Require Import gmap strings list fin_maps.

Local Open Scope Z_scope.

(** ** Machine integers *)

Definition uint_modulus : Z := 2 ^ 64.
Definition int32_min : Z := - 2 ^ 31.
Definition int32_max : Z := 2 ^ 31 - 1.

(** Arithmetic on [uint] is modulo [2^64]. *)
Definition wrap_uint (z : Z) : Z := z mod uint_modulus.

(** Arithmetic on [int32] wraps in two's complement. *)
Definition wrap_int32 (z : Z) : Z := (z + 2 ^ 31) mod 2 ^ 32 - 2 ^ 31.

(** The conversion [uint(x)] of an [int32]: sign extension, then the bits
    read as unsigned. *)
Definition uint_of_int32 (z : Z) : Z := z mod uint_modulus.

#[global] Arguments wrap_uint : simpl never.
#[global] Arguments wrap_int32 : simpl never.
#[global] Arguments uint_of_int32 : simpl never.

Definition is_uint (z : Z) : Prop := 0 <= z < uint_modulus.
Definition is_int32 (z : Z) : Prop := int32_min <= z <= int32_max.

(** ** Constants of the package *)

Definition maxOutstandingRequestsPerPeer : Z := 10.
Definition inputsChannelCapacity : Z := 100.
Definition maxTries : Z := 3.
Definition requestIntervalMS : Z := 500.
Definition requestBatchSize : Z := 50.
Definition maxPendingRequests : Z := 50.
Definition maxTotalRequests : Z := 100.
Definition maxRequestsPerPeer : Z := 20.

(** ** Data *)

(** [types.Block] belongs to another package; the pool reads [Height] only.
    [Data] stands for the rest of the block. *)
Module Block.
Record t := mk { Height : Z; Data : string }.
End Block.

Module BlockRequest.
Record t := mk { Height : Z; PeerId : string }.
End BlockRequest.

Module bpPeer.
Record t := mk { id : string; height : Z; numRequests : Z }.

Definition set_height (h : Z) (p : t) : t := mk (id p) h (numRequests p).
Definition set_numRequests (n : Z) (p : t) : t := mk (id p) (height p) n.
End bpPeer.

Module bpRequest.
Record t := mk { height : Z; peerId : string; block : option Block.t }.

Definition set_peerId (p : string) (r : t) : t := mk (height r) p (block r).
Definition set_block (b : option Block.t) (r : t) : t :=
  mk (height r) (peerId r) b.
End bpRequest.

Module BlockPool.
(** The mutexes carry no data; the channels and the goroutines are kept in
    the surrounding [World]; [repeater] is never read. *)
Record t := mk {
  requests : gmap Z bpRequest.t;
  height : Z;            (* uint: the lowest key in requests *)
  numPending : Z;        (* int32 *)
  numTotal : Z;          (* int32 *)
  peers : gmap string bpPeer.t;
  running : Z            (* int32, atomic *)
}.

Definition set_requests (v : gmap Z bpRequest.t) (p : t) : t :=
  mk v (height p) (numPending p) (numTotal p) (peers p) (running p).
Definition set_height (v : Z) (p : t) : t :=
  mk (requests p) v (numPending p) (numTotal p) (peers p) (running p).
Definition set_numPending (v : Z) (p : t) : t :=
  mk (requests p) (height p) v (numTotal p) (peers p) (running p).
Definition set_numTotal (v : Z) (p : t) : t :=
  mk (requests p) (height p) (numPending p) v (peers p) (running p).
Definition set_peers (v : gmap string bpPeer.t) (p : t) : t :=
  mk (requests p) (height p) (numPending p) (numTotal p) v (running p).
Definition set_running (v : Z) (p : t) : t :=
  mk (requests p) (height p) (numPending p) (numTotal p) (peers p) v.
End BlockPool.

(** ** Effects and the method monad *)

(** What a method does besides changing the pool. *)
Inductive effect :=
| SendRequest (r : BlockRequest.t)   (* pool.requestsCh <- r *)
| SendTimeout (peerId : string)      (* pool.timeoutsCh <- peerId *)
| GoRequestRoutine (height : Z)      (* go requestRoutine(pool, height) *)
| GoRun.                             (* go pool.run() *)

Inductive outcome (A : Type) :=
| Ok (a : A) (pool : BlockPool.t) (effs : list effect)
| Panic (msg : string) (pool : BlockPool.t) (effs : list effect).
Arguments Ok {A} a pool effs.
Arguments Panic {A} msg pool effs.

Definition M (A : Type) : Type := BlockPool.t → outcome A.

Definition ret {A} (a : A) : M A := λ pool, Ok a pool [].

Definition bind {A B} (m : M A) (k : A → M B) : M B := λ pool,
  match m pool with
  | Ok a pool' effs =>
      match k a pool' with
      | Ok b pool'' effs' => Ok b pool'' (effs ++ effs')
      | Panic msg pool'' effs' => Panic msg pool'' (effs ++ effs')
      end
  | Panic msg pool' effs => Panic msg pool' effs
  end.

#[global] Instance M_ret : MRet M := @ret.
#[global] Instance M_bind : MBind M := λ A B k m, bind m k.

Definition get : M BlockPool.t := λ pool, Ok pool pool [].
Definition modify (f : BlockPool.t → BlockPool.t) : M unit :=
  λ pool, Ok tt (f pool) [].
Definition panic {A} (msg : string) : M A := λ pool, Panic msg pool [].
Definition emit (e : effect) : M unit := λ pool, Ok tt pool [e].

(** The message of the Go runtime for a field access through a nil pointer. *)
Definition nil_dereference : string :=
  "runtime error: invalid memory address or nil pointer dereference".

(** ** The pool *)

Definition NewBlockPool (start : Z) : BlockPool.t :=
  {| BlockPool.requests := ∅;
     BlockPool.height := start;
     BlockPool.numPending := 0;
     BlockPool.numTotal := 0;
     BlockPool.peers := ∅;
     BlockPool.running := 0 |}.

(** [atomic.CompareAndSwapInt32(&pool.running, old, new)] *)
Definition CompareAndSwapRunning (old new : Z) : M bool :=
  pool ← get;
  if decide (BlockPool.running pool = old)
  then modify (BlockPool.set_running new);; mret true
  else mret false.

(** [atomic.LoadInt32(&pool.running)] *)
Definition LoadRunning : M Z :=
  pool ← get; mret (BlockPool.running pool).

Definition Start : M unit :=
  swapped ← CompareAndSwapRunning 0 1;
  if swapped : bool then emit GoRun else mret tt.

Definition Stop : M unit :=
  swapped ← CompareAndSwapRunning 1 0;
  mret tt.

Definition IsRunning : M bool :=
  r ← LoadRunning; mret (bool_decide (r = 1)).

Definition GetStatus : M (Z * Z * Z) :=
  pool ← get;
  mret (BlockPool.height pool, BlockPool.numPending pool,
        BlockPool.numTotal pool).

Definition PeekTwoBlocks : M (option Block.t * option Block.t) :=
  pool ← get;
  let first :=
    match BlockPool.requests pool !! BlockPool.height pool with
    | Some r => bpRequest.block r
    | None => None
    end in
  let second :=
    match BlockPool.requests pool !! wrap_uint (BlockPool.height pool + 1) with
    | Some r => bpRequest.block r
    | None => None
    end in
  mret (first, second).

Definition PopRequest : M unit :=
  pool ← get;
  match BlockPool.requests pool !! BlockPool.height pool with
  | Some {| bpRequest.block := Some _ |} =>
      modify (λ pool,
        BlockPool.set_numTotal (wrap_int32 (BlockPool.numTotal pool - 1))
          (BlockPool.set_height (wrap_uint (BlockPool.height pool + 1))
            (BlockPool.set_requests
               (delete (BlockPool.height pool) (BlockPool.requests pool))
               pool)))
  | _ => panic "PopRequest() requires a valid block"
  end.

Definition RemovePeer (peerId : string) : M unit :=
  modify (λ pool,
    BlockPool.set_peers (delete peerId (BlockPool.peers pool)) pool).

Definition RedoRequest (height : Z) : M unit :=
  pool ← get;
  match BlockPool.requests pool !! height with
  | None => panic nil_dereference
  | Some request =>
      match bpRequest.block request with
      | None => panic "Expected block to be non-nil"
      | Some _ =>
          RemovePeer (bpRequest.peerId request);;
          modify (λ pool,
            BlockPool.set_numPending
              (wrap_int32 (BlockPool.numPending pool + 1))
              (BlockPool.set_requests
                 (<[height :=
                      bpRequest.set_peerId ""
                        (bpRequest.set_block None request)]>
                    (BlockPool.requests pool))
                 pool));;
          emit (GoRequestRoutine height)
      end
  end.

Definition hasBlock (height : Z) : M bool :=
  pool ← get;
  mret match BlockPool.requests pool !! height with
       | Some {| bpRequest.block := Some _ |} => true
       | _ => false
       end.

Definition setPeerForRequest (height : Z) (peerId : string) : M unit :=
  pool ← get;
  match BlockPool.requests pool !! height with
  | None => mret tt
  | Some request =>
      modify (BlockPool.set_requests
                (<[height := bpRequest.set_peerId peerId request]>
                   (BlockPool.requests pool)))
  end.

Definition AddBlock (block : Block.t) (peerId : string) : M unit :=
  pool ← get;
  match BlockPool.requests pool !! Block.Height block with
  | None => mret tt
  | Some request =>
      if decide (bpRequest.peerId request ≠ peerId) then mret tt
      else
        match bpRequest.block request with
        | Some _ => mret tt
        | None =>
            modify (λ pool,
              BlockPool.set_numPending
                (wrap_int32 (BlockPool.numPending pool - 1))
                (BlockPool.set_requests
                   (<[Block.Height block :=
                        bpRequest.set_block (Some block) request]>
                      (BlockPool.requests pool))
                   pool))
        end
  end.

Definition getPeer (peerId : string) : M (option bpPeer.t) :=
  pool ← get; mret (BlockPool.peers pool !! peerId).

Definition SetPeerHeight (peerId : string) (height : Z) : M unit :=
  pool ← get;
  match BlockPool.peers pool !! peerId with
  | Some peer =>
      modify (BlockPool.set_peers
                (<[peerId := bpPeer.set_height height peer]>
                   (BlockPool.peers pool)))
  | None =>
      modify (BlockPool.set_peers
                (<[peerId := {| bpPeer.height := height;
                                bpPeer.id := peerId;
                                bpPeer.numRequests := 0 |}]>
                   (BlockPool.peers pool)))
  end.

(** The order in which [range pool.peers] visits the keys is chosen by the Go
    runtime: any enumeration of the keys, each once. *)
Definition iteration_order (peers : gmap string bpPeer.t)
    (order : list string) : Prop :=
  order ≡ₚ (map_to_list peers).*1.

#[global] Instance iteration_order_dec peers order :
  Decision (iteration_order peers order).
Proof. unfold iteration_order. apply _. Defined.

Definition available (minHeight : Z) (peer : bpPeer.t) : Prop :=
  ¬ bpPeer.numRequests peer >= maxRequestsPerPeer ∧
  ¬ bpPeer.height peer < minHeight.

#[global] Instance available_dec minHeight peer :
  Decision (available minHeight peer).
Proof. unfold available. apply _. Defined.

(** [pickIncrAvailablePeer], the map being visited in the order [order]. *)
Fixpoint pickIncrAvailablePeer (order : list string) (minHeight : Z)
    : M (option bpPeer.t) :=
  match order with
  | [] => mret None
  | key :: order' =>
      pool ← get;
      match BlockPool.peers pool !! key with
      | None => pickIncrAvailablePeer order' minHeight
      | Some peer =>
          if decide (bpPeer.numRequests peer >= maxRequestsPerPeer)
          then pickIncrAvailablePeer order' minHeight
          else if decide (bpPeer.height peer < minHeight)
          then pickIncrAvailablePeer order' minHeight
          else
            let peer' :=
              bpPeer.set_numRequests
                (wrap_int32 (bpPeer.numRequests peer + 1)) peer in
            modify (BlockPool.set_peers
                      (<[key := peer']> (BlockPool.peers pool)));;
            mret (Some peer')
      end
  end.

Definition decrPeer (peerId : string) : M unit :=
  pool ← get;
  match BlockPool.peers pool !! peerId with
  | None => mret tt
  | Some peer =>
      modify (BlockPool.set_peers
                (<[peerId :=
                     bpPeer.set_numRequests
                       (wrap_int32 (bpPeer.numRequests peer - 1)) peer]>
                   (BlockPool.peers pool)))
  end.

Definition nextHeight : M Z :=
  pool ← get;
  mret (wrap_uint (BlockPool.height pool
                   + uint_of_int32 (BlockPool.numTotal pool))).

Definition makeRequest (height : Z) : M unit :=
  let request :=
    {| bpRequest.height := height;
       bpRequest.peerId := "";
       bpRequest.block := None |} in
  modify (λ pool,
    BlockPool.set_requests (<[height := request]> (BlockPool.requests pool))
      pool);;
  pool ← get;
  let nextHeight :=
    wrap_uint (BlockPool.height pool
               + uint_of_int32 (BlockPool.numTotal pool)) in
  (if decide (nextHeight = height)
   then modify (λ pool,
          BlockPool.set_numPending
            (wrap_int32 (BlockPool.numPending pool + 1))
            (BlockPool.set_numTotal
               (wrap_int32 (BlockPool.numTotal pool + 1)) pool))
   else mret tt);;
  emit (GoRequestRoutine height).

Definition sendRequest (height : Z) (peerId : string) : M unit :=
  r ← LoadRunning;
  if decide (r = 0) then mret tt
  else emit (SendRequest (BlockRequest.mk height peerId)).

Definition sendTimeout (peerId : string) : M unit :=
  r ← LoadRunning;
  if decide (r = 0) then mret tt
  else emit (SendTimeout peerId).

(** ** The admission loop [run]

    One constructor per atomic action of the loop body; [time.Sleep] only
    delays the next iteration. *)
Inductive run_pc :=
| RunLoop                      (* if atomic.LoadInt32(&pool.running) == 0 *)
| RunStatus                    (* pool.GetStatus() and the two caps *)
| RunNextHeight                (* height := pool.nextHeight() *)
| RunMakeRequest (height : Z)  (* pool.makeRequest(height) *)
| RunExit.                     (* break RUN_LOOP *)

Definition run_step (pc : run_pc) : M run_pc :=
  match pc with
  | RunLoop =>
      r ← LoadRunning;
      if decide (r = 0) then mret RunExit else mret RunStatus
  | RunStatus =>
      '(height, numPending, numTotal) ← GetStatus;
      if decide (numPending >= maxPendingRequests) then mret RunLoop
      else if decide (numTotal >= maxTotalRequests) then mret RunLoop
      else mret RunNextHeight
  | RunNextHeight =>
      height ← nextHeight; mret (RunMakeRequest height)
  | RunMakeRequest height =>
      makeRequest height;; mret RunLoop
  | RunExit => mret RunExit
  end.

(** ** The request goroutine [requestRoutine]

    The goroutine keeps the pointer [peer] only to read [peer.id], which is
    never assigned after creation: the program counter carries that id.
    Each constructor is one access to the pool; what the goroutine does on
    its own variables in between (the test [try < maxTries], [try++], the
    sleeps) belongs to the step that follows, so leaving the retry loop and
    [RemovePeer] are one step. *)
Inductive routine_pc :=
| PickLoop                               (* if !pool.IsRunning() *)
| PickPeer                               (* pool.pickIncrAvailablePeer(height) *)
| SetPeer (peerId : string)              (* pool.setPeerForRequest *)
| TryLoop (peerId : string) (try : Z)    (* try < maxTries; pool.sendRequest *)
| CheckBlock (peerId : string) (try : Z) (* time.Sleep; pool.hasBlock(height) *)
| CheckHeight (peerId : string) (try : Z)(* pool.GetStatus(); height < bpHeight *)
| DecrPeer (peerId : string)             (* pool.decrPeer(peer.id); return *)
| Timeout (peerId : string)              (* pool.sendTimeout(peer.id) *)
| Returned.

#[global] Instance run_pc_eq_dec : EqDecision run_pc.
Proof. solve_decision. Defined.
#[global] Instance routine_pc_eq_dec : EqDecision routine_pc.
Proof. solve_decision. Defined.

Definition requestRoutine_step (order : list string) (height : Z)
    (pc : routine_pc) : M routine_pc :=
  match pc with
  | PickLoop =>
      r ← IsRunning;
      if r : bool then mret PickPeer else mret Returned
  | PickPeer =>
      peer ← pickIncrAvailablePeer order height;
      match peer with
      | None => mret PickLoop
      | Some peer => mret (SetPeer (bpPeer.id peer))
      end
  | SetPeer peerId =>
      setPeerForRequest height peerId;; mret (TryLoop peerId 0)
  | TryLoop peerId try =>
      if decide (try < maxTries)
      then sendRequest height peerId;; mret (CheckBlock peerId try)
      else RemovePeer peerId;; mret (Timeout peerId)
  | CheckBlock peerId try =>
      filled ← hasBlock height;
      if filled : bool then mret (DecrPeer peerId)
      else mret (CheckHeight peerId try)
  | CheckHeight peerId try =>
      '(bpHeight, _, _) ← GetStatus;
      if decide (height < bpHeight) then mret (DecrPeer peerId)
      else mret (TryLoop peerId (try + 1))
  | DecrPeer peerId =>
      decrPeer peerId;; mret Returned
  | Timeout peerId =>
      sendTimeout peerId;; mret PickLoop
  | Returned => mret Returned
  end.

(** ** The running system *)

Record World := mkWorld {
  pool : BlockPool.t;
  runners : list run_pc;                 (* goroutines executing run *)
  routines : list (Z * routine_pc);      (* goroutines executing requestRoutine *)
  requestsCh : list BlockRequest.t;      (* messages sent, oldest first *)
  timeoutsCh : list string
}.

Definition NewWorld (start : Z) : World :=
  mkWorld (NewBlockPool start) [] [] [] [].

Definition perform (w : World) (e : effect) : World :=
  match e with
  | SendRequest r =>
      mkWorld (pool w) (runners w) (routines w) (requestsCh w ++ [r])
        (timeoutsCh w)
  | SendTimeout peerId =>
      mkWorld (pool w) (runners w) (routines w) (requestsCh w)
        (timeoutsCh w ++ [peerId])
  | GoRequestRoutine height =>
      mkWorld (pool w) (runners w) (routines w ++ [(height, PickLoop)])
        (requestsCh w) (timeoutsCh w)
  | GoRun =>
      mkWorld (pool w) (runners w ++ [RunLoop]) (routines w) (requestsCh w)
        (timeoutsCh w)
  end.

Definition set_pool (p : BlockPool.t) (w : World) : World :=
  mkWorld p (runners w) (routines w) (requestsCh w) (timeoutsCh w).
Definition set_runners (rs : list run_pc) (w : World) : World :=
  mkWorld (pool w) rs (routines w) (requestsCh w) (timeoutsCh w).
Definition set_routines (rs : list (Z * routine_pc)) (w : World) : World :=
  mkWorld (pool w) (runners w) rs (requestsCh w) (timeoutsCh w).

(** A method called from outside the pool; a panic ends the program. *)
Definition call {A} (m : M A) (w : World) : option World :=
  match m (pool w) with
  | Ok _ pool' effs => Some (foldl perform (set_pool pool' w) effs)
  | Panic _ _ _ => None
  end.

Inductive action :=
| CallStart
| CallStop
| CallSetPeerHeight (peerId : string) (height : Z)
| CallRemovePeer (peerId : string)
| CallAddBlock (block : Block.t) (peerId : string)
| CallGetStatus
| CallPeekTwoBlocks
| CallPopRequest
| CallRedoRequest (height : Z)
| StepRun (i : nat)
| StepRoutine (i : nat) (order : list string).

(** Arguments of type [uint] are 64-bit words. *)
Definition well_typed (a : action) : Prop :=
  match a with
  | CallSetPeerHeight _ height => is_uint height
  | CallAddBlock block _ => is_uint (Block.Height block)
  | CallRedoRequest height => is_uint height
  | _ => True
  end.

#[global] Instance well_typed_dec a : Decision (well_typed a).
Proof. destruct a; unfold well_typed, is_uint; apply _. Defined.

Definition step (a : action) (w : World) : option World :=
  if decide (well_typed a) then
    match a with
    | CallStart => call Start w
    | CallStop => call Stop w
    | CallSetPeerHeight peerId height => call (SetPeerHeight peerId height) w
    | CallRemovePeer peerId => call (RemovePeer peerId) w
    | CallAddBlock block peerId => call (AddBlock block peerId) w
    | CallGetStatus => call GetStatus w
    | CallPeekTwoBlocks => call PeekTwoBlocks w
    | CallPopRequest => call PopRequest w
    | CallRedoRequest height => call (RedoRequest height) w
    | StepRun i =>
        match runners w !! i with
        | None | Some RunExit => None
        | Some pc =>
            match run_step pc (pool w) with
            | Ok pc' pool' effs =>
                Some (foldl perform
                        (set_runners (<[i := pc']> (runners w))
                           (set_pool pool' w)) effs)
            | Panic _ _ _ => None
            end
        end
    | StepRoutine i order =>
        match routines w !! i with
        | None | Some (_, Returned) => None
        | Some (height, pc) =>
            if decide (pc = PickPeer ∧
                       ¬ iteration_order (BlockPool.peers (pool w)) order)
            then None
            else
              match requestRoutine_step order height pc (pool w) with
              | Ok pc' pool' effs =>
                  Some (foldl perform
                          (set_routines (<[i := (height, pc')]> (routines w))
                             (set_pool pool' w)) effs)
              | Panic _ _ _ => None
              end
        end
    end
  else None.

Fixpoint exec (trace : list action) (w : World) : option World :=
  match trace with
  | [] => Some w
  | a :: trace' =>
      match step a w with
      | Some w' => exec trace' w'
      | None => None
      end
  end.

(** ** Vocabulary of the specification *)

(** The request at [h] holds a block. *)
Definition filled (pool : BlockPool.t) (h : Z) : Prop :=
  ∃ request b, BlockPool.requests pool !! h = Some request ∧
               bpRequest.block request = Some b.

#[global] Instance filled_dec pool h : Decision (filled pool h).
Proof.
  unfold filled.
  destruct (BlockPool.requests pool !! h) as [[rh rp [b|]]|].
  - left. by eexists _, b.
  - right. by intros (r & b & [= <-] & Hb).
  - right. by intros (r & b & [=] & _).
Defined.

(** The three conditions under which [AddBlock] keeps the block. *)
Definition accepts (pool : BlockPool.t) (block : Block.t)
    (peerId : string) : Prop :=
  ∃ request,
    BlockPool.requests pool !! Block.Height block = Some request ∧
    bpRequest.peerId request = peerId ∧
    bpRequest.block request = None.

(** The block of the request at [h], if there is a request and it is
    filled. *)
Definition block_at (pool : BlockPool.t) (h : Z) : option Block.t :=
  r ← BlockPool.requests pool !! h; bpRequest.block r.


(** The peer as [pickIncrAvailablePeer] returns it. *)
Definition picked (peer : bpPeer.t) : bpPeer.t :=
  bpPeer.set_numRequests (wrap_int32 (bpPeer.numRequests peer + 1)) peer.

(** The run [trace] of a pool created at [start] goes through without a
    panic and ends in a world where [P] holds. *)
Definition after (trace : list action) (start : Z) (P : World → Prop) : Prop :=
  match exec trace (NewWorld start) with
  | Some w => P w
  | None => False
  end.

(** A pool in the middle of a synchronisation: the window is 7, 8; height 7
    is assigned to A and still awaited, height 8 was delivered by B. *)
Definition sample_pool : BlockPool.t :=
  {| BlockPool.requests :=
       {[ 7 := bpRequest.mk 7 "A" None;
          8 := bpRequest.mk 8 "B" (Some (Block.mk 8 "b8")) ]};
     BlockPool.height := 7;
     BlockPool.numPending := 1;
     BlockPool.numTotal := 2;
     BlockPool.peers :=
       {[ "A" := bpPeer.mk "A" 10 1; "B" := bpPeer.mk "B" 12 0 ]};
     BlockPool.running := 1 |}.

(** ** Scenarios

    Concrete runs of the system, used to exhibit reachable states. *)

(** One pass of the admission loop that admits a height: the running flag,
    the status, the next height, the request. *)
Definition admit_once : list action := repeat (StepRun 0) 4.

(** The goroutine [i] finds the pool running, picks the only peer ["A"],
    publishes the assignment and sends its first request. *)
Definition assign_to_A (i : nat) : list action :=
  [StepRoutine i []; StepRoutine i ["A"]; StepRoutine i []; StepRoutine i []].

(** Two heights are admitted; the block of the second arrives first. *)
Definition second_block_first : list action :=
  [CallStart; CallSetPeerHeight "A" 10] ++ admit_once ++ admit_once ++
  assign_to_A 1 ++ [CallAddBlock (Block.mk 1 "b1") "A"].

(** ** One attempt of a request goroutine

    An attempt is what [requestRoutine] does with one chosen peer: from the
    moment [pickIncrAvailablePeer] has returned it until the goroutine
    returns or is back at the head of [PICK_LOOP].  Between two steps of the
    goroutine the other goroutines and the callers may have changed the pool
    in any way, so every step starts from a pool of its own.  [path] lists
    the program counters the goroutine stepped from and [effs] what it
    sent. *)
Inductive attempt (height : Z) :
    routine_pc → list routine_pc → list effect → routine_pc → Prop :=
| attempt_here pc : attempt height pc [] [] pc
| attempt_step pc order pool pc' pool' effs path effs' pc'' :
    pc ≠ PickLoop → pc ≠ PickPeer → pc ≠ Returned →
    requestRoutine_step order height pc pool = Ok pc' pool' effs →
    attempt height pc' path effs' pc'' →
    attempt height pc (pc :: path) (effs ++ effs') pc''.

Definition is_request (e : effect) : bool :=
  match e with SendRequest _ => true | _ => false end.
Definition is_timeout (e : effect) : bool :=
  match e with SendTimeout _ => true | _ => false end.








(** Height [h] is admitted, requested from A by the goroutine number [h],
    delivered, and its goroutine returns. *)
Definition fetch_from_A (h : nat) : list action :=
  admit_once ++ assign_to_A h ++
  [CallAddBlock (Block.mk (Z.of_nat h) "b") "A";
   StepRoutine h []; StepRoutine h []].

(** 99 heights are fetched and the admission loop has passed its status
    check for the hundredth.  The pool is stopped and started again, which
    starts a second admission loop beside the first; it passes the status
    check too.  Both loops then make their request. *)
Definition restart_with_two_loops : list action :=
  [CallStart; CallSetPeerHeight "A" 1000] ++
  flat_map fetch_from_A (seq 0 99) ++
  [StepRun 0; StepRun 0; CallStop; CallStart; StepRun 1; StepRun 1;
   StepRun 0; StepRun 0; StepRun 1; StepRun 1].

(** ** The invariant of the request table *)

(** The requests that hold no block. *)
Definition unfilled (requests : gmap Z bpRequest.t) : gmap Z bpRequest.t :=
  filter (λ kr, bpRequest.block kr.2 = None) requests.

(** [k] is one of the [total] heights from [base] on, in [uint]
    arithmetic. *)
Definition in_window (base total k : Z) : Prop :=
  ∃ i, 0 <= i < total ∧ k = wrap_uint (base + i).

(** What a request counts for in [numPending]. *)
Definition pending_weight (r : option bpRequest.t) : nat :=
  match r with
  | Some {| bpRequest.block := None |} => 1
  | _ => 0
  end.

Definition total_weight (r : option bpRequest.t) : nat :=
  match r with Some _ => 1 | None => 0 end.

(** The request table and its three counters agree. *)
Record pool_inv (pool : BlockPool.t) : Prop := {
  inv_height : is_uint (BlockPool.height pool);
  inv_total :
    BlockPool.numTotal pool = Z.of_nat (size (BlockPool.requests pool));
  inv_pending :
    BlockPool.numPending pool =
      Z.of_nat (size (unfilled (BlockPool.requests pool)));
  inv_cap : BlockPool.numTotal pool <= maxTotalRequests;
  inv_window : ∀ k,
    is_Some (BlockPool.requests pool !! k) ↔
    in_window (BlockPool.height pool) (BlockPool.numTotal pool) k
}.


(** The height [nextHeight] returns. *)
Definition next_height (pool : BlockPool.t) : Z :=
  wrap_uint (BlockPool.height pool + uint_of_int32 (BlockPool.numTotal pool)).

(** What an admission loop has established about the pool at each of its
    program counters: past the status check the window is below its cap, and
    the height it carries is the next height. *)
Definition admitting (pool : BlockPool.t) (pc : run_pc) : Prop :=
  match pc with
  | RunNextHeight => BlockPool.numTotal pool < maxTotalRequests
  | RunMakeRequest h =>
      BlockPool.numTotal pool < maxTotalRequests ∧ h = next_height pool
  | _ => True
  end.

(** Past the status check [numPending] is below its cap, as long as no
    [RedoRequest] comes in between. *)
Definition admitting_pending (pool : BlockPool.t) (pc : run_pc) : Prop :=
  match pc with
  | RunNextHeight | RunMakeRequest _ =>
      BlockPool.numPending pool < maxPendingRequests
  | _ => True
  end.

(** [Start] is not called again once [Stop] has been called ([stopped] tells
    whether [Stop] was called before [trace]). *)
Fixpoint restart_free (stopped : bool) (trace : list action) : bool :=
  match trace with
  | [] => true
  | CallStart :: trace' => negb stopped && restart_free stopped trace'
  | CallStop :: trace' => restart_free true trace'
  | _ :: trace' => restart_free stopped trace'
  end.

Definition is_stop (a : action) : bool :=
  match a with CallStop => true | _ => false end.

Definition is_redo (a : action) : bool :=
  match a with CallRedoRequest _ => true | _ => false end.

(** The consumer never calls [RedoRequest] in [trace]. *)
Definition redo_free (trace : list action) : bool :=
  forallb (λ a, negb (is_redo a)) trace.

(** The invariant of the running system: the table and its counters agree,
    there is at most one admission loop, and it knows what [admitting]
    says.  [stopped] and [redone] tell whether [Stop] and [RedoRequest] have
    been called so far. *)
Definition world_inv (stopped redone : bool) (w : World) : Prop :=
  pool_inv (pool w) ∧
  (length (runners w) <= 1)%nat ∧
  Forall (admitting (pool w)) (runners w) ∧
  (stopped = false → BlockPool.running (pool w) = 0 → runners w = []) ∧
  (redone = false →
   BlockPool.numPending (pool w) <= maxPendingRequests ∧
   Forall (admitting_pending (pool w)) (runners w)).

(** Changes of the table that an admission loop does not notice: the window
    does not grow and the next height stays. *)
Definition settled (pool pool' : BlockPool.t) : Prop :=
  BlockPool.numTotal pool' <= BlockPool.numTotal pool ∧
  next_height pool' = next_height pool.

(** Fifty heights are admitted, which fills the budget of pending requests;
    the block of height 0 is delivered and one more height is admitted,
    which fills the budget again; the consumer then rejects block 0. *)
Definition redo_at_pending_cap : list action :=
  [CallStart; CallSetPeerHeight "A" 10] ++
  concat (replicate 50 admit_once) ++
  assign_to_A 0 ++ [CallAddBlock (Block.mk 0 "b0") "A"] ++
  admit_once ++ [CallRedoRequest 0].

(** ** The invariant of the peer registry *)

(** The goroutine at [pc] has reserved a slot of the peer [p] by
    [pickIncrAvailablePeer] and has not given it back, neither by
    [decrPeer] nor by deleting the peer. *)
Definition holds (p : string) (pc : routine_pc) : bool :=
  match pc with
  | SetPeer q | TryLoop q _ | CheckBlock q _ | CheckHeight q _ | DecrPeer q =>
      bool_decide (q = p)
  | _ => false
  end.

Definition holder (p : string) (r : Z * routine_pc) : nat :=
  if holds p r.2 then 1 else 0.

(** The number of request goroutines that hold a slot of [p]. *)
Definition holders (routines : list (Z * routine_pc)) (p : string) : nat :=
  sum_list_with (holder p) routines.
#[global] Arguments holders : simpl never.

(** [SetPeerHeight] creates a record only for an id that no goroutine holds
    from an earlier record of the same id. *)
Definition fresh_registration (w : World) (a : action) : bool :=
  match a with
  | CallSetPeerHeight p _ =>
      match BlockPool.peers (pool w) !! p with
      | Some _ => true
      | None => bool_decide (holders (routines w) p = 0%nat)
      end
  | _ => true
  end.

(** Every registration along the run [trace] from [w] is fresh. *)
Fixpoint registrations_fresh (trace : list action) (w : World) : bool :=
  match trace with
  | [] => true
  | a :: trace' =>
      fresh_registration w a &&
      match step a w with
      | Some w' => registrations_fresh trace' w'
      | None => true
      end
  end.

(** The invariant of the registry: a record sits under its own id, and its
    counter is the number of goroutines that hold it. *)
Definition peers_inv (w : World) : Prop :=
  ∀ p peer,
    BlockPool.peers (pool w) !! p = Some peer →
    bpPeer.id peer = p ∧
    bpPeer.numRequests peer = Z.of_nat (holders (routines w) p) ∧
    bpPeer.numRequests peer <= maxRequestsPerPeer.

(** The peer A is picked for height 0 and delivers the block; A disconnects
    and connects again before the goroutine of height 0 has looked at the
    table; the goroutine then finds the block and gives its slot back. *)
Definition reconnect_before_release : list action :=
  [CallStart; CallSetPeerHeight "A" 10] ++ admit_once ++ assign_to_A 0 ++
  [CallAddBlock (Block.mk 0 "b0") "A";
   CallRemovePeer "A"; CallSetPeerHeight "A" 10;
   StepRoutine 0 []; StepRoutine 0 []].

(** * Vocabulary for the pool's life cycle, keys and goroutine runs *)

(** Every request is stored under its own height, a block it holds is the
    block of that height, and every peer is stored under its own id. *)
Definition keyed (pool : BlockPool.t) : Prop :=
  (∀ k request,
     BlockPool.requests pool !! k = Some request →
     bpRequest.height request = k ∧
     ∀ b, bpRequest.block request = Some b → Block.Height b = k) ∧
  (∀ p peer, BlockPool.peers pool !! p = Some peer → bpPeer.id peer = p).

Definition is_pop (a : action) : bool :=
  match a with CallPopRequest => true | _ => false end.
Definition is_start (a : action) : bool :=
  match a with CallStart => true | _ => false end.

(** The number of [PopRequest] calls in [trace]. *)
Definition pops (trace : list action) : Z :=
  Z.of_nat (length (List.filter is_pop trace)).

(** Nothing in [effs] is a send on a channel. *)
Definition silent (effs : list effect) : Prop :=
  Forall (λ e, is_request e = false ∧ is_timeout e = false) effs.

(** What one atomic action does to the keys, to [height], and to the
    channels of a stopped pool ([pop] and [start] tell which action it
    is). *)
Definition action_facts (pop start : bool) (pool pool' : BlockPool.t)
    (effs : list effect) : Prop :=
  (keyed pool → keyed pool') ∧
  BlockPool.height pool' =
    (if pop then wrap_uint (BlockPool.height pool + 1)
     else BlockPool.height pool) ∧
  (start = false → BlockPool.running pool = 0 →
   BlockPool.running pool' = 0 ∧ silent effs).
(** Height 0 is fetched from A and popped. *)
Definition fetch_and_pop : list action :=
  [CallStart; CallSetPeerHeight "A" 1000] ++ fetch_from_A 0 ++
  [CallPopRequest].






(** [n] steps of the admission loop with nothing else running. *)
Fixpoint run_alone (n : nat) (pc : run_pc) : M run_pc :=
  match n with
  | O => mret pc
  | S n' => pc' ← run_step pc; run_alone n' pc'
  end.

(** ** Requests and the goroutines that work on them *)

(** The goroutine at [pc] is still after its block: it has not returned and
    has not decided to. *)
Definition live (pc : routine_pc) : bool :=
  match pc with
  | DecrPeer _ | Returned => false
  | _ => true
  end.

(** The table has a request for [h] that holds no block. *)
Definition awaited (pool : BlockPool.t) (h : Z) : Prop :=
  ∃ request,
    BlockPool.requests pool !! h = Some request ∧
    bpRequest.block request = None.

(** Every request without block has a goroutine at work for its height. *)
Definition served (w : World) : Prop :=
  ∀ h, awaited (pool w) h →
       ∃ i pc, routines w !! i = Some (h, pc) ∧ live pc = true.

(** A request without block after an action was without block before, or
    the action starts a goroutine for it. *)
Definition hands_over (pool pool' : BlockPool.t) (effs : list effect)
    : Prop :=
  ∀ h, awaited pool' h → awaited pool h ∨ GoRequestRoutine h ∈ effs.

(** The pool is running, or it has never been started and its table is
    empty. *)
Definition started_or_empty (pool : BlockPool.t) : Prop :=
  BlockPool.running pool = 1 ∨
  BlockPool.running pool = 0 ∧ BlockPool.numTotal pool = 0.

(** [Stop] is not called in [trace]. *)
Definition stop_free (trace : list action) : bool :=
  forallb (λ a, negb (is_stop a)) trace.

(** Height 0 is admitted; the pool is stopped, the goroutine of height 0
    notices and returns; the pool is started again. *)
Definition restart_after_admission : list action :=
  [CallStart] ++ admit_once ++ [CallStop; StepRoutine 0 []; CallStart].

(** A pool created at the largest height admits that height and height 0,
    the next one in [uint] arithmetic; the goroutine of height 0 sends its
    first request and compares its height with the base height. *)
Definition admission_across_wrap : list action :=
  [CallStart; CallSetPeerHeight "A" 10] ++ admit_once ++ admit_once ++
  assign_to_A 1 ++ [StepRoutine 1 []; StepRoutine 1 []; StepRoutine 1 []].

(** The blocks that the calls of [PopRequest] in the run [trace] from [w]
    take out of the table, in the order of the calls. *)
Fixpoint popped (trace : list action) (w : World) : list Block.t :=
  match trace with
  | [] => []
  | a :: trace' =>
      match step a w with
      | Some w' =>
          (if is_pop a
           then option_list (block_at (pool w) (BlockPool.height (pool w)))
           else []) ++ popped trace' w'
      | None => []
      end
  end.

(** [Start] is called three times, with a step of the admission loop in
    between. *)
Definition started_three_times : list action :=
  [CallStart; CallStart; StepRun 0; CallStart].

(** ** The RPC service: the genesis document in chunks

    [vm.genChunks] and [vm.genesis] are fields of the [VM] struct, declared
    in a file of the package that is not at hand; the chunks are taken as
    strings, as [ctypes.ResultGenesisChunk.Data] is, with [None] for the nil
    slice.  The genesis document is not read by the code below beyond being
    handed on, so it is left out.  Errors built with [fmt.Errorf] are kept
    as data instead of formatted text. *)
Module Service.

Inductive error :=
| ErrGenesisTooLarge       (* genesis response is large, please use ... *)
| ErrChunksNotInitialized  (* ... genesis chunks are not initialized *)
| ErrNoChunks              (* ... there are no chunks *)
| ErrInvalidChunk (last id : Z). (* there are %d chunks, %d is invalid *)

Inductive result (A : Type) :=
| Return (a : A)
| Error (e : error)
| IndexOutOfRange.            (* the runtime panic of a slice index *)
Arguments Return {A} a.
Arguments Error {A} e.
Arguments IndexOutOfRange {A}.

Record ResultGenesisChunk := mkResultGenesisChunk {
  ChunkNumber : Z;
  TotalChunks : Z;
  Data : string
}.

(** The conversion [int(x)] of a [uint], both 64 bits wide. *)
Definition int_of_uint (z : Z) : Z :=
  if decide (z < 2 ^ 63) then z else z - 2 ^ 64.

(** [len(s)] *)
Definition len {A} (s : list A) : Z := Z.of_nat (length s).

(** [s[i]] *)
Definition index {A} (s : list A) (i : Z) : result A :=
  if decide (0 <= i) then
    match s !! Z.to_nat i with
    | Some x => Return x
    | None => IndexOutOfRange
    end
  else IndexOutOfRange.

Definition GenesisChunked (genChunks : option (list string)) (Chunk : Z)
    : result ResultGenesisChunk :=
  match genChunks with
  | None => Error ErrChunksNotInitialized
  | Some chunks =>
      if decide (len chunks = 0) then Error ErrNoChunks
      else
        let id := int_of_uint Chunk in
        if decide (id > len chunks - 1)
        then Error (ErrInvalidChunk (len chunks - 1) id)
        else
          match index chunks id with
          | Return data =>
              Return {| TotalChunks := len chunks;
                        ChunkNumber := id;
                        Data := data |}
          | Error e => Error e
          | IndexOutOfRange => IndexOutOfRange
          end
  end.

(** [Genesis]; [genesis] is handed to the reply as it is. *)
Definition Genesis {G : Type} (genChunks : option (list string))
    (genesis : G) : result G :=
  if decide (len (default [] genChunks) > 1)
  then Error ErrGenesisTooLarge
  else Return genesis.

End Service.

(** * Properties *)

Ltac unfold_M :=
  unfold mbind, M_bind, bind, mret, M_ret, ret, get, modify, panic, emit in *.

Lemma after_reachable trace start P :
  after trace start P → ∃ w, exec trace (NewWorld start) = Some w ∧ P w.
Proof. unfold after. destruct (exec trace (NewWorld start)); [eauto|done]. Qed.

(** ** The methods on a sample pool *)

Example AddBlock_from_assigned_peer :
  AddBlock (Block.mk 7 "b7") "A" sample_pool =
    Ok tt
      (BlockPool.set_numPending 0
         (BlockPool.set_requests
            {[ 7 := bpRequest.mk 7 "A" (Some (Block.mk 7 "b7"));
               8 := bpRequest.mk 8 "B" (Some (Block.mk 8 "b8")) ]}
            sample_pool)) [].
Proof. vm_compute. reflexivity. Qed.

Example AddBlock_from_other_peer :
  AddBlock (Block.mk 7 "b7") "B" sample_pool = Ok tt sample_pool [].
Proof. vm_compute. reflexivity. Qed.

Example AddBlock_second_delivery :
  AddBlock (Block.mk 8 "other") "B" sample_pool = Ok tt sample_pool [].
Proof. vm_compute. reflexivity. Qed.

Example AddBlock_outside_window :
  AddBlock (Block.mk 9 "b9") "A" sample_pool = Ok tt sample_pool [].
Proof. vm_compute. reflexivity. Qed.

Example PopRequest_unfilled_base :
  PopRequest sample_pool =
    Panic "PopRequest() requires a valid block" sample_pool [].
Proof. vm_compute. reflexivity. Qed.

Example RedoRequest_filled_height :
  RedoRequest 8 sample_pool =
    Ok tt
      {| BlockPool.requests :=
           {[ 7 := bpRequest.mk 7 "A" None; 8 := bpRequest.mk 8 "" None ]};
         BlockPool.height := 7;
         BlockPool.numPending := 2;
         BlockPool.numTotal := 2;
         BlockPool.peers := {[ "A" := bpPeer.mk "A" 10 1 ]};
         BlockPool.running := 1 |}
      [GoRequestRoutine 8].
Proof. vm_compute. reflexivity. Qed.

Example RedoRequest_unfilled_height :
  RedoRequest 7 sample_pool =
    Panic "Expected block to be non-nil" sample_pool [].
Proof. vm_compute. reflexivity. Qed.

Example RedoRequest_absent_height :
  RedoRequest 9 sample_pool = Panic nil_dereference sample_pool [].
Proof. vm_compute. reflexivity. Qed.

Example PeekTwoBlocks_sample :
  PeekTwoBlocks sample_pool =
    Ok (None, Some (Block.mk 8 "b8")) sample_pool [].
Proof. vm_compute. reflexivity. Qed.

Example pickIncrAvailablePeer_sample :
  pickIncrAvailablePeer ["A"; "B"] 11 sample_pool =
    Ok (Some (bpPeer.mk "B" 12 1))
       (BlockPool.set_peers
          {[ "A" := bpPeer.mk "A" 10 1; "B" := bpPeer.mk "B" 12 1 ]}
          sample_pool) [].
Proof. vm_compute. reflexivity. Qed.

(** ** Machine arithmetic *)

Lemma wrap_uint_id z : is_uint z → wrap_uint z = z.
Proof. unfold is_uint, wrap_uint. intros H. by apply Z.mod_small. Qed.

Lemma wrap_int32_id z : is_int32 z → wrap_int32 z = z.
Proof.
  unfold is_int32, wrap_int32, int32_min, int32_max. intros H.
  rewrite Z.mod_small; lia.
Qed.

Lemma wrap_uint_is_uint z : is_uint (wrap_uint z).
Proof. unfold is_uint, wrap_uint, uint_modulus. apply Z.mod_pos_bound. lia. Qed.

Lemma wrap_int32_is_int32 z : is_int32 (wrap_int32 z).
Proof.
  unfold is_int32, wrap_int32, int32_min, int32_max.
  pose proof (Z.mod_pos_bound (z + 2 ^ 31) (2 ^ 32)). lia.
Qed.

(** ** AddBlock *)

Lemma accepts_dec_cases pool block peerId :
  accepts pool block peerId ∨ ¬ accepts pool block peerId.
Proof.
  unfold accepts.
  destruct (BlockPool.requests pool !! Block.Height block) as [r|] eqn:Hr.
  - destruct (decide (bpRequest.peerId r = peerId)) as [Hp|Hp].
    + destruct (bpRequest.block r) eqn:Hb.
      * right. intros (r' & Hr' & _ & Hb'). congruence.
      * left. eauto.
    + right. intros (r' & Hr' & Hp' & _). congruence.
  - right. intros (r' & Hr' & _). congruence.
Qed.

Lemma AddBlock_accepted pool block peerId request :
  BlockPool.requests pool !! Block.Height block = Some request →
  bpRequest.peerId request = peerId →
  bpRequest.block request = None →
  AddBlock block peerId pool =
    Ok tt
      (BlockPool.set_numPending (wrap_int32 (BlockPool.numPending pool - 1))
         (BlockPool.set_requests
            (<[Block.Height block := bpRequest.set_block (Some block) request]>
               (BlockPool.requests pool)) pool)) [].
Proof.
  intros Hr Hp Hb. unfold AddBlock. unfold_M. rewrite Hr.
  destruct (decide (bpRequest.peerId request ≠ peerId)); [done|].
  by rewrite Hb.
Qed.

Lemma AddBlock_discarded pool block peerId :
  ¬ accepts pool block peerId → AddBlock block peerId pool = Ok tt pool [].
Proof.
  intros Hn. unfold AddBlock. unfold_M.
  destruct (BlockPool.requests pool !! Block.Height block) as [r|] eqn:Hr;
    [|done].
  destruct (decide (bpRequest.peerId r ≠ peerId)) as [|Hp]; [done|].
  destruct (bpRequest.block r) eqn:Hb; [done|].
  exfalso. apply Hn. exists r. split_and!; [done| |done].
  by destruct (decide (bpRequest.peerId r = peerId)).
Qed.

(** C1. [AddBlock] never panics and has no outside effect.  The block is
    kept exactly when a request at its height exists, is assigned to the
    delivering peer and holds no block yet: then the request receives the
    block, [numPending] goes down by one (in [int32] arithmetic, which is
    the integer predecessor unless the counter sits at the least [int32])
    and nothing else moves.  In every other case the pool is left as it was.
    A further [AddBlock] for the same height and peer, whatever the block,
    changes nothing. *)
Theorem AddBlock_fills_once (pool : BlockPool.t) (block : Block.t)
    (peerId : string) :
  ∃ pool',
    AddBlock block peerId pool = Ok tt pool' [] ∧
    (accepts pool block peerId →
       (∃ request,
          BlockPool.requests pool !! Block.Height block = Some request ∧
          BlockPool.requests pool' =
            <[Block.Height block := bpRequest.set_block (Some block) request]>
              (BlockPool.requests pool)) ∧
       block_at pool' (Block.Height block) = Some block ∧
       BlockPool.numPending pool' =
         wrap_int32 (BlockPool.numPending pool - 1) ∧
       (int32_min < BlockPool.numPending pool <= int32_max →
        BlockPool.numPending pool' = BlockPool.numPending pool - 1) ∧
       BlockPool.height pool' = BlockPool.height pool ∧
       BlockPool.numTotal pool' = BlockPool.numTotal pool ∧
       BlockPool.peers pool' = BlockPool.peers pool ∧
       BlockPool.running pool' = BlockPool.running pool) ∧
    (¬ accepts pool block peerId → pool' = pool) ∧
    (pool' ≠ pool → accepts pool block peerId) ∧
    (∀ block', Block.Height block' = Block.Height block →
       AddBlock block' peerId pool' = Ok tt pool' []).
Proof.
  destruct (accepts_dec_cases pool block peerId) as [Ha|Hn].
  - destruct Ha as (request & Hr & Hp & Hb).
    eexists. split; [by apply AddBlock_accepted|].
    split_and!.
    + intros _. split_and!; try done.
      * by exists request.
      * unfold block_at. cbn. by rewrite lookup_insert_eq.
      * intros Hrange. cbn. apply wrap_int32_id.
        unfold is_int32, int32_min, int32_max in *. lia.
    + intros Hn. exfalso. apply Hn. by exists request.
    + intros _. by exists request.
    + intros block' Hh. apply AddBlock_discarded.
      intros (r' & Hr' & _ & Hb'). cbn in Hr'.
      rewrite Hh, lookup_insert_eq in Hr'. by simplify_eq.
  - exists pool. split; [by apply AddBlock_discarded|].
    split_and!; try done.
    intros block' Hh. apply AddBlock_discarded.
    intros (r' & Hr' & Hp' & Hb'). apply Hn. exists r'.
    by rewrite <- Hh.
Qed.

(** ** RedoRequest *)

Lemma RedoRequest_filled pool h request b :
  BlockPool.requests pool !! h = Some request →
  bpRequest.block request = Some b →
  RedoRequest h pool =
    Ok tt
      {| BlockPool.requests :=
           <[h := bpRequest.mk (bpRequest.height request) "" None]>
             (BlockPool.requests pool);
         BlockPool.height := BlockPool.height pool;
         BlockPool.numPending := wrap_int32 (BlockPool.numPending pool + 1);
         BlockPool.numTotal := BlockPool.numTotal pool;
         BlockPool.peers :=
           delete (bpRequest.peerId request) (BlockPool.peers pool);
         BlockPool.running := BlockPool.running pool |}
      [GoRequestRoutine h].
Proof.
  intros Hr Hb. unfold RedoRequest, RemovePeer. unfold_M.
  rewrite Hr, Hb. reflexivity.
Qed.

Lemma RedoRequest_unfilled pool h :
  ¬ filled pool h → ∃ msg, RedoRequest h pool = Panic msg pool [].
Proof.
  intros Hn. unfold RedoRequest. unfold_M.
  destruct (BlockPool.requests pool !! h) as [r|] eqn:Hr; [|by eexists].
  destruct (bpRequest.block r) eqn:Hb; [|by eexists].
  exfalso. apply Hn. by exists r, t.
Qed.


(** ** makeRequest *)

Lemma makeRequest_total pool h :
  makeRequest h pool =
    Ok tt
      (let pool1 :=
         BlockPool.set_requests
           (<[h := bpRequest.mk h "" None]> (BlockPool.requests pool)) pool in
       if decide (wrap_uint (BlockPool.height pool
                             + uint_of_int32 (BlockPool.numTotal pool)) = h)
       then BlockPool.set_numPending
              (wrap_int32 (BlockPool.numPending pool + 1))
              (BlockPool.set_numTotal
                 (wrap_int32 (BlockPool.numTotal pool + 1)) pool1)
       else pool1)
      [GoRequestRoutine h].
Proof.
  unfold makeRequest. unfold_M. cbn.
  by destruct (decide (wrap_uint (BlockPool.height pool
                        + uint_of_int32 (BlockPool.numTotal pool)) = h)).
Qed.

(** C3, as amended.  [makeRequest h] never panics.  It always stores an
    empty, unassigned request at [h] (replacing whatever request was there)
    and starts a [requestRoutine] for [h].  When [h] is the next height,
    [height + numTotal], it also adds one to [numTotal] and to
    [numPending]; for any other [h] both counters keep their values. *)
Theorem makeRequest_spec (pool : BlockPool.t) (h : Z) :
  ∃ pool',
    makeRequest h pool = Ok tt pool' [GoRequestRoutine h] ∧
    BlockPool.requests pool' =
      <[h := bpRequest.mk h "" None]> (BlockPool.requests pool) ∧
    BlockPool.height pool' = BlockPool.height pool ∧
    BlockPool.peers pool' = BlockPool.peers pool ∧
    BlockPool.running pool' = BlockPool.running pool ∧
    (h = wrap_uint (BlockPool.height pool
                    + uint_of_int32 (BlockPool.numTotal pool)) →
       BlockPool.numTotal pool' = wrap_int32 (BlockPool.numTotal pool + 1) ∧
       BlockPool.numPending pool' =
         wrap_int32 (BlockPool.numPending pool + 1) ∧
       (int32_min <= BlockPool.numTotal pool < int32_max →
        BlockPool.numTotal pool' = BlockPool.numTotal pool + 1) ∧
       (int32_min <= BlockPool.numPending pool < int32_max →
        BlockPool.numPending pool' = BlockPool.numPending pool + 1)) ∧
    (h ≠ wrap_uint (BlockPool.height pool
                    + uint_of_int32 (BlockPool.numTotal pool)) →
       BlockPool.numTotal pool' = BlockPool.numTotal pool ∧
       BlockPool.numPending pool' = BlockPool.numPending pool).
Proof.
  eexists. split; [apply makeRequest_total|]. cbn.
  destruct (decide (wrap_uint (BlockPool.height pool
                      + uint_of_int32 (BlockPool.numTotal pool)) = h))
    as [Heq|Hne]; cbn; split_and!; try done.
  intros _. split_and!; try done;
    intros Hrange; apply wrap_int32_id;
    unfold is_int32, int32_min, int32_max in *; lia.
Qed.

(** C3, the claim as written fails: on a fresh pool based at 0 the next
    height is 0, yet [makeRequest 5] returns normally, having stored a
    request at 5 and left both counters at 0. *)
Lemma makeRequest_non_contiguous_returns :
  5 ≠ wrap_uint (BlockPool.height (NewBlockPool 0)
                 + uint_of_int32 (BlockPool.numTotal (NewBlockPool 0))) ∧
  makeRequest 5 (NewBlockPool 0) =
    Ok tt
      {| BlockPool.requests := {[ 5 := bpRequest.mk 5 "" None ]};
         BlockPool.height := 0;
         BlockPool.numPending := 0;
         BlockPool.numTotal := 0;
         BlockPool.peers := ∅;
         BlockPool.running := 0 |}
      [GoRequestRoutine 5] ∧
  ¬ ∃ msg pool' effs, makeRequest 5 (NewBlockPool 0) = Panic msg pool' effs.
Proof.
  split_and!.
  - vm_compute. discriminate.
  - rewrite makeRequest_total. reflexivity.
  - intros (msg & pool' & effs & H). rewrite makeRequest_total in H.
    discriminate.
Qed.

(** ** PopRequest *)

(** C5. When the request at [height] exists and holds a block,
    [PopRequest] returns normally: exactly that request is deleted,
    [height] moves up by one and [numTotal] down by one (in machine
    arithmetic, which is the integer successor and predecessor away from the
    ends of the types), while [numPending], the registry and the running
    flag keep their values and nothing leaves the pool.  When that request
    is absent or holds no block the call panics and the pool is as it
    was. *)
Theorem PopRequest_spec (pool : BlockPool.t) :
  (filled pool (BlockPool.height pool) →
   ∃ pool',
     PopRequest pool = Ok tt pool' [] ∧
     BlockPool.requests pool' =
       delete (BlockPool.height pool) (BlockPool.requests pool) ∧
     BlockPool.height pool' = wrap_uint (BlockPool.height pool + 1) ∧
     (0 <= BlockPool.height pool < uint_modulus - 1 →
      BlockPool.height pool' = BlockPool.height pool + 1) ∧
     BlockPool.numTotal pool' = wrap_int32 (BlockPool.numTotal pool - 1) ∧
     (int32_min < BlockPool.numTotal pool <= int32_max →
      BlockPool.numTotal pool' = BlockPool.numTotal pool - 1) ∧
     BlockPool.numPending pool' = BlockPool.numPending pool ∧
     BlockPool.peers pool' = BlockPool.peers pool ∧
     BlockPool.running pool' = BlockPool.running pool) ∧
  (¬ filled pool (BlockPool.height pool) →
   PopRequest pool = Panic "PopRequest() requires a valid block" pool []).
Proof.
  unfold filled, PopRequest. unfold_M. split.
  - intros (request & b & Hr & Hb). rewrite Hr.
    destruct request as [rh rp rb]. cbn in Hb. subst rb.
    eexists. split; [reflexivity|]. cbn. split_and!; try done.
    + intros Hrange. apply wrap_uint_id. unfold is_uint. lia.
    + intros Hrange. apply wrap_int32_id.
      unfold is_int32, int32_min, int32_max in *. lia.
  - intros Hn.
    destruct (BlockPool.requests pool !! BlockPool.height pool)
      as [[rh rp [b|]]|] eqn:Hr; try done.
    exfalso. apply Hn. by eexists _, b.
Qed.

(** ** pickIncrAvailablePeer *)

Lemma bind_get {A} (k : BlockPool.t → M A) pool :
  (pool' ← get; k pool') pool = k pool pool.
Proof. unfold_M. by destruct (k pool pool). Qed.

Lemma pickIncrAvailablePeer_scan order minHeight pool :
  (∃ key peer,
     key ∈ order ∧
     BlockPool.peers pool !! key = Some peer ∧
     available minHeight peer ∧
     pickIncrAvailablePeer order minHeight pool =
       Ok (Some (picked peer))
          (BlockPool.set_peers
             (<[key := picked peer]> (BlockPool.peers pool)) pool) []) ∨
  ((∀ key peer,
      key ∈ order → BlockPool.peers pool !! key = Some peer →
      ¬ available minHeight peer) ∧
   pickIncrAvailablePeer order minHeight pool = Ok None pool []).
Proof.
  induction order as [|key order IH].
  - right. split; [|done]. intros key peer Hin. by apply elem_of_nil in Hin.
  - cbn [pickIncrAvailablePeer]. rewrite bind_get.
    assert (Hskip :
      (∀ peer, BlockPool.peers pool !! key = Some peer →
               ¬ available minHeight peer) →
      (∃ key0 peer,
         key0 ∈ key :: order ∧
         BlockPool.peers pool !! key0 = Some peer ∧
         available minHeight peer ∧
         pickIncrAvailablePeer order minHeight pool =
           Ok (Some (picked peer))
              (BlockPool.set_peers
                 (<[key0 := picked peer]> (BlockPool.peers pool)) pool) []) ∨
      ((∀ key0 peer,
          key0 ∈ key :: order → BlockPool.peers pool !! key0 = Some peer →
          ¬ available minHeight peer) ∧
       pickIncrAvailablePeer order minHeight pool = Ok None pool [])).
    { intros Hkey. destruct IH as [(k & p & Hin & Hk & Hav & Hpick)|[Hall Hpick]].
      - left. exists k, p. split_and!; try done. by apply list_elem_of_further.
      - right. split; [|done]. intros k p Hin Hk.
        apply elem_of_cons in Hin as [->|Hin]; eauto. }
    destruct (BlockPool.peers pool !! key) as [peer|] eqn:Hpeer.
    + destruct (decide (bpPeer.numRequests peer >= maxRequestsPerPeer))
        as [Hcap|Hcap].
      { apply Hskip. intros p [= <-] [Hn _]. by apply Hn. }
      destruct (decide (bpPeer.height peer < minHeight)) as [Hlow|Hlow].
      { apply Hskip. intros p [= <-] [_ Hn]. by apply Hn. }
      left. exists key, peer. split_and!; try done.
      apply list_elem_of_here.
    + apply Hskip. intros p [=].
Qed.

Lemma iteration_order_elem_of peers order key :
  iteration_order peers order → key ∈ order ↔ is_Some (peers !! key).
Proof.
  unfold iteration_order. intros ->.
  rewrite list_elem_of_fmap. split.
  - intros ([k p] & -> & Hin). apply elem_of_map_to_list in Hin. by eexists.
  - intros [p Hp]. exists (key, p). split; [done|].
    by apply elem_of_map_to_list.
Qed.

(** C6. Whatever order the map is visited in, [pickIncrAvailablePeer
    minHeight] never panics and sends nothing, and it ends in one of two
    ways.  Either it returns a peer of the registry whose height was at
    least [minHeight] and whose counter was strictly below
    [maxRequestsPerPeer] = 20; that peer's counter, and nothing else, has
    been raised by one in the registry, the returned record shows the raised
    counter, and the raised counter is at most 20.  Or it returns nil, the
    pool is as it was, and no peer of the registry had both properties.  So
    a peer at the cap is never returned, and nil is returned exactly when no
    peer qualifies. *)
Theorem pickIncrAvailablePeer_spec (pool : BlockPool.t)
    (order : list string) (minHeight : Z) :
  iteration_order (BlockPool.peers pool) order →
  (∃ key peer,
     BlockPool.peers pool !! key = Some peer ∧
     bpPeer.height peer >= minHeight ∧
     bpPeer.numRequests peer < maxRequestsPerPeer ∧
     pickIncrAvailablePeer order minHeight pool =
       Ok (Some (picked peer))
          (BlockPool.set_peers
             (<[key := picked peer]> (BlockPool.peers pool)) pool) [] ∧
     bpPeer.id (picked peer) = bpPeer.id peer ∧
     bpPeer.height (picked peer) = bpPeer.height peer ∧
     (is_int32 (bpPeer.numRequests peer) →
      bpPeer.numRequests (picked peer) = bpPeer.numRequests peer + 1 ∧
      bpPeer.numRequests (picked peer) <= maxRequestsPerPeer)) ∨
  ((∀ key peer,
      BlockPool.peers pool !! key = Some peer →
      ¬ (bpPeer.height peer >= minHeight ∧
         bpPeer.numRequests peer < maxRequestsPerPeer)) ∧
   pickIncrAvailablePeer order minHeight pool = Ok None pool []).
Proof.
  intros Horder.
  destruct (pickIncrAvailablePeer_scan order minHeight pool)
    as [(key & peer & Hin & Hk & [Hcap Hlow] & Hpick)|[Hall Hpick]].
  - left. exists key, peer. split_and!; try done; try lia.
    intros Hrange. cbn.
    assert (is_int32 (bpPeer.numRequests peer + 1)) as Hr.
    { unfold is_int32, int32_min, int32_max, maxRequestsPerPeer in *. lia. }
    rewrite (wrap_int32_id _ Hr). lia.
  - right. split; [|done]. intros key peer Hk [Hh Hn].
    apply (Hall key peer); [|done|].
    + apply (iteration_order_elem_of _ _ _ Horder). by eexists.
    + unfold available. lia.
Qed.

Lemma pickIncrAvailablePeer_spec_witness :
  let pool :=
    BlockPool.set_peers
      {[ "A" := bpPeer.mk "A" 10 20; "B" := bpPeer.mk "B" 10 19 ]}
      (NewBlockPool 0) in
  iteration_order (BlockPool.peers pool) ["A"; "B"] ∧
  pickIncrAvailablePeer ["A"; "B"] 7 pool =
    Ok (Some (bpPeer.mk "B" 10 20))
       (BlockPool.set_peers
          {[ "A" := bpPeer.mk "A" 10 20; "B" := bpPeer.mk "B" 10 20 ]}
          (NewBlockPool 0)) [].
Proof.
  cbn zeta.
  assert (Horder : iteration_order
            (BlockPool.peers
               (BlockPool.set_peers
                  {[ "A" := bpPeer.mk "A" 10 20; "B" := bpPeer.mk "B" 10 19 ]}
                  (NewBlockPool 0))) ["A"; "B"]).
  { apply (bool_decide_unpack _). vm_compute. exact I. }
  split; [exact Horder|].
  destruct (pickIncrAvailablePeer_spec _ _ 7 Horder)
    as [(key & peer & _ & _ & _ & Hpick & _)|[_ Hpick]].
  - reflexivity.
  - reflexivity.
Defined.

(** ** PeekTwoBlocks *)

(** C7, as amended.  [PeekTwoBlocks] always returns at once, changes nothing
    and sends nothing.  Its two results are read independently of each
    other: the first is the block of the request at [height], present
    exactly when that request exists and is filled, and the second is the
    block of the request at [height + 1], present exactly when that request
    exists and is filled. *)
Theorem PeekTwoBlocks_spec (pool : BlockPool.t) :
  ∃ first second,
    PeekTwoBlocks pool = Ok (first, second) pool [] ∧
    (∀ b, first = Some b ↔
          ∃ request,
            BlockPool.requests pool !! BlockPool.height pool = Some request ∧
            bpRequest.block request = Some b) ∧
    (∀ b, second = Some b ↔
          ∃ request,
            BlockPool.requests pool !! wrap_uint (BlockPool.height pool + 1)
              = Some request ∧
            bpRequest.block request = Some b) ∧
    (is_Some first ↔ filled pool (BlockPool.height pool)) ∧
    (is_Some second ↔ filled pool (wrap_uint (BlockPool.height pool + 1))).
Proof.
  eexists _, _. split; [reflexivity|].
  assert (Hat : ∀ h b,
    match BlockPool.requests pool !! h with
    | Some r => bpRequest.block r
    | None => None
    end = Some b ↔
    ∃ request, BlockPool.requests pool !! h = Some request ∧
               bpRequest.block request = Some b).
  { intros h b. destruct (BlockPool.requests pool !! h) as [r|]; split.
    - intros Hb. by exists r.
    - by intros (r' & [= <-] & Hb).
    - done.
    - by intros (r' & [=] & _). }
  split_and!; try apply Hat.
  - unfold filled, is_Some. split.
    + intros [b Hb]. apply Hat in Hb as (r & Hr & Hb). by exists r, b.
    + intros (r & b & Hr & Hb). exists b. apply Hat. by exists r.
  - unfold filled, is_Some. split.
    + intros [b Hb]. apply Hat in Hb as (r & Hr & Hb). by exists r, b.
    + intros (r & b & Hr & Hb). exists b. apply Hat. by exists r.
Qed.

(** C7, the claim as written fails.  The pool is started at 0 with the peer
    A; heights 0 and 1 are admitted; the goroutine of height 1 picks A and
    A delivers block 1, while height 0 is still unassigned.  Then
    [PeekTwoBlocks] returns no first block and block 1 as second block. *)
Lemma PeekTwoBlocks_absent_present :
  ∃ w,
    exec second_block_first (NewWorld 0) = Some w ∧
    BlockPool.height (pool w) = 0 ∧
    PeekTwoBlocks (pool w) = Ok (None, Some (Block.mk 1 "b1")) (pool w) [].
Proof.
  apply after_reachable. vm_compute. split; reflexivity.
Qed.

(** ** The read operations *)

(** C10. [GetStatus], [PeekTwoBlocks] and [hasBlock] return normally from
    every pool and for every argument, and the pool they leave is the pool
    they found: the request table, [height], [numPending], [numTotal], the
    registry and the running flag are the same, and nothing is sent or
    started. *)
Theorem reads_leave_pool_unchanged (pool : BlockPool.t) (h : Z) :
  GetStatus pool =
    Ok (BlockPool.height pool, BlockPool.numPending pool,
        BlockPool.numTotal pool) pool [] ∧
  PeekTwoBlocks pool =
    Ok (block_at pool (BlockPool.height pool),
        block_at pool (wrap_uint (BlockPool.height pool + 1))) pool [] ∧
  hasBlock h pool = Ok (bool_decide (is_Some (block_at pool h))) pool [].
Proof.
  split_and!; try reflexivity.
  unfold hasBlock, block_at. unfold_M. unfold option_bind.
  destruct (BlockPool.requests pool !! h) as [[rh rp [b|]]|]; cbn;
    f_equal.
Qed.

(** ** requestRoutine *)





(** What one step of the goroutine can do while it holds [p]. *)
Lemma requestRoutine_step_inv order h pc pool pc' pool' effs :
  requestRoutine_step order h pc pool = Ok pc' pool' effs →
  match pc with
  | SetPeer p => pc' = TryLoop p 0 ∧ effs = []
  | TryLoop p try =>
      (try < maxTries ∧ pc' = CheckBlock p try ∧ pool' = pool ∧
       effs = if decide (BlockPool.running pool = 0) then []
              else [SendRequest (BlockRequest.mk h p)]) ∨
      (¬ try < maxTries ∧ pc' = Timeout p ∧ effs = [] ∧
       pool' = BlockPool.set_peers (delete p (BlockPool.peers pool)) pool)
  | CheckBlock p try =>
      pool' = pool ∧ effs = [] ∧
      (pc' = DecrPeer p ∧ filled pool h ∨
       pc' = CheckHeight p try ∧ ¬ filled pool h)
  | CheckHeight p try =>
      pool' = pool ∧ effs = [] ∧
      (pc' = DecrPeer p ∧ h < BlockPool.height pool ∨
       pc' = TryLoop p (try + 1) ∧ ¬ h < BlockPool.height pool)
  | DecrPeer p =>
      pc' = Returned ∧ effs = [] ∧ decrPeer p pool = Ok tt pool' []
  | Timeout p =>
      pc' = PickLoop ∧ pool' = pool ∧
      effs = if decide (BlockPool.running pool = 0) then []
             else [SendTimeout p]
  | PickLoop =>
      pool' = pool ∧ effs = [] ∧
      pc' = if decide (BlockPool.running pool = 1) then PickPeer else Returned
  | PickPeer =>
      pickIncrAvailablePeer order h pool = Ok None pool' [] ∧
        pc' = PickLoop ∧ effs = [] ∨
      ∃ peer, pickIncrAvailablePeer order h pool = Ok (Some peer) pool' [] ∧
              pc' = SetPeer (bpPeer.id peer) ∧ effs = []
  | Returned => pc' = Returned ∧ pool' = pool ∧ effs = []
  end.
Proof.
  destruct pc as [| |p|p try|p try|p try|p|p|]; cbn [requestRoutine_step].
  - unfold IsRunning, LoadRunning. unfold_M. cbn.
    unfold bool_decide.
    destruct (decide_rel _ (BlockPool.running pool) 1);
    destruct (decide (BlockPool.running pool = 1)); try done;
      intros [= <- <- <-]; done.
  - unfold_M.
    destruct (pickIncrAvailablePeer_scan order h pool)
      as [(key & peer & _ & _ & _ & ->)|[_ ->]]; cbn.
    + intros [= <- <- <-]. right. by eexists.
    + intros [= <- <- <-]. by left.
  - unfold setPeerForRequest. unfold_M. cbn.
    destruct (BlockPool.requests pool !! h); cbn; by intros [= <- <- <-].
  - destruct (decide (try < maxTries)) as [Hlt|Hge].
    + unfold sendRequest, LoadRunning. unfold_M. cbn.
      destruct (decide (BlockPool.running pool = 0)); cbn;
        intros [= <- <- <-]; left; done.
    + unfold RemovePeer. unfold_M. cbn. intros [= <- <- <-]. right. done.
  - unfold hasBlock. unfold_M. cbn. unfold filled.
    destruct (BlockPool.requests pool !! h) as [[rh rp [b|]]|] eqn:Hr; cbn;
      intros [= <- <- <-]; split_and!; try done.
    + left. split; [done|]. by eexists _, b.
    + right. split; [done|]. intros (r & b & [= <-] & Hb). done.
    + right. split; [done|]. intros (r & b & [=] & _).
  - unfold GetStatus. unfold_M. cbn.
    destruct (decide (h < BlockPool.height pool)); cbn;
      intros [= <- <- <-]; split_and!; try done; [by left|by right].
  - unfold decrPeer. unfold_M. cbn.
    destruct (BlockPool.peers pool !! p); cbn; intros [= <- <- <-]; done.
  - unfold sendTimeout, LoadRunning. unfold_M. cbn.
    destruct (decide (BlockPool.running pool = 0)); cbn;
      intros [= <- <- <-]; done.
  - unfold_M. by intros [= <- <- <-].
Qed.



(** On the sample pool, where the block of height 7 never arrives, the
    attempt with the peer A is the longest there is: three requests, then
    the timeout. *)
Example attempt_exhausts_tries :
  ∃ path effs,
    attempt 7 (SetPeer "A") path effs PickLoop ∧
    effs = [SendRequest (BlockRequest.mk 7 "A");
            SendRequest (BlockRequest.mk 7 "A");
            SendRequest (BlockRequest.mk 7 "A");
            SendTimeout "A"].
Proof.
  eexists _, _. split.
  - do 12 (eapply (attempt_step 7 _ [] sample_pool);
           [done|done|done|reflexivity|]).
    apply attempt_here.
  - reflexivity.
Qed.



(** ** The request table and its counters *)

Lemma size_delete_weight (m : gmap Z bpRequest.t) k :
  size m = (size (delete k m) + total_weight (m !! k))%nat.
Proof.
  rewrite map_size_delete. destruct (m !! k) eqn:Hk; cbn; [|lia].
  assert (size m ≠ 0%nat); [|lia].
  intros Hz. apply map_size_empty_inv in Hz. subst m.
  by rewrite lookup_empty in Hk.
Qed.

Lemma unfilled_delete m k : unfilled (delete k m) = delete k (unfilled m).
Proof. unfold unfilled. apply map_filter_delete. Qed.

Lemma unfilled_lookup m k :
  total_weight (unfilled m !! k) = pending_weight (m !! k).
Proof.
  unfold unfilled.
  destruct (filter _ m !! k) as [r|] eqn:Hf.
  - apply map_lookup_filter_Some in Hf as [Hr Hb]. rewrite Hr.
    destruct r as [rh rp rb]. cbn in Hb. by subst rb.
  - apply map_lookup_filter_None in Hf as [Hr|Hall].
    + by rewrite Hr.
    + destruct (m !! k) as [[rh rp [b|]]|] eqn:Hk; cbn; try done.
      by destruct (Hall _ eq_refl).
Qed.

Lemma size_unfilled_delete m k :
  size (unfilled m) =
    (size (unfilled (delete k m)) + pending_weight (m !! k))%nat.
Proof.
  rewrite unfilled_delete, <- unfilled_lookup. apply size_delete_weight.
Qed.

Lemma size_unfilled_insert m k r :
  size (unfilled (<[k := r]> m)) =
    (size (unfilled (delete k m)) + pending_weight (Some r))%nat.
Proof.
  rewrite (size_unfilled_delete (<[k := r]> m) k).
  by rewrite delete_insert_eq, lookup_insert_eq.
Qed.

Lemma size_insert_weight (m : gmap Z bpRequest.t) k r :
  size (<[k := r]> m) = S (size (delete k m)).
Proof.
  rewrite (size_delete_weight (<[k := r]> m) k).
  rewrite delete_insert_eq, lookup_insert_eq. cbn. lia.
Qed.

Lemma size_unfilled_le m : (size (unfilled m) <= size m)%nat.
Proof. apply map_subseteq_size, map_filter_subseteq. Qed.

Lemma wrap_uint_inj x y :
  wrap_uint x = wrap_uint y → - uint_modulus < x - y < uint_modulus → x = y.
Proof.
  unfold wrap_uint, uint_modulus. intros Heq Hr.
  Z.to_euclidean_division_equations. lia.
Qed.

Lemma wrap_uint_add_l x y : wrap_uint (wrap_uint x + y) = wrap_uint (x + y).
Proof. unfold wrap_uint. apply Zplus_mod_idemp_l. Qed.

Lemma wrap_uint_add_r x y : wrap_uint (x + wrap_uint y) = wrap_uint (x + y).
Proof. unfold wrap_uint. apply Zplus_mod_idemp_r. Qed.

Lemma next_not_in_window base total :
  total < uint_modulus → ¬ in_window base total (wrap_uint (base + total)).
Proof.
  intros Ht (i & Hi & Heq). apply wrap_uint_inj in Heq; lia.
Qed.

Lemma in_window_grow base total k :
  0 <= total →
  in_window base (total + 1) k ↔
  in_window base total k ∨ k = wrap_uint (base + total).
Proof.
  intros Ht. split.
  - intros (i & Hi & ->). destruct (decide (i = total)) as [->|].
    + by right.
    + left. exists i. split; [lia|done].
  - intros [(i & Hi & ->)| ->].
    + exists i. split; [lia|done].
    + exists total. split; [lia|done].
Qed.

Lemma in_window_shift base total k :
  is_uint base → total <= uint_modulus →
  in_window (wrap_uint (base + 1)) (total - 1) k ↔
  in_window base total k ∧ k ≠ base.
Proof.
  intros Hb Ht. split.
  - intros (i & Hi & ->). rewrite wrap_uint_add_l. split.
    + exists (i + 1). split; [lia|]. f_equal. lia.
    + intros Heq. rewrite <- (wrap_uint_id base) in Heq at 2 by done.
      apply wrap_uint_inj in Heq; unfold is_uint in *; lia.
  - intros [(i & Hi & ->) Hne]. exists (i - 1). split.
    + assert (i ≠ 0); [|lia]. intros ->. apply Hne.
      rewrite Z.add_0_r. by apply wrap_uint_id.
    + rewrite wrap_uint_add_l. f_equal. lia.
Qed.

Lemma pool_inv_bounds pool :
  pool_inv pool →
  0 <= BlockPool.numPending pool <= BlockPool.numTotal pool ∧
  BlockPool.numTotal pool <= maxTotalRequests.
Proof.
  intros [Hh Ht Hp Hc Hw]. rewrite Hp, Ht in *.
  pose proof (size_unfilled_le (BlockPool.requests pool)). lia.
Qed.

Lemma uint_of_int32_id z : 0 <= z < uint_modulus → uint_of_int32 z = z.
Proof. intros H. unfold uint_of_int32. by apply Z.mod_small. Qed.

Lemma next_height_eq pool :
  pool_inv pool →
  next_height pool =
    wrap_uint (BlockPool.height pool + BlockPool.numTotal pool).
Proof.
  intros Hinv. destruct (pool_inv_bounds _ Hinv) as [? ?].
  unfold next_height.
  rewrite (uint_of_int32_id (BlockPool.numTotal pool)); [done|].
  unfold maxTotalRequests, uint_modulus in *. lia.
Qed.

Lemma settled_refl pool pool' :
  BlockPool.height pool' = BlockPool.height pool →
  BlockPool.numTotal pool' = BlockPool.numTotal pool →
  settled pool pool'.
Proof. unfold settled, next_height. intros -> ->. split; [lia|done]. Qed.

Lemma pool_inv_same_table pool pool' :
  BlockPool.requests pool' = BlockPool.requests pool →
  BlockPool.height pool' = BlockPool.height pool →
  BlockPool.numPending pool' = BlockPool.numPending pool →
  BlockPool.numTotal pool' = BlockPool.numTotal pool →
  pool_inv pool → pool_inv pool'.
Proof.
  intros Hr Hh Hp Ht [? ? ? ? ?]. split; rewrite ?Hr, ?Hh, ?Hp, ?Ht; done.
Qed.

(** Replacing a request of the table by an other request. *)
Lemma pool_inv_replace pool k r r' pool' :
  pool_inv pool →
  BlockPool.requests pool !! k = Some r →
  BlockPool.requests pool' = <[k := r']> (BlockPool.requests pool) →
  BlockPool.height pool' = BlockPool.height pool →
  BlockPool.numTotal pool' = BlockPool.numTotal pool →
  BlockPool.numPending pool' =
    BlockPool.numPending pool - Z.of_nat (pending_weight (Some r))
    + Z.of_nat (pending_weight (Some r')) →
  pool_inv pool'.
Proof.
  intros [Hh Ht Hp Hc Hw] Hk Hr' Hh' Ht' Hp'.
  split; rewrite ?Hr', ?Hh', ?Ht'; try done.
  - rewrite Ht. f_equal. symmetry. apply map_size_insert_Some. by eexists.
  - rewrite Hp', Hp, size_unfilled_insert.
    rewrite (size_unfilled_delete (BlockPool.requests pool) k), Hk. lia.
  - intros k'. rewrite lookup_insert_is_Some', <- Hw.
    split; [|by right]. intros [<-|Hs]; [by eexists|done].
Qed.

Lemma setPeerForRequest_inv h p pool a pool' effs :
  setPeerForRequest h p pool = Ok a pool' effs →
  pool_inv pool →
  pool_inv pool' ∧
  BlockPool.height pool' = BlockPool.height pool ∧
  BlockPool.numTotal pool' = BlockPool.numTotal pool ∧
  BlockPool.numPending pool' = BlockPool.numPending pool ∧
  BlockPool.running pool' = BlockPool.running pool ∧
  BlockPool.peers pool' = BlockPool.peers pool ∧
  effs = [].
Proof.
  unfold setPeerForRequest. unfold_M. cbn.
  destruct (BlockPool.requests pool !! h) as [r|] eqn:Hr; cbn;
    intros [= <- <- <-] Hinv; [|done].
  split_and!; try done.
  eapply (pool_inv_replace pool h r); eauto.
  cbn. destruct r as [rh rp [b|]]; cbn; lia.
Qed.

Lemma AddBlock_inv block p pool a pool' effs :
  AddBlock block p pool = Ok a pool' effs →
  pool_inv pool →
  pool_inv pool' ∧
  BlockPool.height pool' = BlockPool.height pool ∧
  BlockPool.numTotal pool' = BlockPool.numTotal pool ∧
  BlockPool.numPending pool' <= BlockPool.numPending pool ∧
  BlockPool.running pool' = BlockPool.running pool ∧
  BlockPool.peers pool' = BlockPool.peers pool ∧
  effs = [].
Proof.
  intros Hadd Hinv.
  destruct (accepts_dec_cases pool block p) as [(r & Hr & Hp & Hb)|Hn].
  - rewrite (AddBlock_accepted _ _ _ r) in Hadd by done.
    injection Hadd as <- <- <-. cbn.
    assert (Hw : pending_weight (Some r) = 1%nat).
    { destruct r as [rh rp rb]. cbn in Hb. by subst rb. }
    assert (Hpos : 1 <= BlockPool.numPending pool).
    { destruct Hinv as [_ _ Hpe _ _]. rewrite Hpe.
      rewrite (size_unfilled_delete _ (Block.Height block)), Hr, Hw. lia. }
    destruct (pool_inv_bounds _ Hinv) as [Hb1 Hb2].
    assert (Hwrap : wrap_int32 (BlockPool.numPending pool - 1)
                    = BlockPool.numPending pool - 1).
    { apply wrap_int32_id.
      unfold is_int32, int32_min, int32_max, maxTotalRequests in *. lia. }
    rewrite Hwrap. split_and!; try done; [|lia].
    eapply (pool_inv_replace pool (Block.Height block) r); eauto.
    rewrite Hw. cbn. lia.
  - rewrite AddBlock_discarded in Hadd by done.
    injection Hadd as <- <- <-. split_and!; done.
Qed.

Lemma RedoRequest_inv h pool a pool' effs :
  RedoRequest h pool = Ok a pool' effs →
  pool_inv pool →
  pool_inv pool' ∧
  BlockPool.height pool' = BlockPool.height pool ∧
  BlockPool.numTotal pool' = BlockPool.numTotal pool ∧
  BlockPool.running pool' = BlockPool.running pool ∧
  effs = [GoRequestRoutine h].
Proof.
  intros Hredo Hinv.
  destruct (decide (filled pool h)) as [(r & b & Hr & Hb)|Hn].
  - rewrite (RedoRequest_filled _ _ r b) in Hredo by done.
    injection Hredo as <- <- <-. cbn.
    assert (Hw : pending_weight (Some r) = 0%nat).
    { destruct r as [rh rp rb]. cbn in Hb. by subst rb. }
    assert (Hlt : BlockPool.numPending pool < BlockPool.numTotal pool).
    { destruct Hinv as [_ Ht Hpe _ _]. rewrite Hpe, Ht.
      pose proof (size_unfilled_delete (BlockPool.requests pool) h) as H1.
      pose proof (size_delete_weight (BlockPool.requests pool) h) as H2.
      rewrite Hr in H1, H2. rewrite Hw in H1. cbn in H2.
      pose proof (size_unfilled_le (delete h (BlockPool.requests pool))).
      lia. }
    destruct (pool_inv_bounds _ Hinv) as [Hb1 Hb2].
    assert (Hwrap : wrap_int32 (BlockPool.numPending pool + 1)
                    = BlockPool.numPending pool + 1).
    { apply wrap_int32_id.
      unfold is_int32, int32_min, int32_max, maxTotalRequests in *. lia. }
    rewrite Hwrap. split_and!; try done.
    eapply (pool_inv_replace pool h r); eauto.
    rewrite Hw. cbn. lia.
  - destruct (RedoRequest_unfilled _ _ Hn) as [msg Hp]. congruence.
Qed.

Lemma PopRequest_Ok pool a pool' effs :
  PopRequest pool = Ok a pool' effs →
  filled pool (BlockPool.height pool) ∧
  effs = [] ∧
  pool' =
    {| BlockPool.requests :=
         delete (BlockPool.height pool) (BlockPool.requests pool);
       BlockPool.height := wrap_uint (BlockPool.height pool + 1);
       BlockPool.numPending := BlockPool.numPending pool;
       BlockPool.numTotal := wrap_int32 (BlockPool.numTotal pool - 1);
       BlockPool.peers := BlockPool.peers pool;
       BlockPool.running := BlockPool.running pool |}.
Proof.
  unfold PopRequest, filled. unfold_M. cbn.
  destruct (BlockPool.requests pool !! BlockPool.height pool)
    as [[rh rp [b|]]|] eqn:Hr; cbn; try done.
  intros [= <- <- <-]. split_and!; try done. by eexists _, b.
Qed.

Lemma PopRequest_inv pool a pool' effs :
  PopRequest pool = Ok a pool' effs →
  pool_inv pool →
  pool_inv pool' ∧
  settled pool pool' ∧
  BlockPool.numPending pool' = BlockPool.numPending pool ∧
  BlockPool.running pool' = BlockPool.running pool ∧
  BlockPool.peers pool' = BlockPool.peers pool ∧
  effs = [].
Proof.
  intros Hpop Hinv.
  apply PopRequest_Ok in Hpop as ((r & b & Hr & Hb) & -> & ->).
  assert (Hw : pending_weight (Some r) = 0%nat).
  { destruct r as [rh rp rb]. cbn in Hb. by subst rb. }
  pose proof (next_height_eq _ Hinv) as Hnext.
  destruct (pool_inv_bounds _ Hinv) as [Hb1 Hb2].
  destruct Hinv as [Hh Ht Hp Hc Hwin].
  pose proof (size_delete_weight (BlockPool.requests pool)
                (BlockPool.height pool)) as Hsize.
  pose proof (size_unfilled_delete (BlockPool.requests pool)
                (BlockPool.height pool)) as Hsizeu.
  rewrite Hr in Hsize, Hsizeu. rewrite Hw in Hsizeu. cbn in Hsize.
  assert (Hwrap : wrap_int32 (BlockPool.numTotal pool - 1)
                  = BlockPool.numTotal pool - 1).
  { apply wrap_int32_id.
    unfold is_int32, int32_min, int32_max, maxTotalRequests in *. lia. }
  split_and!; try done.
  - split; cbn; rewrite ?Hwrap.
    + apply wrap_uint_is_uint.
    + lia.
    + lia.
    + lia.
    + intros k. rewrite in_window_shift; [|done|].
      * rewrite <- Hwin. unfold is_Some.
        setoid_rewrite lookup_delete_Some.
        split; [intros (x & Hne & Hx)|intros [[x Hx] Hne]]; eauto.
      * unfold maxTotalRequests, uint_modulus in *. lia.
  - split; cbn; rewrite Hwrap; [lia|].
    rewrite Hnext. unfold next_height. cbn. rewrite ?Hwrap.
    rewrite (uint_of_int32_id (BlockPool.numTotal pool - 1)).
    + rewrite wrap_uint_add_l. f_equal. lia.
    + unfold maxTotalRequests, uint_modulus in *. lia.
Qed.

Lemma makeRequest_inv pool a pool' effs :
  makeRequest (next_height pool) pool = Ok a pool' effs →
  pool_inv pool →
  BlockPool.numTotal pool < maxTotalRequests →
  pool_inv pool' ∧
  BlockPool.height pool' = BlockPool.height pool ∧
  BlockPool.numTotal pool' = BlockPool.numTotal pool + 1 ∧
  BlockPool.numPending pool' = BlockPool.numPending pool + 1 ∧
  BlockPool.running pool' = BlockPool.running pool ∧
  BlockPool.peers pool' = BlockPool.peers pool ∧
  effs = [GoRequestRoutine (next_height pool)].
Proof.
  rewrite makeRequest_total. intros [= <- <- <-] Hinv Hlt.
  fold (next_height pool).
  destruct (decide (next_height pool = next_height pool)); [|done].
  pose proof (next_height_eq _ Hinv) as Hnext.
  destruct (pool_inv_bounds _ Hinv) as [Hb1 Hb2].
  destruct Hinv as [Hh Ht Hp Hc Hwin].
  assert (Hfresh : BlockPool.requests pool !! next_height pool = None).
  { apply eq_None_not_Some. rewrite Hwin, Hnext.
    apply next_not_in_window.
    unfold maxTotalRequests, uint_modulus in *. lia. }
  assert (Hwt : wrap_int32 (BlockPool.numTotal pool + 1)
                = BlockPool.numTotal pool + 1).
  { apply wrap_int32_id.
    unfold is_int32, int32_min, int32_max, maxTotalRequests in *. lia. }
  assert (Hwp : wrap_int32 (BlockPool.numPending pool + 1)
                = BlockPool.numPending pool + 1).
  { apply wrap_int32_id.
    unfold is_int32, int32_min, int32_max, maxTotalRequests in *. lia. }
  cbn. rewrite Hwt, Hwp. split_and!; try done.
  split; cbn.
  - done.
  - rewrite map_size_insert_None by done. lia.
  - rewrite size_unfilled_insert, delete_id by done. cbn. lia.
  - lia.
  - intros k. rewrite lookup_insert_is_Some', in_window_grow by lia.
    rewrite <- Hwin, Hnext.
    split; (intros [Hk|Hk]; [by right|by left]).
Qed.

Lemma perform_pool w effs : pool (foldl perform w effs) = pool w.
Proof.
  revert w. induction effs as [|e effs IH]; intros w; [done|].
  cbn. rewrite IH. by destruct e.
Qed.

Lemma perform_runners w effs :
  GoRun ∉ effs → runners (foldl perform w effs) = runners w.
Proof.
  revert w. induction effs as [|e effs IH]; intros w Hn; [done|].
  cbn. rewrite IH.
  - destruct e; try done. exfalso. apply Hn. apply list_elem_of_here.
  - intros Hin. apply Hn. by apply list_elem_of_further.
Qed.

Lemma admitting_settled pool pool' pc :
  settled pool pool' → admitting pool pc → admitting pool' pc.
Proof.
  intros [Hle Hnext]. destruct pc; cbn; try done.
  - lia.
  - intros [Hlt ->]. split; [lia|done].
Qed.

Lemma admitting_pending_le pool pool' pc :
  BlockPool.numPending pool' <= BlockPool.numPending pool →
  admitting_pending pool pc → admitting_pending pool' pc.
Proof. intros Hle. destruct pc; cbn; try done; lia. Qed.

Lemma world_inv_frame stopped redone w w' :
  world_inv stopped redone w →
  pool_inv (pool w') →
  settled (pool w) (pool w') →
  (redone = false →
   BlockPool.numPending (pool w') <= BlockPool.numPending (pool w)) →
  (stopped = true ∨
   BlockPool.running (pool w') = BlockPool.running (pool w)) →
  runners w' = runners w →
  world_inv stopped redone w'.
Proof.
  intros (Hinv & Hlen & Hadm & Hrun & Hpend) Hinv' Hset Hle Hr Hrs.
  unfold world_inv. rewrite Hrs. split_and!; try done.
  - eapply Forall_impl; [done|]. intros pc. by apply admitting_settled.
  - intros Hs. destruct Hr as [Hr|Hr]; [congruence|].
    rewrite Hr. by apply Hrun.
  - intros Hrd. destruct (Hpend Hrd) as [Hcap Hall]. specialize (Hle Hrd).
    split; [lia|].
    eapply Forall_impl; [done|]. intros pc. by apply admitting_pending_le.
Qed.

Lemma world_inv_weaken stopped redone stopped' redone' w :
  world_inv stopped redone w →
  world_inv (stopped || stopped') (redone || redone') w.
Proof.
  intros (Hinv & Hlen & Hadm & Hrun & Hpend). split_and!; try done.
  - intros [-> ->]%orb_false_elim. by apply Hrun.
  - intros [-> ->]%orb_false_elim. by apply Hpend.
Qed.

Lemma pickIncrAvailablePeer_table order h pool a pool' effs :
  pickIncrAvailablePeer order h pool = Ok a pool' effs →
  BlockPool.requests pool' = BlockPool.requests pool ∧
  BlockPool.height pool' = BlockPool.height pool ∧
  BlockPool.numPending pool' = BlockPool.numPending pool ∧
  BlockPool.numTotal pool' = BlockPool.numTotal pool ∧
  BlockPool.running pool' = BlockPool.running pool ∧
  effs = [].
Proof.
  destruct (pickIncrAvailablePeer_scan order h pool)
    as [(key & peer & _ & _ & _ & ->)|[_ ->]]; by intros [= <- <- <-].
Qed.

Lemma decrPeer_table p pool a pool' effs :
  decrPeer p pool = Ok a pool' effs →
  BlockPool.requests pool' = BlockPool.requests pool ∧
  BlockPool.height pool' = BlockPool.height pool ∧
  BlockPool.numPending pool' = BlockPool.numPending pool ∧
  BlockPool.numTotal pool' = BlockPool.numTotal pool ∧
  BlockPool.running pool' = BlockPool.running pool ∧
  effs = [].
Proof.
  unfold decrPeer. unfold_M. cbn.
  destruct (BlockPool.peers pool !! p); cbn; by intros [= <- <- <-].
Qed.

(** A step of a request goroutine leaves the window and its counters. *)
Lemma requestRoutine_step_table order h pc pool pc' pool' effs :
  requestRoutine_step order h pc pool = Ok pc' pool' effs →
  pool_inv pool →
  pool_inv pool' ∧
  BlockPool.height pool' = BlockPool.height pool ∧
  BlockPool.numTotal pool' = BlockPool.numTotal pool ∧
  BlockPool.numPending pool' = BlockPool.numPending pool ∧
  BlockPool.running pool' = BlockPool.running pool ∧
  GoRun ∉ effs.
Proof.
  intros Hstep Hinv.
  assert (Hsame :
    BlockPool.requests pool' = BlockPool.requests pool →
    BlockPool.height pool' = BlockPool.height pool →
    BlockPool.numPending pool' = BlockPool.numPending pool →
    BlockPool.numTotal pool' = BlockPool.numTotal pool →
    BlockPool.running pool' = BlockPool.running pool →
    GoRun ∉ effs →
    pool_inv pool' ∧
    BlockPool.height pool' = BlockPool.height pool ∧
    BlockPool.numTotal pool' = BlockPool.numTotal pool ∧
    BlockPool.numPending pool' = BlockPool.numPending pool ∧
    BlockPool.running pool' = BlockPool.running pool ∧
    GoRun ∉ effs).
  { intros Hr Hh Hp Ht Hrun Heffs. split_and!; try done.
    by eapply pool_inv_same_table. }
  assert (Hnil : GoRun ∉ ([] : list effect)) by apply not_elem_of_nil.
  destruct pc as [| |p|p try|p try|p try|p|p|].
  - apply requestRoutine_step_inv in Hstep as (-> & -> & _).
    by apply Hsame.
  - apply requestRoutine_step_inv in Hstep
      as [(Hpick & _ & ->)|(peer & Hpick & _ & ->)];
      apply pickIncrAvailablePeer_table in Hpick
        as (? & ? & ? & ? & ? & _); by apply Hsame.
  - cbn in Hstep. unfold_M.
    destruct (setPeerForRequest h p pool) as [[] pool1 effs1|] eqn:Hset;
      [|done].
    injection Hstep as <- <- <-.
    apply setPeerForRequest_inv in Hset as (? & ? & ? & ? & ? & ? & ->);
      [|done].
    split_and!; done.
  - apply requestRoutine_step_inv in Hstep
      as [(_ & _ & -> & ->)|(_ & _ & -> & ->)].
    + apply Hsame; try done.
      destruct (decide (BlockPool.running pool = 0)); [done|].
      by intros [=]%list_elem_of_singleton.
    + by apply Hsame.
  - apply requestRoutine_step_inv in Hstep as (-> & -> & _).
    by apply Hsame.
  - apply requestRoutine_step_inv in Hstep as (-> & -> & _).
    by apply Hsame.
  - apply requestRoutine_step_inv in Hstep as (_ & -> & Hdecr).
    apply decrPeer_table in Hdecr as (? & ? & ? & ? & ? & _).
    by apply Hsame.
  - apply requestRoutine_step_inv in Hstep as (_ & -> & ->).
    apply Hsame; try done.
    destruct (decide (BlockPool.running pool = 0)); [done|].
    by intros [=]%list_elem_of_singleton.
  - apply requestRoutine_step_inv in Hstep as (_ & -> & ->).
    by apply Hsame.
Qed.

(** A method called from outside that an admission loop does not notice. *)
Lemma call_frame {A} (m : M A) w w' stopped redone :
  call m w = Some w' →
  world_inv stopped redone w →
  (∀ a pool' effs,
     m (pool w) = Ok a pool' effs →
     pool_inv pool' ∧
     settled (pool w) pool' ∧
     (redone = false →
      BlockPool.numPending pool' <= BlockPool.numPending (pool w)) ∧
     (stopped = true ∨
      BlockPool.running pool' = BlockPool.running (pool w)) ∧
     GoRun ∉ effs) →
  world_inv stopped redone w'.
Proof.
  unfold call. intros Hcall Hinv Hm.
  destruct (m (pool w)) as [a pool' effs|] eqn:Hres; [|done].
  injection Hcall as <-.
  destruct (Hm _ _ _ eq_refl) as (Hinv' & Hset & Hle & Hrun & Heffs).
  eapply world_inv_frame; [done|..]; rewrite ?perform_pool; cbn; try done.
  by rewrite perform_runners.
Qed.

Lemma singleton_runner (runners : list run_pc) i pc :
  runners !! i = Some pc → (length runners <= 1)%nat →
  runners = [pc] ∧ i = 0%nat.
Proof.
  destruct runners as [|pc0 [|pc1 rest]]; cbn; [done| |lia].
  destruct i as [|i]; cbn; [|done]. by intros [= ->] _.
Qed.

(** A step of the admission loop. *)
Lemma world_inv_run_step stopped redone w pc pc' w' :
  world_inv stopped redone w →
  runners w = [pc] →
  runners w' = [pc'] →
  pool_inv (pool w') →
  BlockPool.running (pool w') = BlockPool.running (pool w) →
  admitting (pool w') pc' →
  (redone = false →
   BlockPool.numPending (pool w) <= maxPendingRequests →
   admitting_pending (pool w) pc →
   BlockPool.numPending (pool w') <= maxPendingRequests ∧
   admitting_pending (pool w') pc') →
  world_inv stopped redone w'.
Proof.
  intros (Hinv & Hlen & Hadm & Hrun & Hpend) Hrs Hrs' Hinv' Hr Hadm' Hp.
  unfold world_inv. rewrite Hrs'. split_and!; try done.
  - by rewrite Forall_singleton.
  - intros Hs Hz. rewrite Hr in Hz. specialize (Hrun Hs Hz). congruence.
  - intros Hrd. destruct (Hpend Hrd) as [Hcap Hall].
    rewrite Hrs in Hall. rewrite Forall_singleton in Hall.
    destruct (Hp Hrd Hcap Hall) as [? ?]. split; [done|].
    by rewrite Forall_singleton.
Qed.

Lemma run_step_inv pc pool pc' pool' effs :
  run_step pc pool = Ok pc' pool' effs →
  match pc with
  | RunLoop =>
      pool' = pool ∧ effs = [] ∧
      pc' = if decide (BlockPool.running pool = 0) then RunExit
            else RunStatus
  | RunStatus =>
      pool' = pool ∧ effs = [] ∧
      pc' = if decide (BlockPool.numPending pool >= maxPendingRequests)
            then RunLoop
            else if decide (BlockPool.numTotal pool >= maxTotalRequests)
            then RunLoop else RunNextHeight
  | RunNextHeight =>
      pool' = pool ∧ effs = [] ∧ pc' = RunMakeRequest (next_height pool)
  | RunMakeRequest h =>
      pc' = RunLoop ∧ makeRequest h pool = Ok tt pool' effs
  | RunExit => pc' = RunExit ∧ pool' = pool ∧ effs = []
  end.
Proof.
  destruct pc as [| | |h|]; cbn [run_step].
  - unfold LoadRunning. unfold_M. cbn.
    destruct (decide (BlockPool.running pool = 0)); by intros [= <- <- <-].
  - unfold GetStatus. unfold_M. cbn.
    destruct (decide (BlockPool.numPending pool >= maxPendingRequests));
      [|destruct (decide (BlockPool.numTotal pool >= maxTotalRequests))];
      by intros [= <- <- <-].
  - unfold nextHeight. unfold_M. cbn. by intros [= <- <- <-].
  - rewrite makeRequest_total. unfold_M. rewrite makeRequest_total. cbn.
    by intros [= <- <- <-].
  - unfold_M. by intros [= <- <- <-].
Qed.

Lemma step_world_inv a w w' stopped redone :
  step a w = Some w' →
  world_inv stopped redone w →
  (a = CallStart → stopped = false) →
  world_inv (stopped || is_stop a) (redone || is_redo a) w'.
Proof.
  unfold step. destruct (decide (well_typed a)) as [_|]; [|done].
  destruct a as [| |p h|p|b p| | | |h|i|i order]; cbn [is_stop is_redo];
    rewrite ?orb_false_r, ?orb_true_r; intros Hstep Hinv Hstart.
  - (* Start *)
    rewrite (Hstart eq_refl) in *. clear Hstart.
    unfold call, Start, CompareAndSwapRunning in Hstep. unfold_M.
    cbn in Hstep.
    destruct (decide (BlockPool.running (pool w) = 0)) as [Hz|Hnz];
      cbn in Hstep; injection Hstep as <-.
    + destruct Hinv as (Hinv & Hlen & Hadm & Hrun & Hpend).
      rewrite (Hrun eq_refl Hz) in *.
      unfold world_inv. cbn. split_and!; try done.
      * eapply pool_inv_same_table; [..|exact Hinv]; done.
      * by rewrite Forall_singleton.
      * intros Hrd. destruct (Hpend Hrd) as [Hcap _]. split; [done|].
        by rewrite Forall_singleton.
    + eapply world_inv_frame; [done|..]; cbn;
        [apply Hinv|by apply settled_refl|done|by right|done].
  - (* Stop *)
    apply (world_inv_weaken _ _ true false) in Hinv.
    rewrite orb_true_r, orb_false_r in Hinv.
    eapply call_frame; [done..|].
    intros a pool' effs. unfold Stop, CompareAndSwapRunning. unfold_M. cbn.
    destruct (decide (BlockPool.running (pool w) = 1)); cbn;
      intros [= <- <- <-]; (split_and!; [|by apply settled_refl|done|by left|
                                         apply not_elem_of_nil]).
    + eapply pool_inv_same_table; [..|apply Hinv]; done.
    + apply Hinv.
  - (* SetPeerHeight *)
    eapply call_frame; [done..|].
    intros a pool' effs. unfold SetPeerHeight. unfold_M. cbn.
    destruct (BlockPool.peers (pool w) !! p); cbn;
      intros [= <- <- <-];
      (split_and!; [|by apply settled_refl|done|by right|
                    apply not_elem_of_nil]);
      (eapply pool_inv_same_table; [..|apply Hinv]; done).
  - (* RemovePeer *)
    eapply call_frame; [done..|].
    intros a pool' effs. unfold RemovePeer. unfold_M. cbn.
    intros [= <- <- <-].
    split_and!; [|by apply settled_refl|done|by right|apply not_elem_of_nil].
    eapply pool_inv_same_table; [..|apply Hinv]; done.
  - (* AddBlock *)
    eapply call_frame; [done..|].
    intros a pool' effs Hadd.
    apply AddBlock_inv in Hadd as (? & ? & ? & ? & ? & ? & ->);
      [|apply Hinv].
    split_and!; [done|by apply settled_refl|done|by right|
                 apply not_elem_of_nil].
  - (* GetStatus *)
    eapply call_frame; [done..|].
    intros a pool' effs. unfold GetStatus. unfold_M. cbn.
    intros [= <- <- <-].
    split_and!; [apply Hinv|by apply settled_refl|done|by right|
                 apply not_elem_of_nil].
  - (* PeekTwoBlocks *)
    eapply call_frame; [done..|].
    intros a pool' effs. unfold PeekTwoBlocks. unfold_M. cbn.
    intros [= <- <- <-].
    split_and!; [apply Hinv|by apply settled_refl|done|by right|
                 apply not_elem_of_nil].
  - (* PopRequest *)
    eapply call_frame; [done..|].
    intros a pool' effs Hpop.
    apply PopRequest_inv in Hpop as (? & ? & ? & ? & ? & ->); [|apply Hinv].
    split_and!; [done|done|lia|by right|apply not_elem_of_nil].
  - (* RedoRequest *)
    apply (world_inv_weaken _ _ false true) in Hinv.
    rewrite orb_true_r, orb_false_r in Hinv.
    eapply call_frame; [done..|].
    intros a pool' effs Hredo.
    apply RedoRequest_inv in Hredo as (? & ? & ? & ? & ->); [|apply Hinv].
    split_and!; [done|by apply settled_refl|done|by right|].
    by intros [=]%list_elem_of_singleton.
  - (* run *)
    destruct (runners w !! i) as [pc|] eqn:Hi; [|done].
    destruct (singleton_runner _ _ _ Hi (proj1 (proj2 Hinv))) as [Hrs ->].
    pose proof (proj1 Hinv) as Hpool.
    pose proof (proj1 (proj2 (proj2 Hinv))) as Hadm.
    rewrite Hrs in Hadm. rewrite Forall_singleton in Hadm.
    assert (∃ pc' pool' effs,
              run_step pc (pool w) = Ok pc' pool' effs ∧
              w' = foldl perform
                     (set_runners (<[0%nat:=pc']> (runners w))
                        (set_pool pool' w)) effs)
      as (pc' & pool' & effs & Hrun & ->).
    { destruct pc; try done;
        (destruct (run_step _ (pool w)) as [pc' pool' effs|]; [|done]);
        injection Hstep as <-; by eexists _, _, _. }
    clear Hstep. apply run_step_inv in Hrun.
    destruct pc as [| | |h|].
    + (* RunLoop *)
      destruct Hrun as (-> & -> & ->).
      eapply world_inv_run_step; [done|done|..]; cbn;
        [by rewrite Hrs|done|done| |].
      * by destruct (decide (BlockPool.running (pool w) = 0)).
      * intros _ Hcap _. split; [done|].
        by destruct (decide (BlockPool.running (pool w) = 0)).
    + (* RunStatus *)
      destruct Hrun as (-> & -> & ->).
      eapply world_inv_run_step; [done|done|..]; cbn;
        [by rewrite Hrs|done|done| |].
      * destruct (decide (BlockPool.numPending (pool w)
                          >= maxPendingRequests)); [done|].
        destruct (decide (BlockPool.numTotal (pool w) >= maxTotalRequests));
          [done|]. cbn. lia.
      * intros _ Hcap _. split; [done|].
        destruct (decide (BlockPool.numPending (pool w)
                          >= maxPendingRequests)); [done|].
        destruct (decide (BlockPool.numTotal (pool w) >= maxTotalRequests));
          [done|]. cbn. lia.
    + (* RunNextHeight *)
      destruct Hrun as (-> & -> & ->).
      eapply world_inv_run_step; [done|done|..]; cbn;
        [by rewrite Hrs|done|done|done|].
      by intros _ Hcap Hp.
    + (* RunMakeRequest *)
      destruct Hadm as [Hlt ->]. destruct Hrun as [-> Hmake].
      apply makeRequest_inv in Hmake as (? & ? & Ht & Hp & ? & ? & ->);
        [|done..].
      eapply world_inv_run_step; [done|done|..]; cbn;
        [by rewrite Hrs|done|done|done|].
      cbn. intros _ _ Hlt'. rewrite Hp. split; [lia|done].
    + (* RunExit *)
      destruct Hrun as (-> & -> & ->).
      eapply world_inv_run_step; [done|done|..]; cbn;
        [by rewrite Hrs|done|done|done|].
      by intros _ Hcap Hp.
  - (* requestRoutine *)
    destruct (routines w !! i) as [[h pc]|] eqn:Hi; [|done].
    assert (Hgo :
      ∀ pc' pool' effs,
        requestRoutine_step order h pc (pool w) = Ok pc' pool' effs →
        world_inv stopped redone
          (foldl perform
             (set_routines (<[i:=(h, pc')]> (routines w))
                (set_pool pool' w)) effs)).
    { intros pc' pool' effs Hrs.
      apply requestRoutine_step_table in Hrs as (? & ? & ? & ? & ? & ?);
        [|apply Hinv].
      eapply world_inv_frame; [done|..]; rewrite ?perform_pool; cbn;
        try done.
      - by apply settled_refl.
      - intros _. lia.
      - by right.
      - by rewrite perform_runners. }
    destruct pc; try done;
      (destruct (decide _) in Hstep; [done|]);
      (destruct (requestRoutine_step _ _ _ _) eqn:Hrs in Hstep; [|done]);
      injection Hstep as <-; by eapply Hgo.
Qed.

(** ** The window and its counters in every reachable state *)

Lemma restart_free_cons stopped a trace :
  restart_free stopped (a :: trace) = true →
  (a = CallStart → stopped = false) ∧
  restart_free (stopped || is_stop a) trace = true.
Proof.
  destruct a; cbn; rewrite ?orb_false_r, ?orb_true_r; try done.
  intros [Hs Hr]%andb_true_iff. split; [|done].
  intros _. by destruct stopped.
Qed.

Lemma exec_world_inv trace w w' stopped redone :
  exec trace w = Some w' →
  world_inv stopped redone w →
  restart_free stopped trace = true →
  ∃ stopped', world_inv stopped' (redone || negb (redo_free trace)) w'.
Proof.
  revert w stopped redone.
  induction trace as [|a trace IH]; intros w stopped redone Hexec Hinv Hfree.
  - injection Hexec as <-. exists stopped. by rewrite orb_false_r.
  - cbn in Hexec. destruct (step a w) as [w1|] eqn:Hstep; [|done].
    apply restart_free_cons in Hfree as [Hstart Hfree].
    pose proof (step_world_inv _ _ _ _ _ Hstep Hinv Hstart) as Hinv1.
    destruct (IH _ _ _ Hexec Hinv1 Hfree) as [stopped' Hinv'].
    exists stopped'. cbn [redo_free forallb].
    replace (redone || negb (negb (is_redo a) && forallb (λ a, negb (is_redo a)) trace))
      with (redone || is_redo a || negb (redo_free trace)); [done|].
    unfold redo_free. by destruct redone, (is_redo a), (forallb _ trace).
Qed.

Lemma NewWorld_inv start : is_uint start → world_inv false false (NewWorld start).
Proof.
  intros Hs. unfold world_inv. cbn. split_and!; try done.
  - split; cbn; try done.
    intros k. rewrite lookup_empty. split; [by intros [? ?]|].
    intros (i & Hi & _). lia.
  - lia.
Qed.

(** C4, as amended.  Take a pool created at any [uint] height and any run
    of the system (calls of the network layer and of the consumer, steps of
    the admission loop and of the request goroutines, interleaved in any
    way) in which [Start] is not called again after [Stop].  In the state
    it reaches, [numPending] is the number of requests without a block,
    [numTotal] is the number of requests, and
    [0 <= numPending <= numTotal <= maxTotalRequests] = 100.  If moreover
    the run contains no [RedoRequest], then
    [numPending <= maxPendingRequests] = 50. *)
Theorem window_bounds_reachable (start : Z) (trace : list action)
    (w : World) :
  is_uint start →
  restart_free false trace = true →
  exec trace (NewWorld start) = Some w →
  0 <= BlockPool.numPending (pool w) <= BlockPool.numTotal (pool w) ∧
  BlockPool.numTotal (pool w) <= maxTotalRequests ∧
  BlockPool.numPending (pool w) =
    Z.of_nat (size (unfilled (BlockPool.requests (pool w)))) ∧
  BlockPool.numTotal (pool w) =
    Z.of_nat (size (BlockPool.requests (pool w))) ∧
  (redo_free trace = true →
   BlockPool.numPending (pool w) <= maxPendingRequests).
Proof.
  intros Hs Hfree Hexec.
  destruct (exec_world_inv _ _ _ _ _ Hexec (NewWorld_inv _ Hs) Hfree)
    as (stopped' & Hinv & _ & _ & _ & Hpend).
  destruct (pool_inv_bounds _ Hinv) as [Hb1 Hb2].
  split_and!; try done; try apply Hinv; try lia.
  intros Hrf. rewrite Hrf in Hpend. by apply Hpend.
Qed.

Lemma window_bounds_reachable_witness :
  is_uint 0 ∧
  restart_free false second_block_first = true ∧
  ∃ w,
    exec second_block_first (NewWorld 0) = Some w ∧
    0 <= BlockPool.numPending (pool w) <= BlockPool.numTotal (pool w) ∧
    BlockPool.numTotal (pool w) <= maxTotalRequests ∧
    BlockPool.numPending (pool w) <= maxPendingRequests.
Proof.
  assert (Hu : is_uint 0) by (unfold is_uint, uint_modulus; lia).
  assert (Hf : restart_free false second_block_first = true)
    by reflexivity.
  split; [exact Hu|]. split; [exact Hf|].
  destruct (after_reachable second_block_first 0 (λ _, True))
    as (w & Hexec & _); [by vm_compute|].
  exists w. split; [exact Hexec|].
  destruct (window_bounds_reachable 0 second_block_first w Hu Hf Hexec)
    as (Hb & Hc & _ & _ & Hp).
  split; [exact Hb|]. split; [exact Hc|]. apply Hp. reflexivity.
Defined.

(** Why the runs above are free of restarts: [Stop] does not wait for the
    admission loop to end, so a [Start] after it leaves two loops running,
    and together they take the window beyond [maxTotalRequests]. *)
Remark total_above_cap_after_restart :
  restart_free false restart_with_two_loops = false ∧
  redo_free restart_with_two_loops = true ∧
  after restart_with_two_loops 0 (λ w,
    runners w = [RunLoop; RunLoop] ∧
    BlockPool.numTotal (pool w) = 101 ∧
    BlockPool.numPending (pool w) = 2).
Proof.
  split; [by vm_compute|]. split; [by vm_compute|].
  vm_compute. split_and!; reflexivity.
Qed.

(** C4, the claim as written fails: [RedoRequest] can take [numPending]
    above [maxPendingRequests].  Fifty heights are admitted, block 0 is
    delivered by the peer it was requested from, a fifty-first height is
    admitted, and the consumer rejects block 0: now 51 requests are
    pending. *)
Lemma pending_above_cap_after_redo :
  restart_free false redo_at_pending_cap = true ∧
  after redo_at_pending_cap 0 (λ w,
    BlockPool.numPending (pool w) = 51 ∧
    BlockPool.numTotal (pool w) = 51 ∧
    ¬ BlockPool.numPending (pool w) <= maxPendingRequests).
Proof.
  split; [reflexivity|]. vm_compute. split_and!; try reflexivity.
  intros H. by apply H.
Qed.

(** ** The counters of the peer registry *)

Lemma holders_app routines routines' p :
  holders (routines ++ routines') p =
    (holders routines p + holders routines' p)%nat.
Proof. unfold holders. apply sum_list_with_app. Qed.

Lemma holders_cons r routines p :
  holders (r :: routines) p = (holder p r + holders routines p)%nat.
Proof. reflexivity. Qed.

Lemma holders_insert routines i h pc h' pc' p :
  routines !! i = Some (h, pc) →
  (holders (<[i := (h', pc')]> routines) p + holder p (h, pc) =
   holders routines p + holder p (h', pc'))%nat.
Proof.
  revert i. induction routines as [|r routines IH]; intros [|i] Hi;
    try done.
  - injection Hi as ->.
    change (<[0%nat:=(h', pc')]> ((h, pc) :: routines))
      with ((h', pc') :: routines).
    rewrite !holders_cons. lia.
  - change (<[S i:=(h', pc')]> (r :: routines))
      with (r :: <[i:=(h', pc')]> routines).
    rewrite !holders_cons. specialize (IH i Hi). lia.
Qed.

Lemma holders_insert_same routines i h pc h' pc' p :
  routines !! i = Some (h, pc) →
  holds p pc' = holds p pc →
  holders (<[i := (h', pc')]> routines) p = holders routines p.
Proof.
  intros Hi Hh. pose proof (holders_insert _ _ _ _ h' pc' p Hi) as H.
  unfold holder in H. cbn in H. rewrite Hh in H. lia.
Qed.

Lemma perform_holders w effs p :
  holders (routines (foldl perform w effs)) p = holders (routines w) p.
Proof.
  revert w. induction effs as [|e effs IH]; intros w; [done|].
  cbn. rewrite IH. destruct e; cbn; try done.
  rewrite holders_app. rewrite holders_cons. unfold holder. cbn.
  change (holders [] p) with 0%nat. lia.
Qed.

Lemma perform_routines_lookup w effs i r :
  routines w !! i = Some r → routines (foldl perform w effs) !! i = Some r.
Proof.
  revert w. induction effs as [|e effs IH]; intros w Hi; [done|].
  cbn. apply IH. destruct e; cbn; try done. by apply lookup_app_l_Some.
Qed.

(** Steps that delete records or leave the registry, and move no goroutine
    that holds a slot. *)
Lemma peers_inv_shrink w w' :
  peers_inv w →
  (∀ p peer, BlockPool.peers (pool w') !! p = Some peer →
             BlockPool.peers (pool w) !! p = Some peer) →
  (∀ p, holders (routines w') p = holders (routines w) p) →
  peers_inv w'.
Proof.
  intros Hinv Hsub Hh p peer Hp. rewrite Hh. by apply Hinv, Hsub.
Qed.

Lemma call_Some {A} (m : M A) w w' :
  call m w = Some w' →
  ∃ a pool' effs,
    m (pool w) = Ok a pool' effs ∧
    w' = foldl perform (set_pool pool' w) effs.
Proof.
  unfold call. destruct (m (pool w)) as [a pool' effs|]; [|done].
  intros [= <-]. by eexists _, _, _.
Qed.

Lemma call_peers_shrink {A} (m : M A) w w' :
  call m w = Some w' →
  peers_inv w →
  (∀ a pool' effs p peer,
     m (pool w) = Ok a pool' effs →
     BlockPool.peers pool' !! p = Some peer →
     BlockPool.peers (pool w) !! p = Some peer) →
  peers_inv w'.
Proof.
  intros (a & pool' & effs & Hm & ->)%call_Some Hinv Hsub.
  eapply peers_inv_shrink; [done|..].
  - intros p peer. rewrite perform_pool. cbn. by eapply Hsub.
  - intros p. by rewrite perform_holders.
Qed.

Lemma setPeerForRequest_peers h p pool a pool' effs :
  setPeerForRequest h p pool = Ok a pool' effs →
  BlockPool.peers pool' = BlockPool.peers pool.
Proof.
  unfold setPeerForRequest. unfold_M. cbn.
  destruct (BlockPool.requests pool !! h); cbn; by intros [= <- <- <-].
Qed.

Lemma AddBlock_peers block p pool a pool' effs :
  AddBlock block p pool = Ok a pool' effs →
  BlockPool.peers pool' = BlockPool.peers pool.
Proof.
  destruct (accepts_dec_cases pool block p) as [(r & Hr & Hp & Hb)|Hn].
  - rewrite (AddBlock_accepted _ _ _ r) by done. by intros [= <- <- <-].
  - rewrite AddBlock_discarded by done. by intros [= <- <- <-].
Qed.

Lemma RedoRequest_peers h pool a pool' effs p peer :
  RedoRequest h pool = Ok a pool' effs →
  BlockPool.peers pool' !! p = Some peer →
  BlockPool.peers pool !! p = Some peer.
Proof.
  destruct (decide (filled pool h)) as [(r & b & Hr & Hb)|Hn].
  - rewrite (RedoRequest_filled _ _ r b) by done. intros [= <- <- <-]. cbn.
    by intros [_ ?]%lookup_delete_Some.
  - destruct (RedoRequest_unfilled _ _ Hn) as [msg ->]. done.
Qed.

(** A step of a request goroutine, seen from the registry. *)
Lemma requestRoutine_step_peers_inv w i order h pc pc' pool' effs :
  peers_inv w →
  routines w !! i = Some (h, pc) →
  requestRoutine_step order h pc (pool w) = Ok pc' pool' effs →
  peers_inv
    (foldl perform
       (set_routines (<[i:=(h, pc')]> (routines w)) (set_pool pool' w))
       effs).
Proof.
  intros Hinv Hi Hstep.
  assert (Hsame :
    BlockPool.peers pool' = BlockPool.peers (pool w) →
    (∀ q, holds q pc' = holds q pc) →
    peers_inv
      (foldl perform
         (set_routines (<[i:=(h, pc')]> (routines w)) (set_pool pool' w))
         effs)).
  { intros Hp Hh q peer. rewrite perform_pool, perform_holders. cbn.
    rewrite Hp, (holders_insert_same _ _ _ _ _ _ _ Hi (Hh q)).
    apply Hinv. }
  pose proof Hstep as Hstep'. apply requestRoutine_step_inv in Hstep'.
  destruct pc as [| |p|p try|p try|p try|p|p|].
  - destruct Hstep' as (-> & -> & ->). apply Hsame; [done|].
    intros q. by destruct (decide (BlockPool.running (pool w) = 1)).
  - destruct (pickIncrAvailablePeer_scan order h (pool w))
      as [(key & peer & _ & Hkey & [Hcap _] & Hpick)|[_ Hpick]];
      rewrite Hpick in Hstep';
      destruct Hstep' as [(Heq & -> & ->)|(peer0 & Heq & -> & ->)];
      try done.
    + injection Heq as <- <-.
      destruct (Hinv _ _ Hkey) as (Hid & Hnum & Hle).
      intros q peer'. rewrite perform_pool, perform_holders. cbn.
      rewrite Hid.
      pose proof (holders_insert _ _ _ _ h (SetPeer key) q Hi) as Hh.
      unfold holder in Hh. cbn in Hh.
      destruct (decide (key = q)) as [<-|Hne].
      * rewrite lookup_insert_eq. intros [= <-]. cbn.
        rewrite bool_decide_eq_true_2 in Hh by done.
        assert (Hw : wrap_int32 (bpPeer.numRequests peer + 1)
                     = bpPeer.numRequests peer + 1).
        { apply wrap_int32_id.
          unfold is_int32, int32_min, int32_max, maxRequestsPerPeer in *.
          lia. }
        rewrite Hw. unfold maxRequestsPerPeer in *.
        split_and!; [done|lia|lia].
      * rewrite lookup_insert_ne by done. intros Hq.
        rewrite bool_decide_eq_false_2 in Hh by done.
        replace (holders (<[i:=(h, SetPeer key)]> (routines w)) q)
          with (holders (routines w) q) by lia.
        by apply Hinv.
    + injection Heq as <-. by apply Hsame.
  - destruct Hstep' as (-> & ->). cbn in Hstep. unfold_M.
    destruct (setPeerForRequest h p (pool w)) as [[] pool1 effs1|] eqn:Hset;
      [|done].
    injection Hstep as <- _. apply setPeerForRequest_peers in Hset.
    by apply Hsame.
  - destruct Hstep' as [(_ & -> & -> & ->)|(_ & -> & -> & ->)].
    + by apply Hsame.
    + intros q peer. rewrite perform_pool, perform_holders. cbn.
      intros [Hne Hq]%lookup_delete_Some.
      rewrite (holders_insert_same _ _ _ _ _ _ _ Hi).
      * by apply Hinv.
      * cbn. by rewrite bool_decide_eq_false_2.
  - destruct Hstep' as (-> & -> & [[-> _]|[-> _]]); by apply Hsame.
  - destruct Hstep' as (-> & -> & [[-> _]|[-> _]]); by apply Hsame.
  - destruct Hstep' as (-> & -> & Hdecr).
    unfold decrPeer in Hdecr. unfold_M. cbn in Hdecr.
    pose proof (holders_insert _ _ _ _ h Returned p Hi) as Hh.
    unfold holder in Hh. cbn in Hh.
    rewrite bool_decide_eq_true_2 in Hh by done.
    destruct (BlockPool.peers (pool w) !! p) as [peer|] eqn:Hp;
      cbn in Hdecr; injection Hdecr as <-.
    + destruct (Hinv _ _ Hp) as (Hid & Hnum & Hle).
      intros q peer'. rewrite perform_pool, perform_holders. cbn.
      destruct (decide (p = q)) as [<-|Hne].
      * rewrite lookup_insert_eq. intros [= <-]. cbn.
        assert (Hw : wrap_int32 (bpPeer.numRequests peer - 1)
                     = bpPeer.numRequests peer - 1).
        { apply wrap_int32_id.
          unfold is_int32, int32_min, int32_max, maxRequestsPerPeer in *.
          lia. }
        rewrite Hw. split_and!; [done|lia|lia].
      * rewrite lookup_insert_ne by done. intros Hq.
        rewrite (holders_insert_same _ _ _ _ _ _ _ Hi).
        -- by apply Hinv.
        -- cbn. by rewrite bool_decide_eq_false_2.
    + intros q peer'. rewrite perform_pool, perform_holders. cbn.
      intros Hq. rewrite (holders_insert_same _ _ _ _ _ _ _ Hi).
      * by apply Hinv.
      * cbn. rewrite bool_decide_eq_false_2; [done|]. congruence.
  - destruct Hstep' as (-> & -> & ->). by apply Hsame.
  - destruct Hstep' as (-> & -> & ->). by apply Hsame.
Qed.

Lemma step_peers_inv a w w' :
  step a w = Some w' →
  fresh_registration w a = true →
  peers_inv w →
  peers_inv w'.
Proof.
  unfold step. destruct (decide (well_typed a)) as [_|]; [|done].
  destruct a as [| |p h|p|b p| | | |h|i|i order]; intros Hstep Hfresh Hinv.
  - eapply call_peers_shrink; [done..|].
    intros a pool' effs p peer. unfold Start, CompareAndSwapRunning.
    unfold_M. cbn.
    destruct (decide (BlockPool.running (pool w) = 0)); cbn;
      by intros [= <- <- <-].
  - eapply call_peers_shrink; [done..|].
    intros a pool' effs p peer. unfold Stop, CompareAndSwapRunning.
    unfold_M. cbn.
    destruct (decide (BlockPool.running (pool w) = 1)); cbn;
      by intros [= <- <- <-].
  - (* SetPeerHeight *)
    apply call_Some in Hstep as (a & pool' & effs & Hm & ->).
    unfold SetPeerHeight in Hm. unfold_M. cbn in Hm, Hfresh.
    intros q peer'. rewrite perform_pool, perform_holders. cbn.
    destruct (BlockPool.peers (pool w) !! p) as [peer|] eqn:Hp; cbn in Hm;
      injection Hm as <- <-; cbn;
      (destruct (decide (p = q)) as [<-|Hne];
       [rewrite lookup_insert_eq; intros [= <-]; cbn
       |rewrite lookup_insert_ne by done; by apply Hinv]).
    + by apply Hinv.
    + apply bool_decide_eq_true_1 in Hfresh. rewrite Hfresh.
      unfold maxRequestsPerPeer. split_and!; [done|done|lia].
  - eapply call_peers_shrink; [done..|].
    intros a pool' effs q peer. unfold RemovePeer. unfold_M. cbn.
    intros [= <- <- <-]. cbn. by intros [_ ?]%lookup_delete_Some.
  - eapply call_peers_shrink; [done..|].
    intros a pool' effs q peer Hadd. apply AddBlock_peers in Hadd.
    by rewrite Hadd.
  - eapply call_peers_shrink; [done..|].
    intros a pool' effs q peer. unfold GetStatus. unfold_M. cbn.
    by intros [= <- <- <-].
  - eapply call_peers_shrink; [done..|].
    intros a pool' effs q peer. unfold PeekTwoBlocks. unfold_M. cbn.
    by intros [= <- <- <-].
  - eapply call_peers_shrink; [done..|].
    intros a pool' effs q peer Hpop.
    by apply PopRequest_Ok in Hpop as (_ & _ & ->).
  - eapply call_peers_shrink; [done..|].
    intros a pool' effs q peer Hredo. by eapply RedoRequest_peers.
  - (* run *)
    destruct (runners w !! i) as [pc|] eqn:Hi; [|done].
    assert (∃ pc' pool' effs,
              run_step pc (pool w) = Ok pc' pool' effs ∧
              w' = foldl perform
                     (set_runners (<[i:=pc']> (runners w))
                        (set_pool pool' w)) effs)
      as (pc' & pool' & effs & Hrun & ->).
    { destruct pc; try done;
        (destruct (run_step _ (pool w)) as [pc' pool' effs|]; [|done]);
        injection Hstep as <-; by eexists _, _, _. }
    clear Hstep. apply run_step_inv in Hrun.
    eapply peers_inv_shrink; [done|..].
    + intros q peer. rewrite perform_pool. cbn.
      destruct pc as [| | |h|].
      * by destruct Hrun as (-> & _).
      * by destruct Hrun as (-> & _).
      * by destruct Hrun as (-> & _).
      * destruct Hrun as (_ & Hmake). rewrite makeRequest_total in Hmake.
        injection Hmake as <- _. cbn.
        by destruct (decide _).
      * by destruct Hrun as (_ & -> & _).
    + intros q. by rewrite perform_holders.
  - (* requestRoutine *)
    destruct (routines w !! i) as [[h pc]|] eqn:Hi; [|done].
    destruct pc; try done;
      (destruct (decide _) in Hstep; [done|]);
      (destruct (requestRoutine_step _ _ _ _) eqn:Hrs in Hstep; [|done]);
      injection Hstep as <-; by eapply requestRoutine_step_peers_inv.
Qed.

Lemma exec_peers_inv trace w w' :
  registrations_fresh trace w = true →
  exec trace w = Some w' →
  peers_inv w →
  peers_inv w'.
Proof.
  revert w. induction trace as [|a trace IH]; intros w Hfresh Hexec Hinv.
  - by injection Hexec as <-.
  - cbn in Hexec, Hfresh. destruct (step a w) as [w1|] eqn:Hstep; [|done].
    apply andb_true_iff in Hfresh as [Ha Hfresh].
    eapply IH; [done..|]. by eapply step_peers_inv.
Qed.

(** C8, as amended.  Take any run of the system from a fresh pool in which
    [SetPeerHeight] never creates a record for an id that some request
    goroutine still holds from an earlier record of that id.  In the state
    it reaches, the counter of every peer of the registry is the number of
    goroutines that hold a slot of that peer, and
    [0 <= numRequests <= maxRequestsPerPeer] = 20: [decrPeer] has not
    taken it below zero and [pickIncrAvailablePeer] has not taken it above
    the cap. *)
Theorem numRequests_bounds_reachable (start : Z) (trace : list action)
    (w : World) :
  registrations_fresh trace (NewWorld start) = true →
  exec trace (NewWorld start) = Some w →
  ∀ p peer,
    BlockPool.peers (pool w) !! p = Some peer →
    0 <= bpPeer.numRequests peer <= maxRequestsPerPeer ∧
    bpPeer.numRequests peer = Z.of_nat (holders (routines w) p).
Proof.
  intros Hfresh Hexec p peer Hp.
  assert (Hinit : peers_inv (NewWorld start)).
  { intros q peer'. cbn. by rewrite lookup_empty. }
  destruct (exec_peers_inv _ _ _ Hfresh Hexec Hinit _ _ Hp)
    as (_ & Hnum & Hle).
  split; [lia|done].
Qed.

Lemma numRequests_bounds_reachable_witness :
  registrations_fresh second_block_first (NewWorld 0) = true ∧
  ∃ w peer,
    exec second_block_first (NewWorld 0) = Some w ∧
    BlockPool.peers (pool w) !! "A" = Some peer ∧
    0 <= bpPeer.numRequests peer <= maxRequestsPerPeer.
Proof.
  assert (Hf : registrations_fresh second_block_first (NewWorld 0) = true)
    by (vm_compute; reflexivity).
  split; [exact Hf|].
  destruct (after_reachable second_block_first 0
              (λ w, is_Some (BlockPool.peers (pool w) !! "A")))
    as (w & Hexec & peer & Hpeer); [vm_compute; by eexists|].
  exists w, peer. split; [exact Hexec|]. split; [exact Hpeer|].
  exact (proj1 (numRequests_bounds_reachable 0 second_block_first w Hf Hexec
                  "A" peer Hpeer)).
Defined.

(** C8, the claim as written fails.  The goroutine of height 0 picks the
    peer A, whose counter becomes 1, and A delivers the block.  A is
    removed and registers again, with a new record whose counter is 0.  The
    goroutine then finds its block and calls [decrPeer] for A: the counter
    of the live peer A is -1. *)
Lemma numRequests_negative_after_reconnect :
  after reconnect_before_release 0 (λ w,
    BlockPool.peers (pool w) !! "A" = Some (bpPeer.mk "A" 10 (-1)) ∧
    routines w = [(0, Returned)]).
Proof. vm_compute. split; reflexivity. Qed.

(** * The pool's operations: edge behaviour, round trips and invariants *)

(** ** Start and Stop *)

Lemma Start_stopped pool :
  BlockPool.running pool = 0 →
  Start pool = Ok tt (BlockPool.set_running 1 pool) [GoRun].
Proof.
  intros H. unfold Start, CompareAndSwapRunning. unfold_M. cbn.
  by rewrite decide_True.
Qed.

Lemma Start_running pool :
  BlockPool.running pool ≠ 0 → Start pool = Ok tt pool [].
Proof.
  intros H. unfold Start, CompareAndSwapRunning. unfold_M. cbn.
  by rewrite decide_False.
Qed.

Lemma Stop_running pool :
  BlockPool.running pool = 1 →
  Stop pool = Ok tt (BlockPool.set_running 0 pool) [].
Proof.
  intros H. unfold Stop, CompareAndSwapRunning. unfold_M. cbn.
  by rewrite decide_True.
Qed.

Lemma Stop_stopped pool :
  BlockPool.running pool ≠ 1 → Stop pool = Ok tt pool [].
Proof.
  intros H. unfold Stop, CompareAndSwapRunning. unfold_M. cbn.
  by rewrite decide_False.
Qed.

(** X8. [Start] starts an admission loop exactly when the pool was not
    running, and a second [Start] changes nothing and starts nothing.
    [Stop] never starts or sends anything, and a second [Stop] changes
    nothing.  [Stop] after [Start] on a pool that was not running gives the
    pool back.  Neither touches the request table or the registry. *)
Theorem Start_Stop_idempotent (pool : BlockPool.t) :
  ∃ started stopped effs,
    Start pool = Ok tt started effs ∧
    (GoRun ∈ effs ↔ BlockPool.running pool = 0) ∧
    Start started = Ok tt started [] ∧
    Stop pool = Ok tt stopped [] ∧
    Stop stopped = Ok tt stopped [] ∧
    (BlockPool.running pool = 0 → Stop started = Ok tt pool []) ∧
    BlockPool.requests started = BlockPool.requests pool ∧
    BlockPool.peers started = BlockPool.peers pool ∧
    BlockPool.requests stopped = BlockPool.requests pool ∧
    BlockPool.peers stopped = BlockPool.peers pool.
Proof.
  assert (Hstop : ∃ stopped,
            Stop pool = Ok tt stopped [] ∧ Stop stopped = Ok tt stopped [] ∧
            BlockPool.requests stopped = BlockPool.requests pool ∧
            BlockPool.peers stopped = BlockPool.peers pool).
  { destruct (decide (BlockPool.running pool = 1)) as [H1|H1].
    - eexists. split; [by apply Stop_running|].
      split; [by apply Stop_stopped|done].
    - eexists. split; [by apply Stop_stopped|].
      split; [by apply Stop_stopped|done]. }
  destruct Hstop as (stopped & Hs1 & Hs2 & Hs3 & Hs4).
  destruct (decide (BlockPool.running pool = 0)) as [H0|H0].
  - exists (BlockPool.set_running 1 pool), stopped, [GoRun].
    split; [by apply Start_stopped|].
    split; [split; [done|intros _; apply list_elem_of_here]|].
    split; [by apply Start_running|].
    split; [done|]. split; [done|].
    split; [|done].
    intros _. rewrite Stop_running by done.
    destruct pool. cbn in *. by subst.
  - exists pool, stopped, [].
    split; [by apply Start_running|].
    split; [split; [by intros ?%elem_of_nil|done]|].
    split; [by apply Start_running|].
    split; [done|]. split; [done|]. done.
Qed.

(** ** The peer registry *)

Lemma SetPeerHeight_total p h pool :
  SetPeerHeight p h pool =
    Ok tt
      (BlockPool.set_peers
         (<[p := match BlockPool.peers pool !! p with
                 | Some peer => bpPeer.set_height h peer
                 | None => bpPeer.mk p h 0
                 end]> (BlockPool.peers pool)) pool) [].
Proof.
  unfold SetPeerHeight. unfold_M. cbn.
  by destruct (BlockPool.peers pool !! p).
Qed.

(** X9. After [SetPeerHeight p h], [getPeer p] returns a record with
    height [h]: the record that was there, counter and id kept, or a new
    record for [p] with counter 0.  The other peers and the request table
    are as before.  Of two calls for the same peer the later height wins:
    the pool is the same as if only the second call had been made. *)
Theorem SetPeerHeight_upsert (pool : BlockPool.t) (p : string) (h h' : Z) :
  ∃ pool1 pool2,
    SetPeerHeight p h pool = Ok tt pool1 [] ∧
    getPeer p pool1 =
      Ok (Some match BlockPool.peers pool !! p with
               | Some peer =>
                   bpPeer.mk (bpPeer.id peer) h (bpPeer.numRequests peer)
               | None => bpPeer.mk p h 0
               end) pool1 [] ∧
    (∀ q, q ≠ p → getPeer q pool1 = Ok (BlockPool.peers pool !! q) pool1 []) ∧
    BlockPool.requests pool1 = BlockPool.requests pool ∧
    BlockPool.height pool1 = BlockPool.height pool ∧
    BlockPool.numPending pool1 = BlockPool.numPending pool ∧
    BlockPool.numTotal pool1 = BlockPool.numTotal pool ∧
    BlockPool.running pool1 = BlockPool.running pool ∧
    SetPeerHeight p h' pool1 = Ok tt pool2 [] ∧
    SetPeerHeight p h' pool = Ok tt pool2 [].
Proof.
  exists (BlockPool.set_peers
            (<[p := match BlockPool.peers pool !! p with
                    | Some peer => bpPeer.set_height h peer
                    | None => bpPeer.mk p h 0
                    end]> (BlockPool.peers pool)) pool),
         (BlockPool.set_peers
            (<[p := match BlockPool.peers pool !! p with
                    | Some peer => bpPeer.set_height h' peer
                    | None => bpPeer.mk p h' 0
                    end]> (BlockPool.peers pool)) pool).
  split; [apply SetPeerHeight_total|].
  split.
  { unfold getPeer. unfold_M. cbn. rewrite lookup_insert_eq.
    by destruct (BlockPool.peers pool !! p). }
  split.
  { intros q Hq. unfold getPeer. unfold_M. cbn.
    by rewrite lookup_insert_ne. }
  do 5 (split; [done|]).
  split; [|apply SetPeerHeight_total].
  rewrite SetPeerHeight_total. cbn.
  rewrite lookup_insert_eq. unfold BlockPool.set_peers. cbn.
  rewrite insert_insert_eq.
  by destruct (BlockPool.peers pool !! p).
Qed.

(** X10. After [RemovePeer p] the registry has no record for [p]:
    [getPeer p] returns nil, [decrPeer p] and a second [RemovePeer p]
    change nothing, and [pickIncrAvailablePeer] never returns a record
    stored under [p].  The other peers are as before.  Removing a peer that
    was not registered changes nothing, and removing a peer right after it
    was first registered gives the pool back. *)
Theorem RemovePeer_forgets (pool : BlockPool.t) (p : string) :
  ∃ pool1,
    RemovePeer p pool = Ok tt pool1 [] ∧
    getPeer p pool1 = Ok None pool1 [] ∧
    decrPeer p pool1 = Ok tt pool1 [] ∧
    RemovePeer p pool1 = Ok tt pool1 [] ∧
    (∀ q, q ≠ p →
          BlockPool.peers pool1 !! q = BlockPool.peers pool !! q) ∧
    (∀ order minHeight peer pool2 effs,
       pickIncrAvailablePeer order minHeight pool1 =
         Ok (Some peer) pool2 effs →
       ∃ key, key ≠ p ∧ BlockPool.peers pool2 !! key = Some peer) ∧
    (BlockPool.peers pool !! p = None → pool1 = pool) ∧
    (∀ h pool',
       BlockPool.peers pool !! p = None →
       SetPeerHeight p h pool = Ok tt pool' [] →
       RemovePeer p pool' = Ok tt pool []).
Proof.
  eexists. split; [reflexivity|]. split_and!.
  - unfold getPeer. unfold_M. cbn. by rewrite lookup_delete_eq.
  - unfold decrPeer. unfold_M. cbn. by rewrite lookup_delete_eq.
  - unfold RemovePeer. unfold_M. cbn. unfold BlockPool.set_peers. cbn.
    by rewrite delete_delete_eq.
  - intros q Hq. cbn. by rewrite lookup_delete_ne.
  - intros order minHeight peer pool2 effs Hpick.
    destruct (pickIncrAvailablePeer_scan order minHeight
                (BlockPool.set_peers (delete p (BlockPool.peers pool)) pool))
      as [(key & peer0 & _ & Hkey & _ & Heq)|[_ Heq]];
      rewrite Heq in Hpick; [|done].
    injection Hpick as <- <- <-. exists key. cbn in *.
    apply lookup_delete_Some in Hkey as [Hne _].
    split; [done|]. by rewrite lookup_insert_eq.
  - intros Hp. destruct pool. cbn in *. unfold BlockPool.set_peers. cbn.
    by rewrite delete_id.
  - intros h pool' Hp. rewrite SetPeerHeight_total, Hp.
    intros [= <-]. unfold RemovePeer. unfold_M. cbn.
    unfold BlockPool.set_peers. cbn.
    rewrite delete_insert_eq, delete_id by done. by destruct pool.
Qed.

Lemma wrap_int32_succ_pred z :
  wrap_int32 (wrap_int32 (z + 1) - 1) = wrap_int32 z.
Proof.
  unfold wrap_int32.
  replace ((z + 1 + 2 ^ 31) mod 2 ^ 32 - 2 ^ 31 - 1 + 2 ^ 31)
    with ((z + 1 + 2 ^ 31) mod 2 ^ 32 - 1) by lia.
  rewrite Zminus_mod_idemp_l. f_equal. f_equal. lia.
Qed.

(** X11. In a registry whose records sit under their own ids with counters
    in [int32], giving back the slot taken by [pickIncrAvailablePeer], by
    [decrPeer] on the id of the returned peer, restores the pool as it was
    before the pick. *)
Theorem pick_then_decrPeer_restores (pool : BlockPool.t)
    (order : list string) (minHeight : Z) (peer : bpPeer.t)
    (pool1 : BlockPool.t) :
  (∀ key r, BlockPool.peers pool !! key = Some r →
            bpPeer.id r = key ∧ is_int32 (bpPeer.numRequests r)) →
  pickIncrAvailablePeer order minHeight pool = Ok (Some peer) pool1 [] →
  decrPeer (bpPeer.id peer) pool1 = Ok tt pool [].
Proof.
  intros Hwf Hpick.
  destruct (pickIncrAvailablePeer_scan order minHeight pool)
    as [(key & peer0 & _ & Hkey & _ & Heq)|[_ Heq]];
    rewrite Heq in Hpick; [|done].
  injection Hpick as <- <-.
  destruct (Hwf _ _ Hkey) as [Hid Hrange]. cbn. rewrite Hid.
  unfold decrPeer. unfold_M. cbn. rewrite lookup_insert_eq. cbn.
  unfold BlockPool.set_peers. cbn. rewrite insert_insert_eq.
  rewrite wrap_int32_succ_pred, (wrap_int32_id _ Hrange).
  unfold bpPeer.set_numRequests. cbn.
  rewrite insert_id; [by destruct pool|].
  rewrite Hkey. by destruct peer0.
Qed.

Lemma pick_then_decrPeer_restores_witness :
  (∀ key r, BlockPool.peers sample_pool !! key = Some r →
            bpPeer.id r = key ∧ is_int32 (bpPeer.numRequests r)) ∧
  ∃ peer pool1,
    pickIncrAvailablePeer ["A"; "B"] 11 sample_pool = Ok (Some peer) pool1 [] ∧
    decrPeer (bpPeer.id peer) pool1 = Ok tt sample_pool [].
Proof.
  assert (Hwf : ∀ key r, BlockPool.peers sample_pool !! key = Some r →
            bpPeer.id r = key ∧ is_int32 (bpPeer.numRequests r)).
  { intros key r Hr. unfold sample_pool in Hr. cbn in Hr.
    apply lookup_insert_Some in Hr as [[<- <-]|[_ Hr]].
    { split; [reflexivity|]. split; discriminate. }
    apply lookup_singleton_Some in Hr as [<- <-].
    split; [reflexivity|]. split; discriminate. }
  split; [exact Hwf|].
  eexists _, _. split; [vm_compute; reflexivity|].
  eapply (pick_then_decrPeer_restores sample_pool ["A"; "B"] 11 _ _ Hwf).
  vm_compute. reflexivity.
Defined.

(** ** The request table *)

Lemma setPeerForRequest_cases h p pool :
  setPeerForRequest h p pool =
    Ok tt
      match BlockPool.requests pool !! h with
      | Some request =>
          BlockPool.set_requests
            (<[h := bpRequest.set_peerId p request]>
               (BlockPool.requests pool)) pool
      | None => pool
      end [].
Proof.
  unfold setPeerForRequest. unfold_M. cbn.
  by destruct (BlockPool.requests pool !! h).
Qed.

Lemma hasBlock_block_at h pool :
  hasBlock h pool = Ok (bool_decide (is_Some (block_at pool h))) pool [].
Proof.
  unfold hasBlock, block_at. unfold_M. unfold option_bind.
  destruct (BlockPool.requests pool !! h) as [[rh rp [b|]]|]; cbn;
    f_equal.
Qed.

(** X12. [setPeerForRequest] for a height without request changes nothing.
    For a height with a request it replaces the assigned peer and nothing
    else: block, counters, base height and registry stay.  From then on a
    block of that height is discarded when it comes from any other peer or
    when the request already holds a block; from the assigned peer, for a
    request without block, it is stored and [hasBlock] becomes true. *)
Theorem setPeerForRequest_then_AddBlock (pool : BlockPool.t) (p : string)
    (block : Block.t) :
  (BlockPool.requests pool !! Block.Height block = None →
   setPeerForRequest (Block.Height block) p pool = Ok tt pool []) ∧
  (∀ request,
     BlockPool.requests pool !! Block.Height block = Some request →
     ∃ pool1,
       setPeerForRequest (Block.Height block) p pool = Ok tt pool1 [] ∧
       BlockPool.requests pool1 =
         <[Block.Height block :=
             bpRequest.mk (bpRequest.height request) p
               (bpRequest.block request)]> (BlockPool.requests pool) ∧
       BlockPool.numPending pool1 = BlockPool.numPending pool ∧
       BlockPool.numTotal pool1 = BlockPool.numTotal pool ∧
       BlockPool.height pool1 = BlockPool.height pool ∧
       BlockPool.peers pool1 = BlockPool.peers pool ∧
       (∀ q, q ≠ p → AddBlock block q pool1 = Ok tt pool1 []) ∧
       (bpRequest.block request ≠ None →
        AddBlock block p pool1 = Ok tt pool1 []) ∧
       (bpRequest.block request = None →
        ∃ pool2,
          AddBlock block p pool1 = Ok tt pool2 [] ∧
          block_at pool2 (Block.Height block) = Some block ∧
          hasBlock (Block.Height block) pool2 = Ok true pool2 [])).
Proof.
  split.
  - intros Hr. by rewrite setPeerForRequest_cases, Hr.
  - intros request Hr. rewrite setPeerForRequest_cases, Hr.
    eexists. split; [reflexivity|]. cbn.
    do 5 (split; [done|]).
    split_and!.
    + intros q Hq. apply AddBlock_discarded.
      intros (r & Hr' & Hp & _). cbn in Hr'.
      rewrite lookup_insert_eq in Hr'. injection Hr' as <-. cbn in Hp.
      congruence.
    + intros Hb. apply AddBlock_discarded.
      intros (r & Hr' & _ & Hb'). cbn in Hr'.
      rewrite lookup_insert_eq in Hr'. injection Hr' as <-. done.
    + intros Hb. eexists. split.
      { eapply AddBlock_accepted; cbn;
          [apply lookup_insert_eq|done|done]. }
      split.
      * unfold block_at. cbn. by rewrite lookup_insert_eq.
      * rewrite hasBlock_block_at. unfold block_at. cbn.
        by rewrite lookup_insert_eq.
Qed.

Lemma wrap_uint_succ_ne z : is_uint z → wrap_uint (z + 1) ≠ z.
Proof.
  intros Hz Heq. rewrite <- (wrap_uint_id z) in Heq at 2 by done.
  apply wrap_uint_inj in Heq; unfold is_uint, uint_modulus in *; lia.
Qed.

(** X13. When the request at the base height is filled, [PeekTwoBlocks]
    shows its block first; [PopRequest] then succeeds, removes that
    request, and the next [PeekTwoBlocks] shows as its first result what was
    the second result before. *)
Theorem PopRequest_shifts_peek (pool : BlockPool.t) :
  is_uint (BlockPool.height pool) →
  filled pool (BlockPool.height pool) →
  ∃ pool1 first second third,
    PeekTwoBlocks pool = Ok (Some first, second) pool [] ∧
    PopRequest pool = Ok tt pool1 [] ∧
    PeekTwoBlocks pool1 = Ok (second, third) pool1 [] ∧
    BlockPool.requests pool1 !! BlockPool.height pool = None.
Proof.
  intros Hu (request & b & Hr & Hb).
  unfold PopRequest, PeekTwoBlocks. unfold_M. cbn. rewrite Hr.
  destruct request as [rh rp rb]. cbn in Hb. subst rb. cbn.
  eexists _, _, _, _. split; [reflexivity|]. split; [reflexivity|].
  cbn. rewrite lookup_delete_eq.
  rewrite lookup_delete_ne by (symmetry; by apply wrap_uint_succ_ne).
  done.
Qed.

Lemma PopRequest_shifts_peek_witness :
  let pool :=
    BlockPool.set_height 8 (BlockPool.set_numTotal 1 sample_pool) in
  is_uint (BlockPool.height pool) ∧
  filled pool (BlockPool.height pool) ∧
  ∃ pool1,
    PeekTwoBlocks pool = Ok (Some (Block.mk 8 "b8"), None) pool [] ∧
    PopRequest pool = Ok tt pool1 [] ∧
    PeekTwoBlocks pool1 = Ok (None, None) pool1 [].
Proof.
  cbn zeta.
  assert (Hu : is_uint (BlockPool.height
            (BlockPool.set_height 8 (BlockPool.set_numTotal 1 sample_pool))))
    by (cbn; unfold is_uint, uint_modulus; lia).
  assert (Hf : filled
            (BlockPool.set_height 8 (BlockPool.set_numTotal 1 sample_pool))
            (BlockPool.height
               (BlockPool.set_height 8 (BlockPool.set_numTotal 1 sample_pool))))
    by (eexists _, _; split; [vm_compute; reflexivity|reflexivity]).
  split; [exact Hu|]. split; [exact Hf|].
  destruct (PopRequest_shifts_peek _ Hu Hf)
    as (pool1 & first & second & third & Hp1 & Hpop & Hp2 & _).
  exists pool1. split; [vm_compute; reflexivity|]. split; [exact Hpop|].
  assert (Hpop' := Hpop). vm_compute in Hpop'. injection Hpop' as <-.
  vm_compute. reflexivity.
Defined.

(** X14. The request that [makeRequest] stores holds no block and has the
    empty string as its peer.  Until a goroutine assigns a peer, a block of
    that height is discarded when delivered under any non-empty peer id,
    and stored when delivered under the empty peer id. *)
Theorem fresh_request_accepts_only_empty_peer (pool : BlockPool.t)
    (block : Block.t) (p : string) :
  ∃ pool1,
    makeRequest (Block.Height block) pool =
      Ok tt pool1 [GoRequestRoutine (Block.Height block)] ∧
    block_at pool1 (Block.Height block) = None ∧
    (p ≠ "" → AddBlock block p pool1 = Ok tt pool1 []) ∧
    (p = "" →
     ∃ pool2,
       AddBlock block p pool1 = Ok tt pool2 [] ∧
       block_at pool2 (Block.Height block) = Some block).
Proof.
  rewrite makeRequest_total. eexists. split; [reflexivity|].
  assert (Hreq : ∀ pool',
    BlockPool.requests pool' =
      <[Block.Height block := bpRequest.mk (Block.Height block) "" None]>
        (BlockPool.requests pool) →
    block_at pool' (Block.Height block) = None ∧
    (p ≠ "" → AddBlock block p pool' = Ok tt pool' []) ∧
    (p = "" →
     ∃ pool2,
       AddBlock block p pool' = Ok tt pool2 [] ∧
       block_at pool2 (Block.Height block) = Some block)).
  { intros pool' Hr. split_and!.
    - unfold block_at. by rewrite Hr, lookup_insert_eq.
    - intros Hp. apply AddBlock_discarded. intros (r & Hr' & Hp' & _).
      rewrite Hr, lookup_insert_eq in Hr'. injection Hr' as <-.
      cbn in Hp'. congruence.
    - intros ->. eexists. split.
      + eapply AddBlock_accepted; [by rewrite Hr, lookup_insert_eq|done..].
      + unfold block_at. cbn. by rewrite lookup_insert_eq. }
  apply Hreq. cbn. by destruct (decide _).
Qed.

(** X15. After [RedoRequest h] on a filled request, [hasBlock h] is false
    and every block of height [h] delivered under a non-empty peer id, the
    removed peer's included, is discarded until a goroutine assigns a new
    peer.  If [h] is the base height, [PeekTwoBlocks] shows no first block
    and [PopRequest] panics. *)
Theorem RedoRequest_discards_late_delivery (pool : BlockPool.t) (h : Z) :
  filled pool h →
  ∃ pool1,
    RedoRequest h pool = Ok tt pool1 [GoRequestRoutine h] ∧
    hasBlock h pool1 = Ok false pool1 [] ∧
    (∀ block p,
       Block.Height block = h → p ≠ "" →
       AddBlock block p pool1 = Ok tt pool1 []) ∧
    (BlockPool.height pool = h →
     (∃ second, PeekTwoBlocks pool1 = Ok (None, second) pool1 []) ∧
     PopRequest pool1 =
       Panic "PopRequest() requires a valid block" pool1 []).
Proof.
  intros (request & b & Hr & Hb).
  rewrite (RedoRequest_filled _ _ request b) by done.
  eexists. split; [reflexivity|]. split_and!.
  - rewrite hasBlock_block_at. unfold block_at. cbn.
    by rewrite lookup_insert_eq.
  - intros block p Hh Hp. apply AddBlock_discarded.
    intros (r & Hr' & Hp' & _). cbn in Hr'.
    rewrite Hh, lookup_insert_eq in Hr'. injection Hr' as <-.
    cbn in Hp'. congruence.
  - intros <-. unfold PeekTwoBlocks, PopRequest. unfold_M. cbn.
    rewrite lookup_insert_eq. cbn. split; [by eexists|done].
Qed.

Lemma RedoRequest_discards_late_delivery_witness :
  filled sample_pool 8 ∧
  ∃ pool1,
    RedoRequest 8 sample_pool = Ok tt pool1 [GoRequestRoutine 8] ∧
    AddBlock (Block.mk 8 "again") "B" pool1 = Ok tt pool1 [].
Proof.
  assert (Hf : filled sample_pool 8)
    by (eexists _, _; split; [vm_compute; reflexivity|reflexivity]).
  split; [exact Hf|].
  destruct (RedoRequest_discards_late_delivery sample_pool 8 Hf)
    as (pool1 & Hredo & _ & Hadd & _).
  exists pool1. split; [exact Hredo|]. by apply Hadd.
Defined.

(** Deliveries for two different heights can be handled in either order. *)
Lemma AddBlock_total block p pool :
  ∃ pool', AddBlock block p pool = Ok tt pool' [].
Proof.
  destruct (accepts_dec_cases pool block p) as [(r & Hr & Hp & Hb)|Hn].
  - eexists. by apply (AddBlock_accepted _ _ _ r).
  - eexists. by apply AddBlock_discarded.
Qed.

Lemma accepts_after_other pool b1 p1 b2 p2 pool1 :
  Block.Height b1 ≠ Block.Height b2 →
  AddBlock b1 p1 pool = Ok tt pool1 [] →
  accepts pool1 b2 p2 ↔ accepts pool b2 p2.
Proof.
  intros Hne Hadd.
  destruct (accepts_dec_cases pool b1 p1) as [(r & Hr & Hp & Hb)|Hn].
  - rewrite (AddBlock_accepted _ _ _ r) in Hadd by done.
    injection Hadd as <-. unfold accepts. cbn.
    by rewrite lookup_insert_ne.
  - rewrite AddBlock_discarded in Hadd by done. by injection Hadd as <-.
Qed.

(** X16. Two deliveries for different heights commute: [AddBlock] for the
    one and then for the other leaves the same pool as the two calls in
    the opposite order. *)
Theorem AddBlock_commute (pool : BlockPool.t) (b1 b2 : Block.t)
    (p1 p2 : string) :
  Block.Height b1 ≠ Block.Height b2 →
  (AddBlock b1 p1;; AddBlock b2 p2) pool =
  (AddBlock b2 p2;; AddBlock b1 p1) pool.
Proof.
  intros Hne.
  assert (Hne' : Block.Height b2 ≠ Block.Height b1) by congruence.
  destruct (AddBlock_total b1 p1 pool) as [pool1 H1].
  destruct (AddBlock_total b2 p2 pool) as [pool2 H2].
  pose proof (accepts_after_other pool b1 p1 b2 p2 pool1 Hne H1) as Ha2.
  pose proof (accepts_after_other pool b2 p2 b1 p1 pool2 Hne' H2) as Ha1.
  unfold_M. rewrite H1, H2.
  destruct (accepts_dec_cases pool b1 p1) as [(r1 & Hr1 & Hp1 & Hb1)|Hn1];
    destruct (accepts_dec_cases pool b2 p2) as [(r2 & Hr2 & Hp2 & Hb2)|Hn2].
  - rewrite (AddBlock_accepted _ _ _ r1) in H1 by done.
    rewrite (AddBlock_accepted _ _ _ r2) in H2 by done.
    injection H1 as <-. injection H2 as <-.
    rewrite (AddBlock_accepted _ _ _ r2);
      [|cbn; by rewrite lookup_insert_ne|done|done].
    rewrite (AddBlock_accepted _ _ _ r1);
      [|cbn; by rewrite lookup_insert_ne|done|done].
    cbn. unfold BlockPool.set_numPending, BlockPool.set_requests. cbn.
    rewrite (insert_insert_ne _ (Block.Height b1) (Block.Height b2))
      by done.
    reflexivity.
  - rewrite (AddBlock_accepted _ _ _ r1) in H1 by done.
    rewrite AddBlock_discarded in H2 by done.
    injection H1 as <-. injection H2 as <-.
    rewrite AddBlock_discarded by (by rewrite Ha2).
    by rewrite (AddBlock_accepted _ _ _ r1).
  - rewrite AddBlock_discarded in H1 by done.
    rewrite (AddBlock_accepted _ _ _ r2) in H2 by done.
    injection H1 as <-. injection H2 as <-.
    rewrite (AddBlock_accepted _ _ _ r2) by done.
    by rewrite AddBlock_discarded by (by rewrite Ha1).
  - rewrite AddBlock_discarded in H1 by done.
    rewrite AddBlock_discarded in H2 by done.
    injection H1 as <-. injection H2 as <-.
    by rewrite !AddBlock_discarded.
Qed.

Lemma AddBlock_commute_witness :
  Block.Height (Block.mk 7 "b7") ≠ Block.Height (Block.mk 8 "b8'") ∧
  (AddBlock (Block.mk 7 "b7") "A";; AddBlock (Block.mk 8 "b8'") "B")
    sample_pool =
  (AddBlock (Block.mk 8 "b8'") "B";; AddBlock (Block.mk 7 "b7") "A")
    sample_pool.
Proof.
  assert (Hne : Block.Height (Block.mk 7 "b7")
                ≠ Block.Height (Block.mk 8 "b8'")) by (cbn; lia).
  split; [exact Hne|].
  exact (AddBlock_commute sample_pool _ _ "A" "B" Hne).
Defined.

(** ** Every step of the system, method by method *)

Lemma step_inv a w w' :
  step a w = Some w' →
  well_typed a ∧
  match a with
  | CallStart => call Start w = Some w'
  | CallStop => call Stop w = Some w'
  | CallSetPeerHeight p h => call (SetPeerHeight p h) w = Some w'
  | CallRemovePeer p => call (RemovePeer p) w = Some w'
  | CallAddBlock b p => call (AddBlock b p) w = Some w'
  | CallGetStatus => call GetStatus w = Some w'
  | CallPeekTwoBlocks => call PeekTwoBlocks w = Some w'
  | CallPopRequest => call PopRequest w = Some w'
  | CallRedoRequest h => call (RedoRequest h) w = Some w'
  | StepRun i =>
      ∃ pc pc' pool' effs,
        runners w !! i = Some pc ∧
        run_step pc (pool w) = Ok pc' pool' effs ∧
        w' = foldl perform
               (set_runners (<[i:=pc']> (runners w)) (set_pool pool' w)) effs
  | StepRoutine i order =>
      ∃ h pc pc' pool' effs,
        routines w !! i = Some (h, pc) ∧
        requestRoutine_step order h pc (pool w) = Ok pc' pool' effs ∧
        w' = foldl perform
               (set_routines (<[i:=(h, pc')]> (routines w))
                  (set_pool pool' w)) effs
  end.
Proof.
  unfold step. destruct (decide (well_typed a)) as [Hwt|]; [|done].
  intros Hstep. split; [done|]. destruct a as [| | | | | | | | |i|i order];
    try done.
  - destruct (runners w !! i) as [pc|] eqn:Hi; [|done].
    destruct pc; try done;
      (destruct (run_step _ (pool w)) as [pc' pool' effs|] eqn:Hrun;
       [|done]);
      injection Hstep as <-; by eexists _, _, _, _.
  - destruct (routines w !! i) as [[h pc]|] eqn:Hi; [|done].
    destruct pc; try done;
      (destruct (decide _) in Hstep; [done|]);
      (destruct (requestRoutine_step _ _ _ _) as [pc' pool' effs|] eqn:Hrs
         in Hstep; [|done]);
      injection Hstep as <-; by eexists _, _, _, _, _.
Qed.

Lemma silent_nil : silent [].
Proof. constructor. Qed.

Lemma silent_spawn h : silent [GoRequestRoutine h].
Proof. by repeat constructor. Qed.

Lemma perform_channels w effs :
  silent effs →
  requestsCh (foldl perform w effs) = requestsCh w ∧
  timeoutsCh (foldl perform w effs) = timeoutsCh w.
Proof.
  revert w. induction effs as [|e effs IH]; intros w Hs; [done|].
  apply Forall_cons in Hs as [[He1 He2] Hs]. cbn.
  destruct (IH (perform w e) Hs) as [-> ->]. by destruct e.
Qed.

(** The facts, for an action that only touches fields the facts do not
    read. *)
Lemma action_facts_same pool pool' effs start :
  BlockPool.requests pool' = BlockPool.requests pool →
  BlockPool.peers pool' = BlockPool.peers pool →
  BlockPool.height pool' = BlockPool.height pool →
  (start = false → BlockPool.running pool = 0 →
   BlockPool.running pool' = 0) →
  silent effs →
  action_facts false start pool pool' effs.
Proof.
  intros Hr Hp Hh Hrun Hs. unfold action_facts, keyed.
  rewrite Hr, Hp, Hh. split_and!; try done.
  intros ? ?. split; [by apply Hrun|done].
Qed.

Lemma keyed_insert_request pool pool' k r' :
  keyed pool →
  BlockPool.requests pool' = <[k := r']> (BlockPool.requests pool) →
  BlockPool.peers pool' = BlockPool.peers pool →
  bpRequest.height r' = k →
  (∀ b, bpRequest.block r' = Some b → Block.Height b = k) →
  keyed pool'.
Proof.
  intros [Hreq Hpeers] Hr Hp Hh Hb. split; rewrite ?Hr, ?Hp; [|done].
  intros k' request. destruct (decide (k = k')) as [<-|Hne].
  - rewrite lookup_insert_eq. by intros [= <-].
  - rewrite lookup_insert_ne by done. apply Hreq.
Qed.

Lemma keyed_peers pool pool' :
  keyed pool →
  BlockPool.requests pool' = BlockPool.requests pool →
  (∀ p peer, BlockPool.peers pool' !! p = Some peer →
             bpPeer.id peer = p) →
  keyed pool'.
Proof. intros [Hreq Hpeers] Hr Hp. split; rewrite ?Hr; done. Qed.

Lemma Start_facts pool a pool' effs :
  Start pool = Ok a pool' effs → action_facts false true pool pool' effs.
Proof.
  destruct (decide (BlockPool.running pool = 0)) as [H0|H0].
  - rewrite Start_stopped by done. intros [= <- <- <-].
    unfold action_facts, keyed. cbn. split_and!; done.
  - rewrite Start_running by done. intros [= <- <- <-].
    unfold action_facts, keyed. cbn. split_and!; done.
Qed.

Lemma Stop_facts pool a pool' effs :
  Stop pool = Ok a pool' effs → action_facts false false pool pool' effs.
Proof.
  destruct (decide (BlockPool.running pool = 1)) as [H1|H1].
  - rewrite Stop_running by done. intros [= <- <- <-].
    apply action_facts_same; try done. apply silent_nil.
  - rewrite Stop_stopped by done. intros [= <- <- <-].
    apply action_facts_same; try done. apply silent_nil.
Qed.

Lemma SetPeerHeight_facts p h pool a pool' effs :
  SetPeerHeight p h pool = Ok a pool' effs →
  action_facts false false pool pool' effs.
Proof.
  rewrite SetPeerHeight_total. intros [= <- <- <-].
  unfold action_facts. cbn. split_and!; try done.
  - intros Hk. eapply keyed_peers; [done|done|]. cbn.
    intros q peer. destruct (decide (p = q)) as [<-|Hne].
    + rewrite lookup_insert_eq. intros [= <-].
      destruct (BlockPool.peers pool !! p) as [peer0|] eqn:Hp; [|done].
      cbn. by apply Hk.
    + rewrite lookup_insert_ne by done. apply Hk.
  - intros _ H0. split; [done|apply silent_nil].
Qed.

Lemma RemovePeer_facts p pool a pool' effs :
  RemovePeer p pool = Ok a pool' effs →
  action_facts false false pool pool' effs.
Proof.
  unfold RemovePeer. unfold_M. intros [= <- <- <-].
  unfold action_facts. cbn. split_and!; try done.
  - intros Hk. eapply keyed_peers; [done|done|]. cbn.
    intros q peer [_ Hq]%lookup_delete_Some. by apply Hk.
  - intros _ H0. split; [done|apply silent_nil].
Qed.

Lemma AddBlock_facts b p pool a pool' effs :
  AddBlock b p pool = Ok a pool' effs →
  action_facts false false pool pool' effs.
Proof.
  destruct (accepts_dec_cases pool b p) as [(r & Hr & Hp & Hb)|Hn].
  - rewrite (AddBlock_accepted _ _ _ r) by done. intros [= <- <- <-].
    unfold action_facts. cbn. split_and!; try done.
    + intros Hk. eapply keyed_insert_request; [done|done|done|..]; cbn.
      * by apply (proj1 Hk).
      * by intros b' [= <-].
    + intros _ H0. split; [done|apply silent_nil].
  - rewrite AddBlock_discarded by done. intros [= <- <- <-].
    apply action_facts_same; try done. apply silent_nil.
Qed.

Lemma PopRequest_facts pool a pool' effs :
  PopRequest pool = Ok a pool' effs →
  action_facts true false pool pool' effs.
Proof.
  intros (_ & -> & ->)%PopRequest_Ok. unfold action_facts. cbn.
  split_and!; try done.
  - intros [Hreq Hpeers]. split; cbn; [|done].
    intros k r [_ Hk]%lookup_delete_Some. by apply Hreq.
  - intros _ H0. split; [done|apply silent_nil].
Qed.

Lemma RedoRequest_facts h pool a pool' effs :
  RedoRequest h pool = Ok a pool' effs →
  action_facts false false pool pool' effs.
Proof.
  destruct (decide (filled pool h)) as [(r & b & Hr & Hb)|Hn].
  - rewrite (RedoRequest_filled _ _ r b) by done. intros [= <- <- <-].
    unfold action_facts. cbn. split_and!; try done.
    + intros [Hreq Hpeers]. split; cbn.
      * intros k request. destruct (decide (h = k)) as [<-|Hne].
        -- rewrite lookup_insert_eq. intros [= <-]. cbn.
           split; [by apply (Hreq _ _ Hr)|done].
        -- rewrite lookup_insert_ne by done. apply Hreq.
      * intros q peer [_ Hq]%lookup_delete_Some. by apply Hpeers.
    + intros _ H0. split; [done|apply silent_spawn].
  - destruct (RedoRequest_unfilled _ _ Hn) as [msg ->]. done.
Qed.

Lemma makeRequest_facts h pool a pool' effs :
  makeRequest h pool = Ok a pool' effs →
  action_facts false false pool pool' effs.
Proof.
  rewrite makeRequest_total. intros [= <- <- <-].
  unfold action_facts. split_and!.
  - intros Hk.
    eapply (keyed_insert_request pool _ h (bpRequest.mk h "" None));
      [done|..]; try done; by destruct (decide _).
  - by destruct (decide _).
  - intros _ H0. split; [by destruct (decide _)|apply silent_spawn].
Qed.

Lemma run_step_facts pc pool pc' pool' effs :
  run_step pc pool = Ok pc' pool' effs →
  action_facts false false pool pool' effs.
Proof.
  intros Hrun%run_step_inv.
  destruct pc as [| | |h|].
  - destruct Hrun as (-> & -> & _). apply action_facts_same; try done.
    apply silent_nil.
  - destruct Hrun as (-> & -> & _). apply action_facts_same; try done.
    apply silent_nil.
  - destruct Hrun as (-> & -> & _). apply action_facts_same; try done.
    apply silent_nil.
  - destruct Hrun as (_ & Hmake). by eapply makeRequest_facts.
  - destruct Hrun as (_ & -> & ->). apply action_facts_same; try done.
    apply silent_nil.
Qed.

Lemma requestRoutine_step_facts order h pc pool pc' pool' effs :
  requestRoutine_step order h pc pool = Ok pc' pool' effs →
  action_facts false false pool pool' effs.
Proof.
  intros Hstep. pose proof Hstep as Hinv.
  apply requestRoutine_step_inv in Hinv.
  destruct pc as [| |p|p try|p try|p try|p|p|].
  - destruct Hinv as (-> & -> & _). apply action_facts_same; try done.
    apply silent_nil.
  - destruct (pickIncrAvailablePeer_scan order h pool)
      as [(key & peer & _ & Hkey & _ & Hpick)|[_ Hpick]];
      rewrite Hpick in Hinv;
      destruct Hinv as [(Heq & _ & ->)|(peer0 & Heq & _ & ->)]; try done.
    + injection Heq as <- <-. unfold action_facts. cbn.
      split_and!; try done.
      * intros Hk. eapply keyed_peers; [done|done|]. cbn.
        intros q peer'. destruct (decide (key = q)) as [<-|Hne].
        -- rewrite lookup_insert_eq. intros [= <-]. cbn.
           by apply (proj2 Hk).
        -- rewrite lookup_insert_ne by done. apply Hk.
      * intros _ H0. split; [done|apply silent_nil].
    + injection Heq as <-. apply action_facts_same; try done.
      apply silent_nil.
  - destruct Hinv as (_ & ->). cbn in Hstep. unfold_M.
    rewrite setPeerForRequest_cases in Hstep.
    injection Hstep as <- <-.
    destruct (BlockPool.requests pool !! h) as [r|] eqn:Hr.
    + unfold action_facts. cbn. split_and!; try done.
      * intros Hk. eapply keyed_insert_request; [done|done|done|..]; cbn.
        -- by apply (proj1 Hk _ _ Hr).
        -- by apply (proj1 Hk _ _ Hr).
      * intros _ H0. split; [done|apply silent_nil].
    + apply action_facts_same; try done. apply silent_nil.
  - destruct Hinv as [(_ & _ & -> & ->)|(_ & _ & -> & ->)].
    + unfold action_facts. split_and!; try done.
      intros _ H0. split; [done|]. rewrite decide_True by done.
      apply silent_nil.
    + unfold action_facts. cbn. split_and!; try done.
      * intros Hk. eapply keyed_peers; [done|done|]. cbn.
        intros q peer [_ Hq]%lookup_delete_Some. by apply Hk.
      * intros _ H0. split; [done|apply silent_nil].
  - destruct Hinv as (-> & -> & _). apply action_facts_same; try done.
    apply silent_nil.
  - destruct Hinv as (-> & -> & _). apply action_facts_same; try done.
    apply silent_nil.
  - destruct Hinv as (_ & -> & Hdecr).
    unfold decrPeer in Hdecr. unfold_M. cbn in Hdecr.
    destruct (BlockPool.peers pool !! p) as [peer|] eqn:Hp; cbn in Hdecr;
      injection Hdecr as <-.
    + unfold action_facts. cbn. split_and!; try done.
      * intros Hk. eapply keyed_peers; [done|done|]. cbn.
        intros q peer'. destruct (decide (p = q)) as [<-|Hne].
        -- rewrite lookup_insert_eq. intros [= <-]. cbn.
           by apply (proj2 Hk).
        -- rewrite lookup_insert_ne by done. apply Hk.
      * intros _ H0. split; [done|apply silent_nil].
    + apply action_facts_same; try done. apply silent_nil.
  - destruct Hinv as (_ & -> & ->).
    unfold action_facts. split_and!; try done.
    intros _ H0. split; [done|]. rewrite decide_True by done.
    apply silent_nil.
  - destruct Hinv as (_ & -> & ->). apply action_facts_same; try done.
    apply silent_nil.
Qed.

Lemma call_facts {A} (m : M A) w w' pop start :
  call m w = Some w' →
  (∀ a pool' effs,
     m (pool w) = Ok a pool' effs →
     action_facts pop start (pool w) pool' effs) →
  action_facts pop start (pool w) (pool w') [] ∧
  (start = false → BlockPool.running (pool w) = 0 →
   requestsCh w' = requestsCh w ∧ timeoutsCh w' = timeoutsCh w).
Proof.
  intros (a & pool' & effs & Hm & ->)%call_Some Hfacts.
  destruct (Hfacts _ _ _ Hm) as (Hk & Hh & Hs).
  rewrite perform_pool. cbn. split.
  - split_and!; try done. intros Hst H0.
    split; [by apply Hs|apply silent_nil].
  - intros Hst H0. destruct (Hs Hst H0) as [_ Hsil].
    by destruct (perform_channels (set_pool pool' w) effs Hsil) as [-> ->].
Qed.

Lemma step_facts a w w' :
  step a w = Some w' →
  action_facts (is_pop a) (is_start a) (pool w) (pool w') [] ∧
  (is_start a = false → BlockPool.running (pool w) = 0 →
   requestsCh w' = requestsCh w ∧ timeoutsCh w' = timeoutsCh w).
Proof.
  intros [_ Hstep]%step_inv.
  destruct a as [| |p h|p|b p| | | |h|i|i order]; cbn [is_pop is_start].
  - eapply call_facts; [done|]. intros a pool' effs. apply Start_facts.
  - eapply call_facts; [done|]. intros a pool' effs. apply Stop_facts.
  - eapply call_facts; [done|]. intros a pool' effs.
    apply SetPeerHeight_facts.
  - eapply call_facts; [done|]. intros a pool' effs. apply RemovePeer_facts.
  - eapply call_facts; [done|]. intros a pool' effs. apply AddBlock_facts.
  - eapply call_facts; [done|]. intros a pool' effs.
    unfold GetStatus. unfold_M. intros [= <- <- <-].
    apply action_facts_same; try done. apply silent_nil.
  - eapply call_facts; [done|]. intros a pool' effs.
    unfold PeekTwoBlocks. unfold_M. intros [= <- <- <-].
    apply action_facts_same; try done. apply silent_nil.
  - eapply call_facts; [done|]. intros a pool' effs. apply PopRequest_facts.
  - eapply call_facts; [done|]. intros a pool' effs. apply RedoRequest_facts.
  - destruct Hstep as (pc & pc' & pool' & effs & _ & Hrun & ->).
    apply run_step_facts in Hrun as (Hk & Hh & Hs).
    rewrite perform_pool. cbn. split.
    + split_and!; try done. intros Hst H0.
      split; [by apply Hs|apply silent_nil].
    + intros Hst H0. destruct (Hs Hst H0) as [_ Hsil].
      by destruct (perform_channels
                     (set_runners (<[i:=pc']> (runners w)) (set_pool pool' w))
                     effs Hsil) as [-> ->].
  - destruct Hstep as (h & pc & pc' & pool' & effs & _ & Hrs & ->).
    apply requestRoutine_step_facts in Hrs as (Hk & Hh & Hs).
    rewrite perform_pool. cbn. split.
    + split_and!; try done. intros Hst H0.
      split; [by apply Hs|apply silent_nil].
    + intros Hst H0. destruct (Hs Hst H0) as [_ Hsil].
      by destruct (perform_channels
                     (set_routines (<[i:=(h, pc')]> (routines w))
                        (set_pool pool' w))
                     effs Hsil) as [-> ->].
Qed.

(** ** Reachable states: keys, the base height, silence after Stop *)

Lemma exec_keyed trace w w' :
  exec trace w = Some w' → keyed (pool w) → keyed (pool w').
Proof.
  revert w. induction trace as [|a trace IH]; intros w Hexec Hk.
  - by injection Hexec as <-.
  - cbn in Hexec. destruct (step a w) as [w1|] eqn:Hstep; [|done].
    apply (IH _ Hexec). by apply (step_facts _ _ _ Hstep).
Qed.

(** X3. In every state the system reaches from a fresh pool, every request
    is stored under its own height, a block held by the request at [k]
    has [Height = k], and every peer is stored under its own id.  So the
    first block [PeekTwoBlocks] returns, if any, has the base height and
    the second, if any, has the base height plus one. *)
Theorem blocks_sit_at_their_height (start : Z) (trace : list action)
    (w : World) :
  exec trace (NewWorld start) = Some w →
  (∀ k request,
     BlockPool.requests (pool w) !! k = Some request →
     bpRequest.height request = k ∧
     ∀ b, bpRequest.block request = Some b → Block.Height b = k) ∧
  (∀ p peer,
     BlockPool.peers (pool w) !! p = Some peer → bpPeer.id peer = p) ∧
  (∀ first second pool',
     PeekTwoBlocks (pool w) = Ok (first, second) pool' [] →
     (∀ b, first = Some b → Block.Height b = BlockPool.height (pool w)) ∧
     (∀ b, second = Some b →
           Block.Height b = wrap_uint (BlockPool.height (pool w) + 1))).
Proof.
  intros Hexec.
  assert (Hk : keyed (pool w)).
  { apply (exec_keyed _ _ _ Hexec). split; cbn; intros ? ?;
      by rewrite lookup_empty. }
  destruct Hk as [Hreq Hpeers]. split; [done|]. split; [done|].
  intros first second pool'. unfold PeekTwoBlocks. unfold_M. cbn.
  intros [= <- <- _]. split; intros b Hb.
  - destruct (BlockPool.requests (pool w) !! BlockPool.height (pool w))
      as [r|] eqn:Hr; [|done].
    by apply (Hreq _ _ Hr).
  - destruct (BlockPool.requests (pool w)
                !! wrap_uint (BlockPool.height (pool w) + 1))
      as [r|] eqn:Hr; [|done].
    by apply (Hreq _ _ Hr).
Qed.

Lemma blocks_sit_at_their_height_witness :
  ∃ w,
    exec second_block_first (NewWorld 0) = Some w ∧
    ∀ first second pool',
      PeekTwoBlocks (pool w) = Ok (first, second) pool' [] →
      ∀ b, second = Some b →
           Block.Height b = wrap_uint (BlockPool.height (pool w) + 1).
Proof.
  destruct (after_reachable second_block_first 0 (λ _, True))
    as (w & Hexec & _); [by vm_compute|].
  exists w. split; [exact Hexec|].
  intros first second pool' Hpeek.
  exact (proj2 (proj2 (proj2 (blocks_sit_at_their_height 0 _ w Hexec))
                  first second pool' Hpeek)).
Defined.

Lemma pops_cons a trace :
  pops (a :: trace) = (if is_pop a then 1 else 0) + pops trace.
Proof. unfold pops. cbn. destruct (is_pop a); cbn; lia. Qed.

Lemma exec_height trace w w' :
  exec trace w = Some w' →
  wrap_uint (BlockPool.height (pool w')) =
    wrap_uint (BlockPool.height (pool w) + pops trace) ∧
  (trace ≠ [] → is_uint (BlockPool.height (pool w)) →
   is_uint (BlockPool.height (pool w'))).
Proof.
  revert w. induction trace as [|a trace IH]; intros w Hexec.
  - injection Hexec as <-. split; [|done]. f_equal. unfold pops. cbn. lia.
  - cbn in Hexec. destruct (step a w) as [w1|] eqn:Hstep; [|done].
    destruct (step_facts _ _ _ Hstep) as [(_ & Hh & _) _].
    destruct (IH _ Hexec) as [IH1 IH2].
    assert (Hu1 : is_uint (BlockPool.height (pool w)) →
                  is_uint (BlockPool.height (pool w1))).
    { rewrite Hh. destruct (is_pop a); [|done].
      intros _. apply wrap_uint_is_uint. }
    split.
    + rewrite IH1, Hh, pops_cons. destruct (is_pop a).
      * rewrite wrap_uint_add_l. f_equal; lia.
      * f_equal; lia.
    + intros _ Hu. destruct trace as [|a' trace'].
      * injection Hexec as <-. by apply Hu1.
      * apply IH2; [done|by apply Hu1].
Qed.

(** X2. The base height only moves by [PopRequest], one up each time: after
    a run of the system from a fresh pool created at [start], [height] is
    [start] plus the number of [PopRequest] calls of the run, in [uint]
    arithmetic, and never below [start] as long as that sum stays within
    [uint]. *)
Theorem height_counts_pops (start : Z) (trace : list action) (w : World) :
  is_uint start →
  exec trace (NewWorld start) = Some w →
  BlockPool.height (pool w) = wrap_uint (start + pops trace) ∧
  (start + pops trace < uint_modulus →
   BlockPool.height (pool w) = start + pops trace ∧
   start <= BlockPool.height (pool w)).
Proof.
  intros Hu Hexec. destruct (exec_height _ _ _ Hexec) as [Hh Hu'].
  cbn in Hh, Hu'.
  assert (Huw : is_uint (BlockPool.height (pool w))).
  { destruct trace as [|a trace]; [by injection Hexec as <-|].
    by apply Hu'. }
  rewrite (wrap_uint_id _ Huw) in Hh. split; [done|].
  intros Hlt. rewrite Hh.
  assert (0 <= pops trace) by (unfold pops; lia).
  rewrite wrap_uint_id; [lia|]. unfold is_uint in *. lia.
Qed.



Lemma height_counts_pops_witness :
  is_uint 0 ∧
  ∃ w,
    exec fetch_and_pop (NewWorld 0) = Some w ∧
    pops fetch_and_pop = 1 ∧
    BlockPool.height (pool w) = 1.
Proof.
  assert (Hu : is_uint 0) by (unfold is_uint, uint_modulus; lia).
  split; [exact Hu|].
  destruct (after_reachable fetch_and_pop 0 (λ _, True))
    as (w & Hexec & _); [by vm_compute|].
  exists w. split; [exact Hexec|]. split; [reflexivity|].
  destruct (height_counts_pops 0 fetch_and_pop w Hu Hexec) as [_ Hh].
  apply Hh. vm_compute. reflexivity.
Defined.


(** X1. In every state reached without a restart from a fresh pool, the
    requests of the table are exactly those of the [numTotal] consecutive
    heights from [height] on (in [uint] arithmetic), and the height that
    [nextHeight] returns, [height + numTotal], has no request yet. *)
Theorem window_contiguous_reachable (start : Z) (trace : list action)
    (w : World) :
  is_uint start →
  restart_free false trace = true →
  exec trace (NewWorld start) = Some w →
  (∀ k, is_Some (BlockPool.requests (pool w) !! k) ↔
        ∃ i, 0 <= i < BlockPool.numTotal (pool w) ∧
             k = wrap_uint (BlockPool.height (pool w) + i)) ∧
  is_uint (BlockPool.height (pool w)) ∧
  (∃ next,
     nextHeight (pool w) = Ok next (pool w) [] ∧
     next = wrap_uint (BlockPool.height (pool w)
                       + BlockPool.numTotal (pool w)) ∧
     BlockPool.requests (pool w) !! next = None).
Proof.
  intros Hs Hfree Hexec.
  destruct (exec_world_inv _ _ _ _ _ Hexec (NewWorld_inv _ Hs) Hfree)
    as (stopped' & Hinv & _).
  pose proof (next_height_eq _ Hinv) as Hnext.
  destruct (pool_inv_bounds _ Hinv) as [Hb1 Hb2].
  destruct Hinv as [Hh Ht Hp Hc Hwin].
  split; [exact Hwin|]. split; [done|].
  exists (next_height (pool w)). split; [reflexivity|]. split; [done|].
  apply eq_None_not_Some. rewrite Hwin, Hnext.
  apply next_not_in_window.
  unfold maxTotalRequests, uint_modulus in *. lia.
Qed.

Lemma window_contiguous_reachable_witness :
  is_uint 0 ∧
  restart_free false second_block_first = true ∧
  ∃ w,
    exec second_block_first (NewWorld 0) = Some w ∧
    BlockPool.numTotal (pool w) = 2 ∧
    ∀ k, is_Some (BlockPool.requests (pool w) !! k) ↔
         ∃ i, 0 <= i < BlockPool.numTotal (pool w) ∧
              k = wrap_uint (BlockPool.height (pool w) + i).
Proof.
  assert (Hu : is_uint 0) by (unfold is_uint, uint_modulus; lia).
  assert (Hf : restart_free false second_block_first = true)
    by reflexivity.
  split; [exact Hu|]. split; [exact Hf|].
  destruct (after_reachable second_block_first 0
              (λ w, BlockPool.numTotal (pool w) = 2))
    as (w & Hexec & Ht); [by vm_compute|].
  exists w. split; [exact Hexec|]. split; [exact Ht|].
  exact (proj1 (window_contiguous_reachable 0 _ w Hu Hf Hexec)).
Defined.

(** ** Goroutines after Stop *)






Lemma run_step_total pc pool :
  ∃ pc' pool' effs, run_step pc pool = Ok pc' pool' effs.
Proof.
  destruct pc as [| | |h|]; cbn [run_step].
  - unfold LoadRunning. unfold_M. cbn. destruct (decide _);
      by eexists _, _, _.
  - unfold GetStatus. unfold_M. cbn.
    repeat destruct (decide _); by eexists _, _, _.
  - unfold nextHeight. unfold_M. cbn. by eexists _, _, _.
  - unfold_M. rewrite makeRequest_total. by eexists _, _, _.
  - unfold_M. by eexists _, _, _.
Qed.



(** ** One pass of the admission loop *)

Lemma run_alone_step n pc pool pc' pool' effs :
  run_step pc pool = Ok pc' pool' effs →
  run_alone (S n) pc pool =
    match run_alone n pc' pool' with
    | Ok a pool'' effs' => Ok a pool'' (effs ++ effs')
    | Panic msg pool'' effs' => Panic msg pool'' (effs ++ effs')
    end.
Proof.
  intros Hstep. cbn [run_alone].
  unfold mbind, M_bind, bind. by rewrite Hstep.
Qed.

Lemma run_step_RunLoop pool :
  BlockPool.running pool ≠ 0 → run_step RunLoop pool = Ok RunStatus pool [].
Proof.
  intros Hrun. destruct (run_step_total RunLoop pool)
    as (pc' & pool' & effs & Hstep).
  rewrite Hstep. apply run_step_inv in Hstep as (-> & -> & ->).
  by rewrite decide_False.
Qed.

Lemma run_step_RunStatus pool :
  run_step RunStatus pool =
    Ok (if decide (BlockPool.numPending pool >= maxPendingRequests)
        then RunLoop
        else if decide (BlockPool.numTotal pool >= maxTotalRequests)
        then RunLoop else RunNextHeight) pool [].
Proof.
  destruct (run_step_total RunStatus pool) as (pc' & pool' & effs & Hstep).
  rewrite Hstep. by apply run_step_inv in Hstep as (-> & -> & ->).
Qed.

Lemma run_step_RunNextHeight pool :
  run_step RunNextHeight pool = Ok (RunMakeRequest (next_height pool)) pool [].
Proof.
  destruct (run_step_total RunNextHeight pool)
    as (pc' & pool' & effs & Hstep).
  rewrite Hstep. by apply run_step_inv in Hstep as (-> & -> & ->).
Qed.

Lemma run_step_RunMakeRequest h pool pool' effs :
  makeRequest h pool = Ok tt pool' effs →
  run_step (RunMakeRequest h) pool = Ok RunLoop pool' effs.
Proof.
  intros Hmake. destruct (run_step_total (RunMakeRequest h) pool)
    as (pc' & pool'' & effs' & Hstep).
  rewrite Hstep. apply run_step_inv in Hstep as (-> & Hmake').
  rewrite Hmake in Hmake'. by injection Hmake' as <- <-.
Qed.

(** X7. One pass of the admission loop over a running pool, nothing else
    interfering.  When [numPending] has reached [maxPendingRequests] or
    [numTotal] has reached [maxTotalRequests], the pass is back at the head
    of the loop after two steps and the pool is as it was.  When both are
    below their caps, the pass takes four steps and its whole effect is
    that of [makeRequest] at the height [nextHeight] returns: one empty
    request more, both counters one higher, one goroutine started. *)
Theorem admission_gate (pool : BlockPool.t) :
  BlockPool.running pool ≠ 0 →
  (BlockPool.numPending pool >= maxPendingRequests ∨
   BlockPool.numTotal pool >= maxTotalRequests →
   run_alone 2 RunLoop pool = Ok RunLoop pool []) ∧
  (BlockPool.numPending pool < maxPendingRequests →
   BlockPool.numTotal pool < maxTotalRequests →
   ∃ next pool',
     nextHeight pool = Ok next pool [] ∧
     makeRequest next pool = Ok tt pool' [GoRequestRoutine next] ∧
     run_alone 4 RunLoop pool = Ok RunLoop pool' [GoRequestRoutine next] ∧
     BlockPool.requests pool' =
       <[next := bpRequest.mk next "" None]> (BlockPool.requests pool) ∧
     BlockPool.numTotal pool' = wrap_int32 (BlockPool.numTotal pool + 1) ∧
     BlockPool.numPending pool' =
       wrap_int32 (BlockPool.numPending pool + 1)).
Proof.
  intros Hrun. split.
  - intros Hcap.
    rewrite (run_alone_step _ _ _ _ _ _ (run_step_RunLoop pool Hrun)).
    rewrite (run_alone_step _ _ _ _ _ _ (run_step_RunStatus pool)).
    cbn [run_alone]. unfold mret, M_ret, ret.
    destruct (decide (BlockPool.numPending pool >= maxPendingRequests));
      [done|].
    destruct (decide (BlockPool.numTotal pool >= maxTotalRequests));
      [done|]. lia.
  - intros Hp Ht.
    pose proof (makeRequest_total pool (next_height pool)) as Hmake.
    unfold next_height in Hmake at 2. rewrite decide_True in Hmake by done.
    cbn zeta in Hmake.
    eexists (next_height pool), _.
    split; [reflexivity|]. split; [exact Hmake|]. split; [|done].
    rewrite (run_alone_step _ _ _ _ _ _ (run_step_RunLoop pool Hrun)).
    rewrite (run_alone_step _ _ _ _ _ _ (run_step_RunStatus pool)).
    rewrite decide_False by lia. rewrite decide_False by lia.
    rewrite (run_alone_step _ _ _ _ _ _ (run_step_RunNextHeight pool)).
    rewrite (run_alone_step _ _ _ _ _ _
               (run_step_RunMakeRequest _ _ _ _ Hmake)).
    reflexivity.
Qed.

Lemma admission_gate_witness :
  BlockPool.running sample_pool ≠ 0 ∧
  run_alone 4 RunLoop sample_pool =
    Ok RunLoop
      {| BlockPool.requests :=
           {[ 7 := bpRequest.mk 7 "A" None;
              8 := bpRequest.mk 8 "B" (Some (Block.mk 8 "b8"));
              9 := bpRequest.mk 9 "" None ]};
         BlockPool.height := 7;
         BlockPool.numPending := 2;
         BlockPool.numTotal := 3;
         BlockPool.peers := BlockPool.peers sample_pool;
         BlockPool.running := 1 |}
      [GoRequestRoutine 9].
Proof.
  assert (Hrun : BlockPool.running sample_pool ≠ 0) by (cbn; lia).
  split; [exact Hrun|].
  assert (Hp : BlockPool.numPending sample_pool < maxPendingRequests)
    by (vm_compute; reflexivity).
  assert (Ht : BlockPool.numTotal sample_pool < maxTotalRequests)
    by (vm_compute; reflexivity).
  destruct (proj2 (admission_gate sample_pool Hrun) Hp Ht)
    as (next & pool' & Hnext & Hmake & -> & _).
  vm_compute in Hnext. injection Hnext as <-.
  vm_compute in Hmake. injection Hmake as <-.
  vm_compute. reflexivity.
Defined.

(** ** No request is left without a goroutine *)

Lemma perform_spawned w effs h :
  GoRequestRoutine h ∈ effs →
  ∃ i, routines (foldl perform w effs) !! i = Some (h, PickLoop).
Proof.
  revert w. induction effs as [|e effs IH]; intros w Hin.
  - by apply elem_of_nil in Hin.
  - apply elem_of_cons in Hin as [<-|Hin]; cbn [foldl].
    + exists (length (routines w)). apply perform_routines_lookup. cbn.
      by rewrite lookup_app_r, Nat.sub_diag.
    + by apply IH.
Qed.

Lemma served_perform w effs :
  (∀ h, awaited (pool w) h →
        (∃ i pc, routines w !! i = Some (h, pc) ∧ live pc = true) ∨
        GoRequestRoutine h ∈ effs) →
  served (foldl perform w effs).
Proof.
  intros Hall h Hh. rewrite perform_pool in Hh.
  destruct (Hall h Hh) as [(i & pc & Hi & Hl)|Hin].
  - exists i, pc. split; [by apply perform_routines_lookup|done].
  - destruct (perform_spawned w effs h Hin) as [i Hi]. by exists i, PickLoop.
Qed.

Lemma hands_over_same pool pool' effs :
  BlockPool.requests pool' = BlockPool.requests pool →
  hands_over pool pool' effs.
Proof. intros Hr h (r & Hh & Hb). left. exists r. by rewrite <- Hr. Qed.

Lemma hands_over_insert pool pool' effs k r' :
  BlockPool.requests pool' = <[k := r']> (BlockPool.requests pool) →
  (bpRequest.block r' = None → awaited pool k ∨ GoRequestRoutine k ∈ effs) →
  hands_over pool pool' effs.
Proof.
  intros Hr Hk h (r & Hh & Hb). rewrite Hr in Hh.
  destruct (decide (k = h)) as [<-|Hne].
  - rewrite lookup_insert_eq in Hh. injection Hh as <-. by apply Hk.
  - rewrite lookup_insert_ne in Hh by done. left. by exists r.
Qed.

Lemma AddBlock_hands_over b p pool a pool' effs :
  AddBlock b p pool = Ok a pool' effs → hands_over pool pool' effs.
Proof.
  destruct (accepts_dec_cases pool b p) as [(r & Hr & Hp & Hb)|Hn].
  - rewrite (AddBlock_accepted _ _ _ r) by done. intros [= <- <- <-].
    eapply hands_over_insert; [reflexivity|]. done.
  - rewrite AddBlock_discarded by done. intros [= <- <- <-].
    by apply hands_over_same.
Qed.

Lemma PopRequest_hands_over pool a pool' effs :
  PopRequest pool = Ok a pool' effs → hands_over pool pool' effs.
Proof.
  intros (_ & -> & ->)%PopRequest_Ok h (r & Hh & Hb). cbn in Hh.
  apply lookup_delete_Some in Hh as [_ Hh]. left. by exists r.
Qed.

Lemma RedoRequest_hands_over h pool a pool' effs :
  RedoRequest h pool = Ok a pool' effs → hands_over pool pool' effs.
Proof.
  destruct (decide (filled pool h)) as [(r & b & Hr & Hb)|Hn].
  - rewrite (RedoRequest_filled _ _ r b) by done. intros [= <- <- <-].
    eapply hands_over_insert; [reflexivity|]. intros _. right.
    apply list_elem_of_here.
  - by destruct (RedoRequest_unfilled _ _ Hn) as [msg ->].
Qed.

Lemma makeRequest_hands_over h pool a pool' effs :
  makeRequest h pool = Ok a pool' effs → hands_over pool pool' effs.
Proof.
  rewrite makeRequest_total. intros [= <- <- <-].
  eapply (hands_over_insert _ _ _ h (bpRequest.mk h "" None)).
  - by destruct (decide _).
  - intros _. right. apply list_elem_of_here.
Qed.

Lemma run_step_hands_over pc pool pc' pool' effs :
  run_step pc pool = Ok pc' pool' effs → hands_over pool pool' effs.
Proof.
  intros Hrun%run_step_inv. destruct pc as [| | |h|].
  - destruct Hrun as (-> & _). by apply hands_over_same.
  - destruct Hrun as (-> & _). by apply hands_over_same.
  - destruct Hrun as (-> & _). by apply hands_over_same.
  - destruct Hrun as (_ & Hmake). by eapply makeRequest_hands_over.
  - destruct Hrun as (_ & -> & _). by apply hands_over_same.
Qed.

Lemma requestRoutine_step_hands_over order h pc pool pc' pool' effs :
  requestRoutine_step order h pc pool = Ok pc' pool' effs →
  hands_over pool pool' [].
Proof.
  intros Hstep. pose proof Hstep as Hinv.
  apply requestRoutine_step_inv in Hinv.
  destruct pc as [| |p|p try|p try|p try|p|p|].
  - destruct Hinv as (-> & _). by apply hands_over_same.
  - destruct Hinv as [(Hpick & _)|(peer & Hpick & _)];
      apply pickIncrAvailablePeer_table in Hpick as (Hr & _);
      by apply hands_over_same.
  - cbn in Hstep. unfold_M. rewrite setPeerForRequest_cases in Hstep.
    injection Hstep as _ <- _.
    destruct (BlockPool.requests pool !! h) as [r|] eqn:Hr.
    + eapply hands_over_insert; [reflexivity|]. cbn. intros Hb. left.
      by exists r.
    + by apply hands_over_same.
  - destruct Hinv as [(_ & _ & -> & _)|(_ & _ & _ & ->)];
      by apply hands_over_same.
  - destruct Hinv as (-> & _). by apply hands_over_same.
  - destruct Hinv as (-> & _). by apply hands_over_same.
  - destruct Hinv as (_ & _ & Hdecr).
    apply decrPeer_table in Hdecr as (Hr & _). by apply hands_over_same.
  - destruct Hinv as (_ & -> & _). by apply hands_over_same.
  - destruct Hinv as (_ & -> & _). by apply hands_over_same.
Qed.

Lemma served_call {A} (m : M A) w w' :
  call m w = Some w' →
  served w →
  (∀ a pool' effs,
     m (pool w) = Ok a pool' effs → hands_over (pool w) pool' effs) →
  served w'.
Proof.
  intros (a & pool' & effs & Hm & ->)%call_Some Hs Hover.
  apply served_perform. cbn. intros h Hh.
  destruct (Hover _ _ _ Hm h Hh) as [Hold|Hin]; [|by right].
  left. by apply Hs.
Qed.

(** A request of the table is not below the base height, as long as the
    window does not reach the end of [uint]. *)
Lemma window_not_below pool h :
  pool_inv pool →
  BlockPool.height pool + BlockPool.numTotal pool <= uint_modulus →
  is_Some (BlockPool.requests pool !! h) →
  ¬ h < BlockPool.height pool.
Proof.
  intros Hinv Hb Hh. destruct Hinv as [Hu _ _ _ Hwin].
  apply Hwin in Hh as (i & Hi & ->).
  rewrite wrap_uint_id; [lia|]. unfold is_uint in *. lia.
Qed.

Lemma started_nonempty pool h :
  pool_inv pool → started_or_empty pool → awaited pool h →
  BlockPool.running pool = 1.
Proof.
  intros Hinv [H1|[_ H0]] (r & Hh & _); [done|].
  rewrite (inv_total _ Hinv) in H0.
  assert (BlockPool.requests pool = ∅) as Hempty.
  { apply map_size_empty_iff. lia. }
  by rewrite Hempty, lookup_empty in Hh.
Qed.

Lemma step_served a w w' redone :
  step a w = Some w' →
  world_inv false redone w →
  started_or_empty (pool w) →
  BlockPool.height (pool w) + BlockPool.numTotal (pool w) <= uint_modulus →
  served w →
  served w'.
Proof.
  intros Hstep Hinv Hst Hb Hs. pose proof (proj1 Hinv) as Hpool.
  apply step_inv in Hstep as [_ Hstep].
  destruct a as [| |p h|p|b p| | | |h|i|i order].
  - eapply served_call; [done|done|]. intros a pool' effs.
    destruct (decide (BlockPool.running (pool w) = 0)) as [H0|H0].
    + rewrite Start_stopped by done. intros [= <- <- <-].
      by apply hands_over_same.
    + rewrite Start_running by done. intros [= <- <- <-].
      by apply hands_over_same.
  - eapply served_call; [done|done|]. intros a pool' effs.
    destruct (decide (BlockPool.running (pool w) = 1)) as [H1|H1].
    + rewrite Stop_running by done. intros [= <- <- <-].
      by apply hands_over_same.
    + rewrite Stop_stopped by done. intros [= <- <- <-].
      by apply hands_over_same.
  - eapply served_call; [done|done|]. intros a pool' effs.
    rewrite SetPeerHeight_total. intros [= <- <- <-].
    by apply hands_over_same.
  - eapply served_call; [done|done|]. intros a pool' effs.
    unfold RemovePeer. unfold_M. intros [= <- <- <-].
    by apply hands_over_same.
  - eapply served_call; [done|done|]. intros a pool' effs.
    apply AddBlock_hands_over.
  - eapply served_call; [done|done|]. intros a pool' effs.
    unfold GetStatus. unfold_M. intros [= <- <- <-].
    by apply hands_over_same.
  - eapply served_call; [done|done|]. intros a pool' effs.
    unfold PeekTwoBlocks. unfold_M. intros [= <- <- <-].
    by apply hands_over_same.
  - eapply served_call; [done|done|]. intros a pool' effs.
    apply PopRequest_hands_over.
  - eapply served_call; [done|done|]. intros a pool' effs.
    apply RedoRequest_hands_over.
  - destruct Hstep as (pc & pc' & pool' & effs & _ & Hrun & ->).
    apply served_perform. cbn. intros h Hh.
    destruct (run_step_hands_over _ _ _ _ _ Hrun h Hh) as [Hold|Hin];
      [|by right].
    left. by apply Hs.
  - destruct Hstep as (h & pc & pc' & pool' & effs & Hi & Hrs & ->).
    apply served_perform. cbn. intros h0 Hh0. left.
    destruct (requestRoutine_step_hands_over _ _ _ _ _ _ _ Hrs h0 Hh0)
      as [Hold|Hin]; cycle 1.
    { by apply elem_of_nil in Hin. }
    destruct (Hs h0 Hold) as (j & pcj & Hj & Hlive).
    destruct (decide (j = i)) as [->|Hne]; cycle 1.
    { exists j, pcj. by rewrite list_lookup_insert_ne. }
    rewrite Hi in Hj. injection Hj as <- <-.
    exists i, pc'. split.
    { apply list_lookup_insert_eq. by eapply lookup_lt_Some. }
    pose proof (started_nonempty _ _ Hpool Hst Hold) as Hrunning.
    pose proof Hrs as Hinv'. apply requestRoutine_step_inv in Hinv'.
    destruct pc as [| |p|p try|p try|p try|p|p|]; try done.
    + destruct Hinv' as (_ & _ & ->). by rewrite decide_True.
    + by destruct Hinv' as [(_ & -> & _)|(peer & _ & -> & _)].
    + by destruct Hinv' as (-> & _).
    + by destruct Hinv' as [(_ & -> & _)|(_ & -> & _)].
    + destruct Hinv' as (-> & _ & [[_ Hf]|[-> _]]); [|done].
      destruct Hh0 as (r & Hr & Hb0), Hf as (r' & b' & Hr' & Hb').
      congruence.
    + destruct Hinv' as (-> & _ & [[_ Hlt]|[-> _]]); [|done].
      destruct Hh0 as (r & Hr & _).
      by destruct (window_not_below _ h Hpool Hb (mk_is_Some _ _ Hr)).
    + by destruct Hinv' as (-> & _).
Qed.

Lemma started_or_empty_keeps pool pool' :
  started_or_empty pool →
  BlockPool.running pool' = BlockPool.running pool →
  (BlockPool.numTotal pool = 0 → BlockPool.numTotal pool' = 0) →
  started_or_empty pool'.
Proof.
  intros [H1|[H0 Ht]] Hr Hn; [left|right]; rewrite Hr; [done|].
  split; [done|by apply Hn].
Qed.

Lemma step_started a w w' redone :
  step a w = Some w' →
  is_stop a = false →
  world_inv false redone w →
  started_or_empty (pool w) →
  started_or_empty (pool w').
Proof.
  intros Hstep Hns Hinv Hst. pose proof (proj1 Hinv) as Hpool.
  apply step_inv in Hstep as [_ Hstep].
  destruct a as [| |p h|p|b p| | | |h|i|i order]; try done.
  - apply call_Some in Hstep as (a & pool' & effs & Hm & ->).
    rewrite perform_pool. cbn.
    destruct (decide (BlockPool.running (pool w) = 0)) as [H0|H0].
    + rewrite Start_stopped in Hm by done. injection Hm as <- <-.
      by left.
    + rewrite Start_running in Hm by done. by injection Hm as <- <-.
  - apply call_Some in Hstep as (a & pool' & effs & Hm & ->).
    rewrite perform_pool. cbn.
    rewrite SetPeerHeight_total in Hm. injection Hm as <- <-.
    by apply (started_or_empty_keeps (pool w)).
  - apply call_Some in Hstep as (a & pool' & effs & Hm & ->).
    rewrite perform_pool. cbn.
    unfold RemovePeer in Hm. unfold_M. injection Hm as <- <-.
    by apply (started_or_empty_keeps (pool w)).
  - apply call_Some in Hstep as (a & pool' & effs & Hm & ->).
    rewrite perform_pool. cbn.
    apply AddBlock_inv in Hm as (_ & _ & Ht & _ & Hr & _); [|done].
    apply (started_or_empty_keeps (pool w)); [done|done|]. by rewrite Ht.
  - apply call_Some in Hstep as (a & pool' & effs & Hm & ->).
    rewrite perform_pool. cbn.
    unfold GetStatus in Hm. unfold_M. by injection Hm as <- <-.
  - apply call_Some in Hstep as (a & pool' & effs & Hm & ->).
    rewrite perform_pool. cbn.
    unfold PeekTwoBlocks in Hm. unfold_M. by injection Hm as <- <-.
  - apply call_Some in Hstep as (a & pool' & effs & Hm & ->).
    rewrite perform_pool. cbn.
    apply PopRequest_inv in Hm as (Hinv' & [Hle _] & _ & Hr & _); [|done].
    apply (started_or_empty_keeps (pool w)); [done|done|].
    destruct (pool_inv_bounds _ Hinv'). lia.
  - apply call_Some in Hstep as (a & pool' & effs & Hm & ->).
    rewrite perform_pool. cbn.
    apply RedoRequest_inv in Hm as (_ & _ & Ht & Hr & _); [|done].
    apply (started_or_empty_keeps (pool w)); [done|done|]. by rewrite Ht.
  - destruct Hstep as (pc & pc' & pool' & effs & Hi & Hrun & ->).
    rewrite perform_pool. cbn.
    destruct Hst as [H1|[H0 _]]; cycle 1.
    { destruct Hinv as (_ & _ & _ & Hnone & _).
      by rewrite (Hnone eq_refl H0) in Hi. }
    left. apply run_step_inv in Hrun. destruct pc as [| | |h|].
    + by destruct Hrun as (-> & _).
    + by destruct Hrun as (-> & _).
    + by destruct Hrun as (-> & _).
    + destruct Hrun as (_ & Hmake). rewrite makeRequest_total in Hmake.
      injection Hmake as <- _. by destruct (decide _).
    + by destruct Hrun as (_ & -> & _).
  - destruct Hstep as (h & pc & pc' & pool' & effs & Hi & Hrs & ->).
    rewrite perform_pool. cbn.
    apply requestRoutine_step_table in Hrs as (_ & _ & Ht & _ & Hr & _);
      [|done].
    apply (started_or_empty_keeps (pool w)); [done|done|]. by rewrite Ht.
Qed.

Lemma exec_served trace w w' redone :
  exec trace w = Some w' →
  stop_free trace = true →
  world_inv false redone w →
  started_or_empty (pool w) →
  BlockPool.height (pool w) + pops trace + maxTotalRequests
    <= uint_modulus →
  served w →
  served w'.
Proof.
  revert w redone.
  induction trace as [|a trace IH]; intros w redone Hexec Hfree Hinv Hst Hb Hs.
  - by injection Hexec as <-.
  - cbn in Hexec. destruct (step a w) as [w1|] eqn:Hstep; [|done].
    cbn in Hfree. apply andb_true_iff in Hfree as [Hns Hfree].
    apply negb_true_iff in Hns.
    assert (0 <= pops trace) as Hpops by (unfold pops; lia).
    rewrite pops_cons in Hb.
    pose proof (proj1 Hinv) as Hpool.
    destruct (pool_inv_bounds _ Hpool) as [_ Hcap].
    pose proof (inv_height _ Hpool) as Hu.
    assert (world_inv false (redone || is_redo a) w1) as Hinv1.
    { pose proof (step_world_inv _ _ _ _ _ Hstep Hinv (λ _, eq_refl)) as H.
      by rewrite Hns in H. }
    apply (IH w1 (redone || is_redo a) Hexec Hfree Hinv1).
    + by eapply step_started.
    + destruct (step_facts _ _ _ Hstep) as [(_ & -> & _) _].
      destruct (is_pop a); [|lia].
      rewrite wrap_uint_id; [lia|].
      unfold is_uint, maxTotalRequests in *. lia.
    + eapply step_served; [done|done|done| |done].
      destruct (is_pop a); lia.
Qed.

(** X19. As long as [Stop] is not called and the heights stay within
    [uint], no request is left alone: in every state the system reaches
    from a fresh pool, each request without block has a request goroutine
    for its height that has not returned and has not decided to. *)
Theorem unfilled_requests_are_served (start : Z) (trace : list action)
    (w : World) :
  is_uint start →
  stop_free trace = true →
  start + pops trace + maxTotalRequests <= uint_modulus →
  exec trace (NewWorld start) = Some w →
  served w.
Proof.
  intros Hu Hfree Hb Hexec.
  eapply (exec_served _ _ _ false Hexec Hfree).
  - by apply NewWorld_inv.
  - right. done.
  - done.
  - intros h (r & Hh & _). cbn in Hh. by rewrite lookup_empty in Hh.
Qed.

Lemma unfilled_requests_are_served_witness :
  ∃ w,
    is_uint 0 ∧
    stop_free second_block_first = true ∧
    0 + pops second_block_first + maxTotalRequests <= uint_modulus ∧
    exec second_block_first (NewWorld 0) = Some w ∧
    awaited (pool w) 0 ∧ ¬ awaited (pool w) 1 ∧
    ∃ i pc, routines w !! i = Some (0, pc) ∧ live pc = true.
Proof.
  destruct (after_reachable second_block_first 0
              (λ w, awaited (pool w) 0 ∧ ¬ awaited (pool w) 1))
    as (w & Hexec & H0 & H1).
  { vm_compute. split.
    - eexists. split; reflexivity.
    - intros (r & Hr & Hb). injection Hr as <-. discriminate Hb. }
  assert (Hu : is_uint 0) by (unfold is_uint, uint_modulus; lia).
  assert (Hfree : stop_free second_block_first = true) by reflexivity.
  assert (Hb : 0 + pops second_block_first + maxTotalRequests
               <= uint_modulus) by (vm_compute; discriminate).
  exists w. split; [exact Hu|]. split; [exact Hfree|]. split; [exact Hb|].
  split; [exact Hexec|]. split; [exact H0|]. split; [exact H1|].
  exact (unfilled_requests_are_served 0 _ w Hu Hfree Hb Hexec 0 H0).
Defined.

(** After a restart the request of height 0 has no goroutine any more: the
    one it had returned when it found the pool stopped, and the new
    admission loop goes on from height 1. *)
Example request_orphaned_by_restart :
  ∃ w,
    exec restart_after_admission (NewWorld 0) = Some w ∧
    BlockPool.running (pool w) = 1 ∧
    awaited (pool w) 0 ∧
    routines w = [(0, Returned)] ∧
    nextHeight (pool w) = Ok 1 (pool w) [].
Proof.
  apply (after_reachable restart_after_admission 0
           (λ w, BlockPool.running (pool w) = 1 ∧ awaited (pool w) 0 ∧
                 routines w = [(0, Returned)] ∧
                 nextHeight (pool w) = Ok 1 (pool w) [])).
  vm_compute. split; [reflexivity|]. split; [|split; reflexivity].
  eexists. split; reflexivity.
Qed.

(** At the end of [uint] the goroutine of height 0 takes its height for one
    the pool has passed and gives up, while its request is in the table
    without block. *)
Example request_orphaned_by_wrap :
  ∃ w,
    exec admission_across_wrap (NewWorld (uint_modulus - 1)) = Some w ∧
    BlockPool.running (pool w) = 1 ∧
    awaited (pool w) 0 ∧
    routines w = [(uint_modulus - 1, PickLoop); (0, Returned)].
Proof.
  apply (after_reachable admission_across_wrap (uint_modulus - 1)
           (λ w, BlockPool.running (pool w) = 1 ∧ awaited (pool w) 0 ∧
                 routines w =
                   [(uint_modulus - 1, PickLoop); (0, Returned)])).
  vm_compute. split; [reflexivity|]. split; [|reflexivity].
  eexists. split; reflexivity.
Qed.

(** ** The consumer gets the blocks in the order of their heights *)

Lemma popped_from trace w w' :
  exec trace w = Some w' →
  keyed (pool w) →
  is_uint (BlockPool.height (pool w)) →
  BlockPool.height (pool w) + pops trace < uint_modulus →
  Z.of_nat (length (popped trace w)) = pops trace ∧
  ∀ i b, popped trace w !! i = Some b →
         Block.Height b = BlockPool.height (pool w) + Z.of_nat i.
Proof.
  revert w. induction trace as [|a trace IH]; intros w Hexec Hk Hu Hb.
  - split; [done|]. intros i b Hi. cbn [popped] in Hi.
    by rewrite lookup_nil in Hi.
  - cbn in Hexec. cbn [popped].
    destruct (step a w) as [w1|] eqn:Hstep; [|done].
    assert (0 <= pops trace) as Hpops by (unfold pops; lia).
    rewrite pops_cons in Hb |- *.
    destruct (step_facts _ _ _ Hstep) as [(Hk1 & Hh1 & _) _].
    specialize (Hk1 Hk).
    destruct (is_pop a) eqn:Hpop.
    + assert (BlockPool.height (pool w1) = BlockPool.height (pool w) + 1)
        as Hh1'.
      { rewrite Hh1. apply wrap_uint_id. unfold is_uint in *. lia. }
      destruct (IH w1 Hexec Hk1) as [Hlen Hall].
      { rewrite Hh1'. unfold is_uint in *. lia. }
      { lia. }
      destruct a; try done. apply step_inv in Hstep as [_ Hstep].
      apply call_Some in Hstep as (a & pool' & effs & Hm & _).
      apply PopRequest_Ok in Hm as ((r & b & Hr & Hblock) & _).
      assert (block_at (pool w) (BlockPool.height (pool w)) = Some b)
        as ->.
      { unfold block_at. by rewrite Hr. }
      change (option_list (Some b)) with [b]. cbn [app length].
      split; [lia|].
      intros [|i] b' Hi.
      * injection Hi as <-. rewrite Z.add_0_r.
        by apply (proj1 Hk _ _ Hr).
      * cbn in Hi. rewrite (Hall _ _ Hi), Hh1'. lia.
    + cbn [app].
      destruct (IH w1 Hexec Hk1) as [Hlen Hall].
      { by rewrite Hh1. }
      { rewrite Hh1. lia. }
      split; [lia|]. intros i b Hi. by rewrite (Hall _ _ Hi), Hh1.
Qed.

(** X20. The blocks that [PopRequest] takes out of the table come in the
    order of their heights, without gap: in a run from a fresh pool created
    at [start], the call number [i] (counting from 0) removes a block of
    height [start + i], as long as these heights stay within [uint]. *)
Theorem popped_in_order (start : Z) (trace : list action) (w : World) :
  is_uint start →
  start + pops trace < uint_modulus →
  exec trace (NewWorld start) = Some w →
  Z.of_nat (length (popped trace (NewWorld start))) = pops trace ∧
  ∀ i b, popped trace (NewWorld start) !! i = Some b →
         Block.Height b = start + Z.of_nat i.
Proof.
  intros Hu Hb Hexec.
  apply (popped_from trace (NewWorld start) w Hexec); [|done|done].
  split; intros ? ?; cbn; by rewrite lookup_empty.
Qed.

Lemma popped_in_order_witness :
  ∃ w,
    is_uint 0 ∧
    0 + pops fetch_and_pop < uint_modulus ∧
    exec fetch_and_pop (NewWorld 0) = Some w ∧
    popped fetch_and_pop (NewWorld 0) = [Block.mk 0 "b"] ∧
    ∀ i b, popped fetch_and_pop (NewWorld 0) !! i = Some b →
           Block.Height b = 0 + Z.of_nat i.
Proof.
  destruct (after_reachable fetch_and_pop 0 (λ _, True))
    as (w & Hexec & _); [by vm_compute|].
  assert (Hu : is_uint 0) by (unfold is_uint, uint_modulus; lia).
  assert (Hb : 0 + pops fetch_and_pop < uint_modulus)
    by (vm_compute; reflexivity).
  exists w. split; [exact Hu|]. split; [exact Hb|]. split; [exact Hexec|].
  split; [vm_compute; reflexivity|].
  exact (proj2 (popped_in_order 0 _ w Hu Hb Hexec)).
Defined.

(** ** One admission loop *)

(** X21. However often [Start] is called, at most one admission loop runs,
    as long as the pool is not started again after a [Stop]. *)
Theorem single_admission_loop (start : Z) (trace : list action)
    (w : World) :
  is_uint start →
  restart_free false trace = true →
  exec trace (NewWorld start) = Some w →
  (length (runners w) <= 1)%nat.
Proof.
  intros Hs Hfree Hexec.
  by destruct (exec_world_inv _ _ _ _ _ Hexec (NewWorld_inv _ Hs) Hfree)
    as (stopped' & _ & Hlen & _).
Qed.

Lemma single_admission_loop_witness :
  ∃ w,
    is_uint 0 ∧
    restart_free false started_three_times = true ∧
    exec started_three_times (NewWorld 0) = Some w ∧
    runners w = [RunStatus] ∧
    (length (runners w) <= 1)%nat.
Proof.
  destruct (after_reachable started_three_times 0
              (λ w, runners w = [RunStatus]))
    as (w & Hexec & Hr); [vm_compute; reflexivity|].
  assert (Hu : is_uint 0) by (unfold is_uint, uint_modulus; lia).
  assert (Hfree : restart_free false started_three_times = true)
    by reflexivity.
  exists w. split; [exact Hu|]. split; [exact Hfree|].
  split; [exact Hexec|]. split; [exact Hr|].
  exact (single_admission_loop 0 _ w Hu Hfree Hexec).
Defined.

(** ** GenesisChunked *)

Lemma GenesisChunked_in_range (chunks : list string) (Chunk : Z) :
  Service.len chunks < 2 ^ 63 →
  0 <= Chunk < Service.len chunks →
  ∃ data,
    chunks !! Z.to_nat Chunk = Some data ∧
    Service.GenesisChunked (Some chunks) Chunk =
      Service.Return
        {| Service.ChunkNumber := Chunk;
           Service.TotalChunks := Service.len chunks;
           Service.Data := data |}.
Proof.
  intros Hmax [H0 Hlt].
  unfold Service.GenesisChunked, Service.int_of_uint.
  rewrite (decide_False (P := Service.len chunks = 0)) by lia.
  rewrite (decide_True (P := Chunk < 2 ^ 63)) by lia.
  rewrite (decide_False (P := Chunk > Service.len chunks - 1)) by lia.
  unfold Service.index. rewrite (decide_True (P := 0 <= Chunk)) by done.
  destruct (chunks !! Z.to_nat Chunk) as [data|] eqn:Hd.
  - by exists data.
  - apply lookup_ge_None in Hd. unfold Service.len in Hlt. lia.
Qed.

(** X17. [GenesisChunked] over a non-empty list of chunks: a chunk number
    below the number of chunks gets that chunk, its number and the total;
    a number from the total up to [2^63 - 1] gets the invalid-chunk error;
    a number of [2^63] or more, which the conversion [int(args.Chunk)]
    turns negative, passes the bound check and indexes the slice out of
    range. *)
Theorem GenesisChunked_spec (chunks : list string) (Chunk : Z) :
  is_uint Chunk →
  chunks ≠ [] →
  Service.len chunks < 2 ^ 63 →
  (Chunk < Service.len chunks →
   ∃ data,
     chunks !! Z.to_nat Chunk = Some data ∧
     Service.GenesisChunked (Some chunks) Chunk =
       Service.Return
         {| Service.ChunkNumber := Chunk;
            Service.TotalChunks := Service.len chunks;
            Service.Data := data |}) ∧
  (Service.len chunks <= Chunk < 2 ^ 63 →
   Service.GenesisChunked (Some chunks) Chunk =
     Service.Error (Service.ErrInvalidChunk (Service.len chunks - 1) Chunk)) ∧
  (2 ^ 63 <= Chunk →
   Service.GenesisChunked (Some chunks) Chunk = Service.IndexOutOfRange).
Proof.
  intros [Hu1 Hu2] Hne Hmax. unfold uint_modulus in Hu2.
  assert (Hlen : 0 < Service.len chunks).
  { unfold Service.len. destruct chunks; [done|]. cbn. lia. }
  split_and!.
  - intros Hlt. apply GenesisChunked_in_range; [done|lia].
  - intros [Hge Hlt].
    unfold Service.GenesisChunked, Service.int_of_uint.
    rewrite (decide_False (P := Service.len chunks = 0)) by lia.
    rewrite (decide_True (P := Chunk < 2 ^ 63)) by lia.
    by rewrite (decide_True (P := Chunk > Service.len chunks - 1)) by lia.
  - intros Hge.
    unfold Service.GenesisChunked, Service.int_of_uint.
    rewrite (decide_False (P := Service.len chunks = 0)) by lia.
    rewrite (decide_False (P := Chunk < 2 ^ 63)) by lia.
    rewrite (decide_False (P := Chunk - 2 ^ 64 > Service.len chunks - 1))
      by lia.
    unfold Service.index.
    by rewrite (decide_False (P := 0 <= Chunk - 2 ^ 64)) by lia.
Qed.

Lemma GenesisChunked_spec_witness :
  is_uint 1 ∧ ["c0"; "c1"; "c2"] ≠ ([] : list string) ∧
  Service.len ["c0"; "c1"; "c2"] < 2 ^ 63 ∧
  Service.GenesisChunked (Some ["c0"; "c1"; "c2"]) 1 =
    Service.Return
      {| Service.ChunkNumber := 1;
         Service.TotalChunks := 3;
         Service.Data := "c1" |}.
Proof.
  assert (Hu : is_uint 1) by (unfold is_uint, uint_modulus; lia).
  assert (Hne : ["c0"; "c1"; "c2"] ≠ ([] : list string)) by done.
  assert (Hmax : Service.len ["c0"; "c1"; "c2"] < 2 ^ 63)
    by (vm_compute; reflexivity).
  split; [exact Hu|]. split; [exact Hne|]. split; [exact Hmax|].
  destruct (proj1 (GenesisChunked_spec _ 1 Hu Hne Hmax))
    as (data & Hd & ->); [vm_compute; reflexivity|].
  cbn in Hd. by injection Hd as <-.
Defined.

Example GenesisChunked_largest_index :
  Service.GenesisChunked (Some ["c0"; "c1"; "c2"]) (2 ^ 64 - 1) =
    Service.IndexOutOfRange.
Proof. vm_compute. reflexivity. Qed.

Example GenesisChunked_no_chunks :
  Service.GenesisChunked None 0 =
    Service.Error Service.ErrChunksNotInitialized ∧
  Service.GenesisChunked (Some []) 0 = Service.Error Service.ErrNoChunks.
Proof. split; reflexivity. Qed.

(** X18. [Genesis] returns the genesis document when there is at most one
    chunk.  Otherwise it returns the error that points to
    [GenesisChunked], and then [GenesisChunked] does serve every chunk
    number from 0 to the last. *)
Theorem Genesis_or_chunked {G : Type} (genChunks : option (list string))
    (genesis : G) :
  Service.len (default [] genChunks) < 2 ^ 63 →
  (Service.Genesis genChunks genesis = Service.Return genesis ∧
   Service.len (default [] genChunks) <= 1) ∨
  (Service.Genesis genChunks genesis =
     Service.Error Service.ErrGenesisTooLarge ∧
   ∃ chunks,
     genChunks = Some chunks ∧ 2 <= Service.len chunks ∧
     ∀ Chunk, 0 <= Chunk < Service.len chunks →
       ∃ data,
         Service.GenesisChunked genChunks Chunk =
           Service.Return
             {| Service.ChunkNumber := Chunk;
                Service.TotalChunks := Service.len chunks;
                Service.Data := data |}).
Proof.
  intros Hmax. unfold Service.Genesis.
  destruct (decide (Service.len (default [] genChunks) > 1)) as [Hgt|Hle].
  - right. split; [done|].
    destruct genChunks as [chunks|]; cbn in *; [|unfold Service.len in Hgt;
                                                  cbn in Hgt; lia].
    exists chunks. split; [done|]. split; [lia|].
    intros Chunk [H0 Hlt].
    destruct (GenesisChunked_in_range chunks Chunk Hmax (conj H0 Hlt))
      as (data & _ & Hd).
    by exists data.
  - left. split; [done|lia].
Qed.

Lemma Genesis_or_chunked_witness :
  Service.len (default [] (Some ["c0"; "c1"])) < 2 ^ 63 ∧
  Service.Genesis (Some ["c0"; "c1"]) "doc" =
    Service.Error Service.ErrGenesisTooLarge ∧
  ∃ data,
    Service.GenesisChunked (Some ["c0"; "c1"]) 1 =
      Service.Return
        {| Service.ChunkNumber := 1;
           Service.TotalChunks := 2;
           Service.Data := data |}.
Proof.
  assert (Hmax : Service.len (default [] (Some ["c0"; "c1"])) < 2 ^ 63)
    by (vm_compute; reflexivity).
  split; [exact Hmax|].
  destruct (Genesis_or_chunked (Some ["c0"; "c1"]) "doc" Hmax)
    as [[Hret _]|(Herr & chunks & Hc & _ & Hall)].
  - vm_compute in Hret. discriminate.
  - split; [exact Herr|]. injection Hc as <-.
    destruct (Hall 1) as [data Hd]; [vm_compute; split; [discriminate|reflexivity]|].
    exists data. exact Hd.
Defined.
